(** * containuum: change detection, filters, debounce gate and reconnect loop

    A shallow embedding of the Go package [containuum]:
    - the structural hasher ([Port.hash], [Network.hash], [Container.hash],
      [computeHash]) over FNV-1a 64,
    - the filter combinators,
    - the monitor ([gatherContainers], [gather], [runOnce], [runWithRetry]).

    Go values are modelled as follows.  A [uint64] is a [Z] in [0, 2^64) with
    the wrap-around written out; a [time.Duration] is a [Z] number of
    nanoseconds wrapped to [int64]; a [string] is a Rocq [string] (a sequence
    of bytes); a slice is either [nil] or a list; a map is either [nil] or a
    list of entries in one of its possible iteration orders. *)

From Stdlib Require Import ZArith List Bool Ascii String Lia Permutation.
From Stdlib Require Import Sorted.
Import ListNotations.

Local Open Scope string_scope.
Local Open Scope Z_scope.
Local Open Scope list_scope.

Set Implicit Arguments.

(* ================================================================= *)
(** ** Go slices and maps *)

(** A slice distinguishes [nil] from an allocated slice of length zero. *)
Inductive slice (A : Type) : Type :=
| nilSlice : slice A
| Slice : list A -> slice A.
Arguments nilSlice {A}.
Arguments Slice {A} _.

(** The elements visited by [for _, x := range s]. *)
Definition elems {A} (s : slice A) : list A :=
  match s with
  | nilSlice => []
  | Slice l => l
  end.

Definition len {A} (s : slice A) : Z := Z.of_nat (List.length (elems s)).

(** [append(s, x)]: the result is never [nil]. *)
Definition append {A} (s : slice A) (x : A) : slice A := Slice (elems s ++ [x]).

(** A [map[string]V].  The entry list is the order in which one [range]
    over the map happens to visit it; Go leaves that order unspecified, so
    nothing may depend on it. *)
Inductive gomap (V : Type) : Type :=
| nilMap : gomap V
| Map : list (string * V) -> gomap V.
Arguments nilMap {V}.
Arguments Map {V} _.

Definition entries {V} (m : gomap V) : list (string * V) :=
  match m with
  | nilMap => []
  | Map l => l
  end.

Definition keys {V} (m : gomap V) : list string := map fst (entries m).

Definition maplen {V} (m : gomap V) : Z := Z.of_nat (List.length (entries m)).

(** Keys are unique in a Go map. *)
Definition wf_map {V} (m : gomap V) : Prop := NoDup (keys m).

Fixpoint assoc {V} (k : string) (l : list (string * V)) : option V :=
  match l with
  | [] => None
  | (k', v) :: l' => if String.eqb k k' then Some v else assoc k l'
  end.

(** [v, ok := m[k]] *)
Definition lookup {V} (m : gomap V) (k : string) : option V := assoc k (entries m).

(** [m[k]] on a [map[string]string]: the zero value [""] when the key is
    absent. *)
Definition mapIndex (m : gomap string) (k : string) : string :=
  match lookup m k with
  | Some v => v
  | None => ""
  end.

(* ================================================================= *)
(** ** sort.Strings *)

(** Go compares strings bytewise, as [String.leb] does.  [sort.Strings]
    returns the sorted rearrangement of its argument; strings that compare
    equal are identical, so every sorting algorithm gives the same slice. *)
Fixpoint insert (x : string) (l : list string) : list string :=
  match l with
  | [] => [x]
  | y :: l' => if String.leb x y then x :: l else y :: insert x l'
  end.

Fixpoint sortStrings (l : list string) : list string :=
  match l with
  | [] => []
  | x :: l' => insert x (sortStrings l')
  end.

Definition leS (x y : string) : Prop := String.leb x y = true.

(* ================================================================= *)
(** ** hash/fnv: FNV-1a, 64 bit *)

Module fnv.

Definition offset64 : Z := 14695981039346656037.
Definition prime64 : Z := 1099511628211.
Definition wrap64 (z : Z) : Z := z mod 2 ^ 64.

(** [New64a] *)
Definition New64a : Z := offset64.

Definition WriteByte (h : Z) (b : Z) : Z := wrap64 (Z.lxor h b * prime64).

(** [h.Write(bs)] *)
Definition Write (h : Z) (bs : list Z) : Z := fold_left WriteByte bs h.

(** [h.Sum64()] *)
Definition Sum64 (h : Z) : Z := h.

End fnv.

(** [[]byte(s)] *)
Definition bytes (s : string) : list Z :=
  map (fun a => Z.of_N (N_of_ascii a)) (list_ascii_of_string s).

Definition WriteString (h : Z) (s : string) : Z := fnv.Write h (bytes s).

(** [binary.Write(h, binary.LittleEndian, v)] for a [w]-byte unsigned [v]. *)
Fixpoint littleEndian (w : nat) (v : Z) : list Z :=
  match w with
  | O => []
  | S w' => Z.land v 255 :: littleEndian w' (Z.shiftr v 8)
  end.

Definition WriteUint64 (h : Z) (v : Z) : Z := fnv.Write h (littleEndian 8 v).
Definition WriteUint16 (h : Z) (v : Z) : Z := fnv.Write h (littleEndian 2 v).

(** [for _, x := range xs { acc ^= f(x) }] with [acc] starting at zero. *)
Definition xorFold {A} (f : A -> Z) (xs : list A) : Z :=
  fold_left (fun acc x => Z.lxor acc (f x)) xs 0.

(* ================================================================= *)
(** ** The data model and its hashes *)

Module Port.

Record t : Type := mk {
  HostIP : string;
  HostPort : Z;
  ContainerPort : Z;
  Protocol : string
}.

Definition hash (p : t) : Z :=
  let h := fnv.New64a in
  let h := WriteString h (HostIP p) in
  let h := WriteUint16 h (HostPort p) in
  let h := WriteUint16 h (ContainerPort p) in
  let h := WriteString h (Protocol p) in
  fnv.Sum64 h.

End Port.

Module Network.

Record t : Type := mk {
  Name : string;
  ID : string;
  IPAddress : string;
  IP6Address : string;
  Gateway : string;
  Aliases : slice string
}.

Definition hash (n : t) : Z :=
  let h := fnv.New64a in
  let h := WriteString h (Name n) in
  let h := WriteString h (ID n) in
  let h := WriteString h (IPAddress n) in
  let h := WriteString h (IP6Address n) in
  let h := WriteString h (Gateway n) in
  let h :=
    if 0 <? len (Aliases n)
    then fold_left WriteString (sortStrings (elems (Aliases n))) h
    else h in
  fnv.Sum64 h.

End Network.

Module Container.

Record t : Type := mk {
  ID : string;
  Name : string;
  Image : string;
  State : string;
  Labels : gomap string;
  Networks : slice Network.t;
  Ports : slice Port.t
}.

(** One round of the loop over the sorted keys. *)
Definition writeLabel (m : gomap string) (h : Z) (k : string) : Z :=
  WriteString (WriteString h k) (mapIndex m k).

Definition hash (c : t) : Z :=
  let h := fnv.New64a in
  let h := WriteString h (ID c) in
  let h := WriteString h (Name c) in
  let h := WriteString h (Image c) in
  let h := WriteString h (State c) in
  let h :=
    if 0 <? maplen (Labels c)
    then fold_left (writeLabel (Labels c)) (sortStrings (keys (Labels c))) h
    else h in
  let networksHash := xorFold Network.hash (elems (Networks c)) in
  let h := WriteUint64 h networksHash in
  let portsHash := xorFold Port.hash (elems (Ports c)) in
  let h := WriteUint64 h portsHash in
  fnv.Sum64 h.

End Container.

(** [computeHash] *)
Definition computeHash (containers : list Container.t) : Z :=
  xorFold Container.hash containers.

(* ================================================================= *)
(** ** Filters *)

Definition Filter : Type := Container.t -> bool.

Fixpoint All (filters : list Filter) (c : Container.t) : bool :=
  match filters with
  | [] => true
  | f :: rest => if negb (f c) then false else All rest c
  end.

Fixpoint Any (filters : list Filter) (c : Container.t) : bool :=
  match filters with
  | [] => false
  | f :: rest => if f c then true else Any rest c
  end.

Definition Not (f : Filter) : Filter := fun c => negb (f c).

Definition LabelExists (key : string) : Filter :=
  fun c =>
    match lookup (Container.Labels c) key with
    | Some _ => true
    | None => false
    end.

Definition LabelEquals (key value : string) : Filter :=
  fun c => String.eqb (mapIndex (Container.Labels c) key) value.

Definition StateEquals (state : string) : Filter :=
  fun c => String.eqb (Container.State c) state.

(* ================================================================= *)
(** ** Errors and the Docker API records *)

Inductive error : Type :=
| errorString : string -> error        (* an error built from a message *)
| wrapError : string -> error -> error (* [fmt.Errorf(prefix + "%w", err)] *)
| Canceled : error                     (* [context.Canceled] *)
| DeadlineExceeded : error.            (* [context.DeadlineExceeded] *)

(** The fields of the Docker API records that the package reads.  The
    pointers [Config], [State] and [ContainerJSONBase] are taken to be
    non-nil, as the API returns them. *)
Module docker.

Record Summary : Type := mkSummary { ID : string }.

Record PortBinding : Type := mkPortBinding {
  HostIP : string;
  HostPort : string
}.

Record EndpointSettings : Type := mkEndpointSettings {
  NetworkID : string;
  IPAddress : string;
  GlobalIPv6Address : string;
  Gateway : string;
  Aliases : slice string
}.

Record NetworkSettings : Type := mkNetworkSettings {
  Networks : gomap EndpointSettings;
  Ports : gomap (slice PortBinding)
}.

Record InspectResponse : Type := mkInspectResponse {
  inspectID : string;
  Name : string;
  ConfigImage : string;
  ConfigLabels : gomap string;
  StateStatus : string;
  Settings : option NetworkSettings
}.

End docker.

(** [strings.TrimPrefix(s, "/")] *)
Definition trimSlash (s : string) : string :=
  match s with
  | String "/"%char rest => rest
  | _ => s
  end.

(** [strings.Split(s, "/")] *)
Fixpoint splitSlash (s : string) : list string :=
  match s with
  | EmptyString => [EmptyString]
  | String a rest =>
      if Ascii.eqb a "/"%char then EmptyString :: splitSlash rest
      else match splitSlash rest with
           | x :: xs => String a x :: xs
           | [] => [String a EmptyString]
           end
  end.

Fixpoint parseDigits (acc : Z) (s : string) : option Z :=
  match s with
  | EmptyString => Some acc
  | String a rest =>
      let d := Z.of_N (N_of_ascii a) - 48 in
      if (0 <=? d) && (d <=? 9) then parseDigits (acc * 10 + d) rest else None
  end.

(** [strconv.ParseUint(s, 10, 16)]: [None] stands for a syntax or range
    error. *)
Definition ParseUint16 (s : string) : option Z :=
  match s with
  | EmptyString => None
  | _ =>
      match parseDigits 0 s with
      | Some v => if v <=? 65535 then Some v else None
      | None => None
      end
  end.

Definition convertNetwork (ne : string * docker.EndpointSettings) : Network.t :=
  let '(name, network) := ne in
  Network.mk name
    (docker.NetworkID network)
    (docker.IPAddress network)
    (docker.GlobalIPv6Address network)
    (docker.Gateway network)
    (docker.Aliases network).

(** The inner loop over the bindings of one port. *)
Definition convertBinding (containerPort : Z) (proto : string)
    (ports : slice Port.t) (binding : docker.PortBinding) : slice Port.t :=
  match ParseUint16 (docker.HostPort binding) with
  | None => ports
  | Some hostPortNum =>
      append ports (Port.mk (docker.HostIP binding) hostPortNum containerPort proto)
  end.

(** The outer loop over [NetworkSettings.Ports]. *)
Definition convertPort (ports : slice Port.t)
    (pb : string * slice docker.PortBinding) : slice Port.t :=
  let '(portProto, bindings) := pb in
  match splitSlash portProto with
  | [p0; p1] =>
      match ParseUint16 p0 with
      | None => ports
      | Some containerPortNum =>
          fold_left (convertBinding containerPortNum p1) (elems bindings) ports
      end
  | _ => ports
  end.

(** [convertContainer] *)
Definition convertContainer (inspect : docker.InspectResponse) : Container.t :=
  let networks :=
    match docker.Settings inspect with
    | Some ns =>
        fold_left (fun acc ne => append acc (convertNetwork ne))
                  (entries (docker.Networks ns)) nilSlice
    | None => nilSlice
    end in
  let ports :=
    match docker.Settings inspect with
    | Some ns => fold_left convertPort (entries (docker.Ports ns)) nilSlice
    | None => nilSlice
    end in
  Container.mk
    (docker.inspectID inspect)
    (trimSlash (docker.Name inspect))
    (docker.ConfigImage inspect)
    (docker.StateStatus inspect)
    (docker.ConfigLabels inspect)
    networks
    ports.

(* ================================================================= *)
(** ** The monitor *)

(** [time.Duration] constants, in nanoseconds. *)
Definition Millisecond : Z := 1000000.
Definition Second : Z := 1000 * Millisecond.
Definition Minute : Z := 60 * Second.

(** Wrap-around of [int] and [int64] arithmetic. *)
Definition wrapInt64 (z : Z) : Z := (z + 2 ^ 63) mod 2 ^ 64 - 2 ^ 63.

Record reconnectConfig : Type := mkReconnect {
  MinDelay : Z;
  MaxDelay : Z;
  MaxRetries : Z
}.

(** What the monitor does to the outside, in order: it subscribes to the
    event stream, it calls the callback (the record keeps the cursor as the
    monitor holds it at the moment of the call), and it sleeps between
    reconnects.  A panic is the last thing it does: nothing in [runOnce],
    [runWithRetry], [run] or [Run] recovers, so the goroutine unwinds
    without a return value. *)
Inductive action : Type :=
| Subscribed : action
| Invoked : option Z -> slice Container.t -> action
| Slept : Z -> action
| Panicked : string -> action.

(** The case of the [select] in [runOnce] that the runtime picks. *)
Inductive selected : Type :=
| ctxDone : error -> selected           (* [<-m.ctx.Done()], with [m.ctx.Err()] *)
| recvErr : option error -> selected    (* [err := <-errCh] *)
| recvEvent : selected                  (* [event := <-eventCh] *)
| debounceFired : selected              (* [<-debounceTimer.C] *)
| maxDebounceFired : selected           (* [<-maxDebounceTimer.C] *)
| idleTick : selected.                  (* [<-idleTicker.C] *)

(** The timers of one session and the [waiting] flag.  A stopped timer is
    [None], an armed one holds its deadline. *)
Record gate : Type := mkGate {
  debounceTimer : option Z;
  maxDebounceTimer : option Z;
  idleTicker : Z;
  waiting : bool
}.

Inductive control : Type :=
| Return : option error -> control
| Continue : gate -> control.

(** What the environment does during one attempt of [runWithRetry]. *)
Record attemptEnv : Type := mkAttempt {
  startTime : Z;                    (* [time.Now()] at the start *)
  script : list (Z * selected);     (* the cases selected, with their times *)
  ctxErr : option error;            (* [m.ctx.Err()] after [runOnce] *)
  elapsed : Z;                      (* [time.Since(startTime)] *)
  cancelled : option error          (* [ctx.Done] wins over [time.After] *)
}.

Section Monitor.

Variable World : Type.

(** The interface [DockerClient]; the state of the daemon is threaded
    through the calls.  [Events] only hands out the two channels, whose
    deliveries are the [selected] cases. *)
Record DockerClient : Type := mkClient {
  ContainerList : World -> (error + list docker.Summary) * World;
  ContainerInspect : string -> World -> (error + docker.InspectResponse) * World
}.

Record monitor : Type := mkMonitor {
  client : DockerClient;
  filter : option Filter;
  debounce : Z;
  maxDebounceTime : Z;
  maxIdleTime : Z;
  reconnect : option reconnectConfig;
  previousHash : option Z
}.

Definition setPreviousHash (m : monitor) (h : option Z) : monitor :=
  mkMonitor (client m) (filter m) (debounce m) (maxDebounceTime m)
            (maxIdleTime m) (reconnect m) h.

(** [m.filter == nil || m.filter(c)] *)
Definition passes (m : monitor) (c : Container.t) : bool :=
  match filter m with
  | None => true
  | Some f => f c
  end.

(** One round of the loop over the summaries in [gatherContainers]. *)
Definition inspectOne (m : monitor) (acc : slice Container.t * World)
    (summary : docker.Summary) : slice Container.t * World :=
  let '(containers, w) := acc in
  match ContainerInspect (client m) (docker.ID summary) w with
  | (inl _, w') => (containers, w')
  | (inr inspect, w') =>
      let c := convertContainer inspect in
      if passes m c then (append containers c, w') else (containers, w')
  end.

Definition gatherContainers (m : monitor) (w : World)
    : (error + slice Container.t) * World :=
  match ContainerList (client m) w with
  | (inl err, w') => (inl err, w')
  | (inr summaries, w') =>
      let '(containers, w'') := fold_left (inspectOne m) summaries (nilSlice, w') in
      (inr containers, w'')
  end.

Definition sameAsPrevious (m : monitor) (currentHash : Z) : bool :=
  match previousHash m with
  | Some previous => currentHash =? previous
  | None => false
  end.

Definition gather (m : monitor) (w : World)
    : option error * monitor * World * list action :=
  match gatherContainers m w with
  | (inl err, w') =>
      (Some (wrapError "failed to refresh containers: " err), m, w', [])
  | (inr containers, w') =>
      let currentHash := computeHash (elems containers) in
      if sameAsPrevious m currentHash then (None, m, w', [])
      else
        let m' := setPreviousHash m (Some currentHash) in
        (None, m', w', [Invoked (previousHash m') containers])
  end.

(** The body of the [for { select { ... } }] of [runOnce], for the case
    [sel] selected at time [now].  [idleTicker.Reset(m.maxIdleTime)]
    panics on a period that is not positive, as [time.NewTicker] does; the
    loop is entered only after [time.NewTicker(m.maxIdleTime)] has accepted
    that same period. *)
Definition loopBody (m : monitor) (g : gate) (now : Z) (sel : selected)
    (w : World) : control * monitor * World * list action :=
  match sel with
  | ctxDone err => (Return (Some err), m, w, [])
  | recvErr (Some err) =>
      (Return (Some (wrapError "failed to stream events: " err)), m, w, [])
  | recvErr None => (Return None, m, w, [])
  | recvEvent =>
      let idle := now + maxIdleTime m in
      if waiting g
      then (Continue (mkGate (Some (now + debounce m)) (maxDebounceTimer g)
                             idle true), m, w, [])
      else (Continue (mkGate (Some (now + debounce m))
                             (Some (now + maxDebounceTime m)) idle true),
            m, w, [])
  | debounceFired =>
      match gather m w with
      | (Some err, m', w', tr) => (Return (Some err), m', w', tr)
      | (None, m', w', tr) =>
          (Continue (mkGate None None (now + maxIdleTime m) false), m', w', tr)
      end
  | maxDebounceFired =>
      match gather m w with
      | (Some err, m', w', tr) => (Return (Some err), m', w', tr)
      | (None, m', w', tr) =>
          (Continue (mkGate None None (now + maxIdleTime m) false), m', w', tr)
      end
  | idleTick =>
      match gather m w with
      | (Some err, m', w', tr) => (Return (Some err), m', w', tr)
      | (None, m', w', tr) =>
          let next := idleTicker g + maxIdleTime m in
          if waiting g
          then (Continue (mkGate None None next false), m', w', tr)
          else (Continue (mkGate (debounceTimer g) (maxDebounceTimer g) next
                                 (waiting g)), m', w', tr)
      end
  end.

(** The loop of [runOnce] over the cases the runtime selects.  [None] as
    result says that the session is still blocked in [select] when the
    script ends. *)
Fixpoint eventLoop (m : monitor) (g : gate) (s : list (Z * selected))
    (w : World) : option (option error) * monitor * World * list action :=
  match s with
  | [] => (None, m, w, [])
  | (now, sel) :: rest =>
      match loopBody m g now sel w with
      | (Return err, m', w', tr) => (Some err, m', w', tr)
      | (Continue g', m', w', tr) =>
          let '(r, m'', w'', tr') := eventLoop m' g' rest w' in
          (r, m'', w'', tr ++ tr')
      end
  end.

(** [time.NewTicker(d)] at time [now]: the time of the first tick.  It
    panics when [d] is not positive. *)
Definition NewTicker (now d : Z) : option Z :=
  if 0 <? d then Some (now + d) else None.

(** The gate as [runOnce] creates it: both timers stopped
    ([time.NewTimer] followed by [Stop]), the ticker running, [waiting]
    false.  [None] when [time.NewTicker] panics. *)
Definition newGate (m : monitor) (start : Z) : option gate :=
  match NewTicker start (maxIdleTime m) with
  | Some tick => Some (mkGate None None tick false)
  | None => None
  end.

(** [runOnce].  The result is [None] when the session has not returned:
    it is still blocked in [select] when the script ends, or it has
    panicked, and then [Panicked] ends what it did. *)
Definition runOnce (m : monitor) (start : Z) (s : list (Z * selected))
    (w : World) : option (option error) * monitor * World * list action :=
  match gather m w with
  | (Some err, m', w', tr) => (Some (Some err), m', w', Subscribed :: tr)
  | (None, m', w', tr) =>
      match newGate m' start with
      | None =>
          (None, m', w',
           Subscribed :: tr ++ [Panicked "non-positive interval for NewTicker"])
      | Some g =>
          let '(r, m'', w'', tr') := eventLoop m' g s w' in
          (r, m'', w'', Subscribed :: tr ++ tr')
      end
  end.

(** [delay *= 2; if delay > MaxDelay { delay = MaxDelay }] *)
Definition nextDelay (rc : reconnectConfig) (delay : Z) : Z :=
  let delay := wrapInt64 (delay * 2) in
  if MaxDelay rc <? delay then MaxDelay rc else delay.

(** The loop of [runWithRetry], one attempt of the environment per round.
    A session that has not returned (it is still running, or it has
    panicked) leaves the loop where it is. *)
Fixpoint retryLoop (rc : reconnectConfig) (m : monitor) (attempt delay : Z)
    (envs : list attemptEnv) (w : World)
    : option (option error) * monitor * World * list action :=
  match envs with
  | [] => (None, m, w, [])
  | env :: rest =>
      match runOnce m (startTime env) (script env) w with
      | (None, m', w', tr) => (None, m', w', tr)
      | (Some err, m', w', tr) =>
          match ctxErr env with
          | Some cerr => (Some (Some cerr), m', w', tr)
          | None =>
              let stable := Minute <=? elapsed env in
              let attempt := if stable then 0 else attempt in
              let delay := if stable then MinDelay rc else delay in
              let attempt := wrapInt64 (attempt + 1) in
              if (0 <? MaxRetries rc) && (MaxRetries rc <? attempt)
              then (Some err, m', w', tr)
              else
                match cancelled env with
                | Some cerr => (Some (Some cerr), m', w', tr)
                | None =>
                    let '(r, m'', w'', tr') :=
                      retryLoop rc m' attempt (nextDelay rc delay) rest w' in
                    (r, m'', w'', tr ++ Slept delay :: tr')
                end
          end
      end
  end.

Definition runWithRetry (rc : reconnectConfig) (m : monitor)
    (envs : list attemptEnv) (w : World)
    : option (option error) * monitor * World * list action :=
  retryLoop rc m 0 (MinDelay rc) envs w.

(** [run] *)
Definition run (m : monitor) (envs : list attemptEnv) (w : World)
    : option (option error) * monitor * World * list action :=
  match reconnect m with
  | Some rc => runWithRetry rc m envs w
  | None =>
      match envs with
      | [] => (None, m, w, [])
      | env :: _ => runOnce m (startTime env) (script env) w
      end
  end.

(** *** Options and [Run] *)

Record config : Type := mkConfig {
  cfgClient : option DockerClient;
  cfgFilter : option Filter;
  cfgDebounce : Z;
  cfgMaxDebounceTime : Z;
  cfgMaxIdleTime : Z;
  enableAutoReconnect : bool;
  minReconnectDelay : Z;
  maxReconnectDelay : Z;
  maxReconnectRetries : Z
}.

Definition defaultConfig : config :=
  mkConfig None None (100 * Millisecond) (5 * Second) (30 * Second) false 0 0 0.

Definition WithDockerClient (c : DockerClient) (cfg : config) : config :=
  mkConfig (Some c) (cfgFilter cfg) (cfgDebounce cfg) (cfgMaxDebounceTime cfg)
           (cfgMaxIdleTime cfg) (enableAutoReconnect cfg)
           (minReconnectDelay cfg) (maxReconnectDelay cfg)
           (maxReconnectRetries cfg).

Definition WithFilter (f : Filter) (cfg : config) : config :=
  mkConfig (cfgClient cfg) (Some f) (cfgDebounce cfg) (cfgMaxDebounceTime cfg)
           (cfgMaxIdleTime cfg) (enableAutoReconnect cfg)
           (minReconnectDelay cfg) (maxReconnectDelay cfg)
           (maxReconnectRetries cfg).

Definition WithDebounce (d : Z) (cfg : config) : config :=
  mkConfig (cfgClient cfg) (cfgFilter cfg) d (cfgMaxDebounceTime cfg)
           (cfgMaxIdleTime cfg) (enableAutoReconnect cfg)
           (minReconnectDelay cfg) (maxReconnectDelay cfg)
           (maxReconnectRetries cfg).

Definition WithMaxDebounceTime (d : Z) (cfg : config) : config :=
  mkConfig (cfgClient cfg) (cfgFilter cfg) (cfgDebounce cfg) d
           (cfgMaxIdleTime cfg) (enableAutoReconnect cfg)
           (minReconnectDelay cfg) (maxReconnectDelay cfg)
           (maxReconnectRetries cfg).

Definition WithMaxIdleTime (d : Z) (cfg : config) : config :=
  mkConfig (cfgClient cfg) (cfgFilter cfg) (cfgDebounce cfg)
           (cfgMaxDebounceTime cfg) d (enableAutoReconnect cfg)
           (minReconnectDelay cfg) (maxReconnectDelay cfg)
           (maxReconnectRetries cfg).

Definition WithAutoReconnect (minDelay maxDelay maxRetries : Z) (cfg : config)
    : config :=
  mkConfig (cfgClient cfg) (cfgFilter cfg) (cfgDebounce cfg)
           (cfgMaxDebounceTime cfg) (cfgMaxIdleTime cfg) true
           minDelay maxDelay maxRetries.

(** The monitor that [Run] builds: the cursor starts unset. *)
Definition newMonitor (cfg : config) (dockerClient : DockerClient) : monitor :=
  let reconnect :=
    if enableAutoReconnect cfg
    then Some (mkReconnect (minReconnectDelay cfg) (maxReconnectDelay cfg)
                           (maxReconnectRetries cfg))
    else None in
  mkMonitor dockerClient (cfgFilter cfg) (cfgDebounce cfg)
            (cfgMaxDebounceTime cfg) (cfgMaxIdleTime cfg) reconnect None.

Definition applyOptions (opts : list (config -> config)) : config :=
  fold_left (fun cfg opt => opt cfg) opts defaultConfig.

(** [Run].  [newDefaultClient] is what building a client from the process
    environment gives. *)
Definition Run (newDefaultClient : error + DockerClient)
    (opts : list (config -> config)) (envs : list attemptEnv) (w : World)
    : option (option error) * World * list action :=
  let cfg := applyOptions opts in
  let dockerClient :=
    match cfgClient cfg with
    | Some c => inr c
    | None => newDefaultClient
    end in
  match dockerClient with
  | inl err => (Some (Some err), w, [])
  | inr c =>
      let '(r, _, w', tr) := run (newMonitor cfg c) envs w in
      (r, w', tr)
  end.

End Monitor.

(* ================================================================= *)
(** ** The session under a virtual clock *)

(** The [select] of [runOnce] blocks until one of its channels is ready and
    then takes a ready case, any of them when several are.  Under a
    virtual clock, with handlers that take no time, a channel is ready from
    the time its event is due: an event of the daemon at its arrival time, a
    timer at its deadline, the ticker at its next tick. *)

Definition refreshes (sel : selected) : bool :=
  match sel with
  | debounceFired | maxDebounceFired | idleTick => true
  | _ => false
  end.

(** The first refresh of a run, with its time. *)
Fixpoint firstRefresh (tr : list (Z * selected)) : option (Z * selected) :=
  match tr with
  | [] => None
  | (t, sel) :: rest =>
      if refreshes sel then Some (t, sel) else firstRefresh rest
  end.

Section Clock.

Variable World : Type.

Record session : Type := mkSession {
  clock : Z;                           (* the time of the last case taken *)
  arrivals : list Z;                   (* when the events still to come are sent *)
  doneAt : option (Z * error);         (* when the context ends, if it does *)
  errAt : option (Z * option error);   (* when [errCh] delivers, if it does *)
  timers : gate;
  mon : monitor World;
  world : World
}.

Definition due (s : session) (t : Z) : Z := Z.max (clock s) t.

(** The cases of the [select] with the time from which each is ready. *)
Definition candidates (s : session) : list (Z * selected) :=
  match doneAt s with
  | Some (t, err) => [(due s t, ctxDone err)]
  | None => []
  end ++
  match errAt s with
  | Some (t, err) => [(due s t, recvErr err)]
  | None => []
  end ++
  match arrivals s with
  | a :: _ => [(due s a, recvEvent)]
  | [] => []
  end ++
  match debounceTimer (timers s) with
  | Some d => [(due s d, debounceFired)]
  | None => []
  end ++
  match maxDebounceTimer (timers s) with
  | Some d => [(due s d, maxDebounceFired)]
  | None => []
  end ++
  [(due s (idleTicker (timers s)), idleTick)].

(** The case [sel] can be taken at time [t]: it is ready at [t] and nothing
    was ready before. *)
Definition enabled (s : session) (t : Z) (sel : selected) : Prop :=
  In (t, sel) (candidates s) /\
  forall t' sel', In (t', sel') (candidates s) -> t <= t'.

Inductive status : Type :=
| Live : session -> status
| Ended : option error -> status.

(** Taking the case [sel] at time [t]. *)
Definition fire (s : session) (t : Z) (sel : selected) : status * list action :=
  match loopBody (mon s) (timers s) t sel (world s) with
  | (Return err, _, _, tr) => (Ended err, tr)
  | (Continue g', m', w', tr) =>
      (Live (mkSession t
               (match sel with recvEvent => tl (arrivals s) | _ => arrivals s end)
               (doneAt s) (errAt s) g' m' w'), tr)
  end.

(** The runs of the loop: the cases taken, with their times. *)
Inductive exec : session -> list (Z * selected) -> status -> Prop :=
| exec_nil : forall s, exec s [] (Live s)
| exec_end : forall s t sel err,
    enabled s t sel -> fst (fire s t sel) = Ended err ->
    exec s [(t, sel)] (Ended err)
| exec_cons : forall s t sel s' tr st,
    enabled s t sel -> fst (fire s t sel) = Live s' ->
    exec s' tr st -> exec s ((t, sel) :: tr) st.

(** Events sent every [gap] from [t0] on, [S n] of them. *)
Definition arrivalsFrom (t0 gap : Z) (k count : nat) : list Z :=
  map (fun j => t0 + Z.of_nat j * gap) (seq k count).

Definition storm (t0 gap : Z) (n : nat) : list Z := arrivalsFrom t0 gap 0 (S n).

(** The session that meets the storm: the gate idle, the ticker due at
    [idle0], nothing else to come. *)
Definition stormStart (m : monitor World) (w : World) (t0 gap : Z) (n : nat)
    (idle0 : Z) : session :=
  mkSession t0 (storm t0 gap n) None None (mkGate None None idle0 false) m w.

(** The session after taking the first [k] events of the storm, with no
    refresh in between. *)
Definition stormState (m : monitor World) (w : World) (t0 gap : Z) (n k : nat)
    : session :=
  let c := t0 + (Z.of_nat k - 1) * gap in
  mkSession c (arrivalsFrom t0 gap k (S n - k)) None None
    (mkGate (Some (c + debounce m)) (Some (t0 + maxDebounceTime m))
            (c + maxIdleTime m) true)
    m w.

End Clock.

(* ================================================================= *)
(** ** The client of the tests *)

(** [mockDockerClient] of the tests, as the state of the daemon.  The test
    replaces the containers between refreshes ([setContainers]); [later]
    holds the states still to come, one per listing. *)
Module mock.

Record snapshot : Type := mkSnapshot {
  summaries : list docker.Summary;
  inspects : gomap docker.InspectResponse;
  listErr : option error;
  inspectErr : gomap error
}.

Record t : Type := mk {
  current : snapshot;
  later : list snapshot
}.

Definition ContainerList (w : t) : (error + list docker.Summary) * t :=
  let w' :=
    match later w with
    | [] => w
    | s :: rest => mk s rest
    end in
  match listErr (current w') with
  | Some err => (inl err, w')
  | None => (inr (summaries (current w')), w')
  end.

Definition ContainerInspect (containerID : string) (w : t)
    : (error + docker.InspectResponse) * t :=
  match lookup (inspectErr (current w)) containerID with
  | Some err => (inl err, w)
  | None =>
      match lookup (inspects (current w)) containerID with
      | Some inspect => (inr inspect, w)
      | None =>
          (inl (errorString (String.append "container not found: " containerID)), w)
      end
  end.

Definition client : DockerClient t := mkClient ContainerList ContainerInspect.

(** [setContainers] *)
Definition setContainers (containers : list docker.InspectResponse) : snapshot :=
  mkSnapshot
    (map (fun c => docker.mkSummary (docker.inspectID c)) containers)
    (Map (map (fun c => (docker.inspectID c, c)) containers))
    None
    nilMap.

End mock.

(* ================================================================= *)
(** ** Collections that differ only in order *)

(** [l'] lists, in some order, elements related by [R] to those of [l]. *)
Definition permUpTo {A} (R : A -> A -> Prop) (l l' : list A) : Prop :=
  exists l1, Forall2 R l l1 /\ Permutation l1 l'.

(** The same attachment with its aliases in another order. *)
Definition sameNetwork (n n' : Network.t) : Prop :=
  Network.Name n = Network.Name n' /\
  Network.ID n = Network.ID n' /\
  Network.IPAddress n = Network.IPAddress n' /\
  Network.IP6Address n = Network.IP6Address n' /\
  Network.Gateway n = Network.Gateway n' /\
  Permutation (elems (Network.Aliases n)) (elems (Network.Aliases n')).

(** The same container with its labels, networks, ports and aliases in
    another order. *)
Definition sameContainer (c c' : Container.t) : Prop :=
  Container.ID c = Container.ID c' /\
  Container.Name c = Container.Name c' /\
  Container.Image c = Container.Image c' /\
  Container.State c = Container.State c' /\
  Permutation (entries (Container.Labels c)) (entries (Container.Labels c')) /\
  permUpTo sameNetwork (elems (Container.Networks c))
                       (elems (Container.Networks c')) /\
  Permutation (elems (Container.Ports c)) (elems (Container.Ports c')).

Definition sameCollection (l l' : list Container.t) : Prop :=
  permUpTo sameContainer l l'.

(** Absence and emptiness: a collection with no element as [nil], and as an
    allocated collection of length zero. *)
Definition nilIfEmpty {A} (s : slice A) : slice A :=
  match elems s with
  | [] => nilSlice
  | _ => s
  end.

Definition emptyIfNil {A} (s : slice A) : slice A := Slice (elems s).

Definition nilMapIfEmpty {V} (m : gomap V) : gomap V :=
  match entries m with
  | [] => nilMap
  | _ => m
  end.

Definition emptyMapIfNil {V} (m : gomap V) : gomap V := Map (entries m).

Definition mapSlice {A B} (f : A -> B) (s : slice A) : slice B :=
  match s with
  | nilSlice => nilSlice
  | Slice l => Slice (map f l)
  end.

Definition networkWith (aliases : slice string) (n : Network.t) : Network.t :=
  Network.mk (Network.Name n) (Network.ID n) (Network.IPAddress n)
             (Network.IP6Address n) (Network.Gateway n) aliases.

Definition containerWith (labels : gomap string) (networks : slice Network.t)
    (ports : slice Port.t) (c : Container.t) : Container.t :=
  Container.mk (Container.ID c) (Container.Name c) (Container.Image c)
               (Container.State c) labels networks ports.

Definition nilNetwork (n : Network.t) : Network.t :=
  networkWith (nilIfEmpty (Network.Aliases n)) n.

Definition emptyNetwork (n : Network.t) : Network.t :=
  networkWith (emptyIfNil (Network.Aliases n)) n.

(** The variant of a container in which every collection without elements
    is [nil], and the one in which it is allocated and empty. *)
Definition nilVariant (c : Container.t) : Container.t :=
  containerWith (nilMapIfEmpty (Container.Labels c))
                (nilIfEmpty (mapSlice nilNetwork (Container.Networks c)))
                (nilIfEmpty (Container.Ports c)) c.

Definition emptyVariant (c : Container.t) : Container.t :=
  containerWith (emptyMapIfNil (Container.Labels c))
                (emptyIfNil (mapSlice emptyNetwork (Container.Networks c)))
                (emptyIfNil (Container.Ports c)) c.

(* ================================================================= *)
(** ** Notions used in the statements *)

(** The delays slept, the sessions started and the callback deliveries of
    a run, read off what it did. *)
Definition sleeps (tr : list action) : list Z :=
  flat_map (fun a => match a with Slept d => [d] | _ => [] end) tr.

Definition attempts (tr : list action) : nat :=
  List.length (List.filter (fun a => match a with Subscribed => true | _ => false end) tr).

Definition deliveries (tr : list action) : list (slice Container.t) :=
  flat_map (fun a => match a with Invoked _ cs => [cs] | _ => [] end) tr.

(** Every delivery is made with the cursor already at the hash of the
    delivered set, and that hash differs from the cursor before. *)
Fixpoint fresh (cursor : option Z) (tr : list action) : Prop :=
  match tr with
  | [] => True
  | Invoked seen cs :: rest =>
      seen = Some (computeHash (elems cs)) /\ cursor <> seen /\ fresh seen rest
  | _ :: rest => fresh cursor rest
  end.

(** The cursor after the deliveries of a run. *)
Fixpoint cursorAfter (cursor : option Z) (tr : list action) : option Z :=
  match tr with
  | [] => cursor
  | Invoked seen _ :: rest => cursorAfter seen rest
  | _ :: rest => cursorAfter cursor rest
  end.

(** The delay before the [k]-th retry, as the specification gives it. *)
Definition backoff (rc : reconnectConfig) (k : nat) : Z :=
  Z.min (MinDelay rc * 2 ^ (Z.of_nat k - 1)) (MaxDelay rc).

(** The delays of [n] retries in a row, the first of them [delay], as the
    loop computes them. *)
Fixpoint delaysFrom (rc : reconnectConfig) (n : nat) (delay : Z) : list Z :=
  match n with
  | O => []
  | S n' => delay :: delaysFrom rc n' (nextDelay rc delay)
  end.

(** The answers of the inspections that follow a listing. *)
Definition inspected (rs : list (error + docker.InspectResponse))
    : list docker.InspectResponse :=
  flat_map (fun r => match r with inr i => [i] | inl _ => [] end) rs.

Section Statements.

Variable World : Type.

Fixpoint inspectAll (c : DockerClient World) (summaries : list docker.Summary)
    (w : World) : list (error + docker.InspectResponse) * World :=
  match summaries with
  | [] => ([], w)
  | summary :: rest =>
      let '(r, w') := ContainerInspect c (docker.ID summary) w in
      let '(rs, w'') := inspectAll c rest w' in
      (r :: rs, w'')
  end.

(** The client that [Run] works with: the one that [WithDockerClient]
    gave, or else the one built from the environment, when that succeeds. *)
Definition dockerClientOf (newDefaultClient : error + DockerClient World)
    (opts : list (config World -> config World)) : error + DockerClient World :=
  match cfgClient (applyOptions opts) with
  | Some c => inr c
  | None => newDefaultClient
  end.

(** Attempts that fail one after the other, each within the minute, with
    the context still alive. *)
Inductive rapidFailures
    : monitor World -> World -> list attemptEnv -> monitor World -> World -> Prop :=
| rapid_nil : forall m w, rapidFailures m w [] m w
| rapid_cons : forall m w env envs err m' w' tr m'' w'',
    runOnce m (startTime env) (script env) w = (Some err, m', w', tr) ->
    ctxErr env = None ->
    elapsed env < Minute ->
    cancelled env = None ->
    rapidFailures m' w' envs m'' w'' ->
    rapidFailures m w (env :: envs) m'' w''.

End Statements.

(* ================================================================= *)
(** ** Sample data, after the tests *)

Module sample.

Definition web : docker.InspectResponse :=
  docker.mkInspectResponse "container1" "/web" "nginx:latest"
    (Map [("env", "prod"); ("app", "web")]) "running"
    (Some (docker.mkNetworkSettings
       (Map [("bridge",
              docker.mkEndpointSettings "net1" "172.17.0.2" "" "172.17.0.1"
                (Slice ["web"; "api"]));
             ("custom",
              docker.mkEndpointSettings "net2" "10.0.0.2" "" "10.0.0.1" nilSlice)])
       (Map [("80/tcp", Slice [docker.mkPortBinding "0.0.0.0" "8080"]);
             ("443/tcp", Slice [docker.mkPortBinding "0.0.0.0" "8443"])]))).

(** [web] as a later inspection may return it: the maps are visited in
    another order and the aliases come in another order. *)
Definition webAgain : docker.InspectResponse :=
  docker.mkInspectResponse "container1" "/web" "nginx:latest"
    (Map [("app", "web"); ("env", "prod")]) "running"
    (Some (docker.mkNetworkSettings
       (Map [("custom",
              docker.mkEndpointSettings "net2" "10.0.0.2" "" "10.0.0.1" nilSlice);
             ("bridge",
              docker.mkEndpointSettings "net1" "172.17.0.2" "" "172.17.0.1"
                (Slice ["api"; "web"]))])
       (Map [("443/tcp", Slice [docker.mkPortBinding "0.0.0.0" "8443"]);
             ("80/tcp", Slice [docker.mkPortBinding "0.0.0.0" "8080"])]))).

Definition db : docker.InspectResponse :=
  docker.mkInspectResponse "container2" "/db" "postgres:16"
    (Map [("env", "prod")]) "exited" None.

Definition first : mock.snapshot := mock.setContainers [web; db].
Definition second : mock.snapshot := mock.setContainers [db; webAgain].

(** The daemon lists [first], then [second] from then on. *)
Definition daemon : mock.t := mock.mk first [first; second].

(** The daemon always lists [first]. *)
Definition steady : mock.t := mock.mk first [].

(** A daemon whose listing fails. *)
Definition listingFails : mock.t :=
  mock.mk (mock.mkSnapshot [] nilMap (Some (errorString "connection refused")) nilMap) [].

(** An attempt that ends at once, within the minute, the context alive. *)
Definition shortAttempt : attemptEnv := mkAttempt 0 [] None Second None.

(** A session whose event stream breaks after one second. *)
Definition brokenStream : attemptEnv :=
  mkAttempt 0 [(Second, recvErr (Some (errorString "EOF")))] None Second None.

(** A daemon in which the inspection of [container1] fails. *)
Definition inspectFails : mock.t :=
  mock.mk (mock.mkSnapshot
             [docker.mkSummary "container1"; docker.mkSummary "container2"]
             (Map [("container1", web); ("container2", db)])
             None
             (Map [("container1", errorString "No such container")])) [].

(** The monitor that [Run] builds from the default configuration. *)
Definition monitor0 : monitor mock.t :=
  mkMonitor mock.client None (100 * Millisecond) (5 * Second) (30 * Second)
            None None.

(** The monitor that [Run] builds with [WithAutoReconnect(1s, 8s, 2)]. *)
Definition reconnecting : monitor mock.t :=
  mkMonitor mock.client None (100 * Millisecond) (5 * Second) (30 * Second)
            (Some (mkReconnect Second (8 * Second) 2)) None.


(** The monitor that [Run] builds with [WithMaxIdleTime(5ms)]. *)
Definition shortIdle : monitor mock.t :=
  mkMonitor mock.client None (100 * Millisecond) (5 * Second) (5 * Millisecond)
            None None.

(** The first two pulls from [daemon]. *)
Definition firstPull : slice Container.t :=
  Slice [convertContainer web; convertContainer db].

Definition secondPull : slice Container.t :=
  Slice [convertContainer db; convertContainer webAgain].

Definition afterFirst : mock.t := mock.mk first [second].
Definition afterSecond : mock.t := mock.mk second [].

End sample.

(* ================================================================= *)
(** ** Notions used in the further properties *)

(** A value of type [uint64]. *)
Definition uint64 (z : Z) : Prop := 0 <= z < 2 ^ 64.

(** The ports of a [Port] fit [uint16]. *)
Definition portInRange (p : Port.t) : Prop :=
  0 <= Port.HostPort p <= 65535 /\ 0 <= Port.ContainerPort p <= 65535.

(** The number of slashes of a string. *)
Fixpoint slashes (s : string) : nat :=
  match s with
  | EmptyString => O
  | String a rest => if Ascii.eqb a "/"%char then S (slashes rest) else slashes rest
  end.

(** The two timers are armed exactly while the gate is waiting. *)
Definition gateOk (g : gate) : Prop :=
  if waiting g
  then debounceTimer g <> None /\ maxDebounceTimer g <> None
  else debounceTimer g = None /\ maxDebounceTimer g = None.

(** The cases of a script that ask for a refresh. *)
Definition triggers (s : list (Z * selected)) : nat :=
  List.length (List.filter (fun x => refreshes (snd x)) s).

(** The ways in which a session over the script [s] returns [r]. *)
Definition endsLike (s : list (Z * selected)) (r : option error) : Prop :=
  (exists e, r = Some (wrapError "failed to refresh containers: " e)) \/
  (exists now e, In (now, ctxDone e) s /\ r = Some e) \/
  (exists now e, In (now, recvErr (Some e)) s /\
                 r = Some (wrapError "failed to stream events: " e)) \/
  (exists now, In (now, recvErr None) s /\ r = None).

(** [n] ticks, the first at [first], one every [period]. *)
Definition ticks (first period : Z) (n : nat) : list (Z * selected) :=
  map (fun k => (first + Z.of_nat k * period, idleTick)) (seq 0 n).

(** Events that follow one another, each less than [d] after the one
    before; [cur] is the time of the event before the first. *)
Fixpoint burst (d cur : Z) (rest : list Z) : Prop :=
  match rest with
  | [] => True
  | a :: rest' => cur <= a < cur + d /\ burst d a rest'
  end.

(** The cases a session takes when it meets the burst [rest] after the
    event at [cur], and nothing else: the events, the debounce timer, then
    [n] ticks. *)
Definition burstSchedule (debounce idle cur : Z) (rest : list Z) (n : nat)
    : list (Z * selected) :=
  map (fun a => (a, recvEvent)) rest ++
  (last rest cur + debounce, debounceFired) ::
  ticks (last rest cur + debounce + idle) idle n.

Definition isPrefix {A} (l l' : list A) : Prop := exists rest, l' = l ++ rest.

(** Arrival times that are at least [gap] apart. *)
Fixpoint spaced (gap : Z) (l : list Z) : Prop :=
  match l with
  | [] => True
  | a :: rest =>
      match rest with
      | [] => True
      | b :: _ => a + gap <= b
      end /\ spaced gap rest
  end.

(** The first [k] events of the storm, each taken when it arrives. *)
Definition stormEvents (t0 gap : Z) (k : nat) : list (Z * selected) :=
  map (fun a => (a, recvEvent)) (arrivalsFrom t0 gap 0 k).

Section Schedules.

Variable World : Type.

(** A session with no event to come, the gate idle, the ticker due at
    [idle]. *)
Definition quietSession (m : monitor World) (w : World) (now idle : Z)
    : session World :=
  mkSession now [] None None (mkGate None None idle false) m w.

(** A session that has taken the event at [cur] of a burst that began at
    [first], with the events [rest] still to come. *)
Definition burstSession (m : monitor World) (w : World) (first cur : Z)
    (rest : list Z) : session World :=
  mkSession cur rest None None
    (mkGate (Some (cur + debounce m)) (Some (first + maxDebounceTime m))
            (cur + maxIdleTime m) true)
    m w.

(** The session after the refresh made at time [t], once the first [k]
    events of the storm are taken: the gate idle, the ticker reset, the
    monitor and the daemon as the refresh leaves them. *)
Definition stormRefreshed (m : monitor World) (w : World) (t0 gap : Z)
    (n k : nat) (t : Z) : session World :=
  mkSession t (arrivalsFrom t0 gap k (S n - k)) None None
    (mkGate None None (t + maxIdleTime m) false) m w.

(** A session that is idle when the burst [a1 :: rest] arrives. *)
Definition burstStart (m : monitor World) (w : World) (now idle0 a1 : Z)
    (rest : list Z) : session World :=
  mkSession now (a1 :: rest) None None (mkGate None None idle0 false) m w.

End Schedules.

(* ================================================================= *)
(** * Properties of the hasher *)

Section Hasher.

(** *** The order on strings *)

Lemma ascii_compare_trans_le (a b c : ascii) :
  Ascii.compare a b <> Gt -> Ascii.compare b c <> Gt -> Ascii.compare a c <> Gt.
Proof.
  unfold Ascii.compare. rewrite !N.compare_le_iff. intros. lia.
Qed.

Lemma string_leb_trans (s1 s2 s3 : string) :
  String.leb s1 s2 = true -> String.leb s2 s3 = true -> String.leb s1 s3 = true.
Proof.
  unfold String.leb. revert s2 s3.
  induction s1 as [|a s1 IH]; intros [|b s2] [|c s3]; simpl; try congruence.
  destruct (Ascii.compare a b) eqn:Hab; try congruence;
  destruct (Ascii.compare b c) eqn:Hbc; try congruence; intros H1 H2.
  - apply Ascii.compare_eq_iff in Hab, Hbc. subst.
    replace (Ascii.compare c c) with Eq
      by (symmetry; apply N.compare_refl).
    now apply IH with s2.
  - apply Ascii.compare_eq_iff in Hab. subst. now rewrite Hbc.
  - apply Ascii.compare_eq_iff in Hbc. subst. now rewrite Hab.
  - unfold Ascii.compare in *. rewrite N.compare_lt_iff in Hab, Hbc.
    replace (N_of_ascii a ?= N_of_ascii c)%N with Lt; [easy|].
    symmetry. apply N.compare_lt_iff. lia.
Qed.

Lemma string_leb_false (x y : string) :
  String.leb x y = false -> String.leb y x = true.
Proof.
  intros H. destruct (String.leb_total x y); congruence.
Qed.

(** *** [sort.Strings] sorts, and forgets the order of its argument *)

Lemma insert_perm (x : string) (l : list string) :
  Permutation (x :: l) (insert x l).
Proof.
  induction l as [|y l IH]; simpl; [reflexivity|].
  destruct (String.leb x y); [reflexivity|].
  rewrite perm_swap. now constructor.
Qed.

Lemma sortStrings_perm (l : list string) : Permutation l (sortStrings l).
Proof.
  induction l as [|x l IH]; simpl; [constructor|].
  rewrite <- insert_perm. now constructor.
Qed.

Lemma insert_sorted (x : string) (l : list string) :
  Sorted leS l -> Sorted leS (insert x l).
Proof.
  induction 1 as [|y l Hs IH Hhd]; simpl.
  - repeat constructor.
  - destruct (String.leb x y) eqn:E.
    + constructor; [now constructor|]. now constructor.
    + constructor; [assumption|].
      apply string_leb_false in E.
      destruct l as [|z l]; simpl in *; [now constructor|].
      inversion Hhd; subst.
      destruct (String.leb x z); now constructor.
Qed.

Lemma sortStrings_sorted (l : list string) : Sorted leS (sortStrings l).
Proof.
  induction l; simpl; [constructor|]. now apply insert_sorted.
Qed.

Lemma insert_comm (x y : string) (l : list string) :
  insert x (insert y l) = insert y (insert x l).
Proof.
  induction l as [|a l IH]; simpl.
  - destruct (String.leb x y) eqn:Exy, (String.leb y x) eqn:Eyx;
      try reflexivity.
    + now rewrite (String.leb_antisym _ _ Exy Eyx).
    + apply string_leb_false in Exy. congruence.
  - destruct (String.leb y a) eqn:Eya, (String.leb x a) eqn:Exa; simpl;
      rewrite ?Eya, ?Exa.
    + destruct (String.leb x y) eqn:Exy, (String.leb y x) eqn:Eyx;
        try reflexivity.
      * now rewrite (String.leb_antisym _ _ Exy Eyx).
      * apply string_leb_false in Exy. congruence.
    + destruct (String.leb x y) eqn:Exy; [|reflexivity].
      rewrite (string_leb_trans _ _ _ Exy Eya) in Exa. discriminate.
    + destruct (String.leb y x) eqn:Eyx; [|reflexivity].
      rewrite (string_leb_trans _ _ _ Eyx Exa) in Eya. discriminate.
    + now rewrite IH.
Qed.

Lemma sortStrings_Permutation (l l' : list string) :
  Permutation l l' -> sortStrings l = sortStrings l'.
Proof.
  induction 1; simpl; try congruence. apply insert_comm.
Qed.

(** *** The xor fold *)

Lemma xorFold_acc {A} (f : A -> Z) (l : list A) (a : Z) :
  fold_left (fun acc x => Z.lxor acc (f x)) l a = Z.lxor a (xorFold f l).
Proof.
  unfold xorFold. revert a.
  induction l as [|x l IH]; intros a; simpl.
  - now rewrite Z.lxor_0_r.
  - rewrite IH, (IH (f x)), Z.lxor_assoc. reflexivity.
Qed.

Lemma xorFold_cons {A} (f : A -> Z) (x : A) (l : list A) :
  xorFold f (x :: l) = Z.lxor (f x) (xorFold f l).
Proof.
  unfold xorFold at 1. simpl. apply xorFold_acc.
Qed.

Lemma xorFold_app {A} (f : A -> Z) (l l' : list A) :
  xorFold f (l ++ l') = Z.lxor (xorFold f l) (xorFold f l').
Proof.
  unfold xorFold at 1. rewrite fold_left_app.
  fold (xorFold f l). apply xorFold_acc.
Qed.

Lemma xorFold_Permutation {A} (f : A -> Z) (l l' : list A) :
  Permutation l l' -> xorFold f l = xorFold f l'.
Proof.
  induction 1; rewrite ?xorFold_cons; try congruence.
  rewrite <- !Z.lxor_assoc, (Z.lxor_comm (f y)). reflexivity.
Qed.

Lemma xorFold_Forall2 {A} (f : A -> Z) (l l' : list A) :
  Forall2 (fun a b => f a = f b) l l' -> xorFold f l = xorFold f l'.
Proof.
  induction 1; rewrite ?xorFold_cons; congruence.
Qed.

Lemma xorFold_permUpTo {A} (R : A -> A -> Prop) (f : A -> Z) (l l' : list A) :
  (forall a b, In a l -> R a b -> f a = f b) ->
  permUpTo R l l' -> xorFold f l = xorFold f l'.
Proof.
  intros Hf (l1 & HR & HP).
  rewrite <- (xorFold_Permutation f HP).
  apply xorFold_Forall2.
  clear HP. induction HR; constructor.
  - apply Hf; [now left | assumption].
  - apply IHHR. intros a b Ha. apply Hf. now right.
Qed.

(** *** Lookup in a map does not depend on the iteration order *)

Lemma assoc_not_in {V} (k : string) (l : list (string * V)) :
  ~ In k (map fst l) -> assoc k l = None.
Proof.
  induction l as [|[k' v] l IH]; simpl; [reflexivity|].
  intros H. destruct (String.eqb_spec k k'); [subst; tauto|].
  apply IH. tauto.
Qed.

Lemma assoc_Permutation {V} (k : string) (l l' : list (string * V)) :
  NoDup (map fst l) -> Permutation l l' -> assoc k l = assoc k l'.
Proof.
  intros Hnd HP. induction HP as [|[k1 v1] l l' HP IH|[k1 v1] [k2 v2] l|l l1 l2 HP1 IH1 HP2 IH2].
  - reflexivity.
  - simpl. inversion Hnd; subst. now rewrite IH.
  - simpl. destruct (String.eqb_spec k k2), (String.eqb_spec k k1);
      try reflexivity.
    subst. simpl in Hnd. inversion Hnd; subst. simpl in *. tauto.
  - rewrite IH1 by assumption. apply IH2.
    eapply Permutation_NoDup; [|exact Hnd]. now apply Permutation_map.
Qed.

Lemma mapIndex_Permutation (m m' : gomap string) (k : string) :
  wf_map m -> Permutation (entries m) (entries m') ->
  mapIndex m k = mapIndex m' k.
Proof.
  intros Hwf HP. unfold mapIndex, lookup.
  now rewrite (assoc_Permutation k Hwf HP).
Qed.

Lemma fold_left_pointwise {A B} (f g : A -> B -> A) (l : list B) (a : A) :
  (forall x y, f x y = g x y) -> fold_left f l a = fold_left g l a.
Proof.
  intros E. revert a. induction l as [|y l IH]; intros a; simpl; [reflexivity|].
  now rewrite E, IH.
Qed.

(** *** The hash of a network and of a container *)

Lemma Network_hash_same (n n' : Network.t) :
  sameNetwork n n' -> Network.hash n = Network.hash n'.
Proof.
  intros (E1 & E2 & E3 & E4 & E5 & HP).
  unfold Network.hash, len. rewrite E1, E2, E3, E4, E5.
  rewrite (Permutation_length HP), (sortStrings_Permutation HP).
  reflexivity.
Qed.

Lemma Container_hash_same (c c' : Container.t) :
  wf_map (Container.Labels c) ->
  sameContainer c c' -> Container.hash c = Container.hash c'.
Proof.
  intros Hwf (E1 & E2 & E3 & E4 & HL & HN & HP).
  unfold Container.hash, maplen, keys. rewrite E1, E2, E3, E4.
  rewrite (Permutation_length HL).
  rewrite (sortStrings_Permutation (Permutation_map fst HL)).
  rewrite (fold_left_pointwise (Container.writeLabel (Container.Labels c))
             (Container.writeLabel (Container.Labels c'))).
  2:{ intros h k. unfold Container.writeLabel.
      now rewrite (@mapIndex_Permutation _ _ k Hwf HL). }
  rewrite (xorFold_permUpTo (R := sameNetwork) Network.hash
             (l := elems (Container.Networks c))
             (l' := elems (Container.Networks c'))).
  2:{ intros a b _. apply Network_hash_same. }
  2:{ exact HN. }
  rewrite (xorFold_Permutation Port.hash HP).
  reflexivity.
Qed.

Lemma computeHash_sameCollection (l l' : list Container.t) :
  Forall (fun c => wf_map (Container.Labels c)) l ->
  sameCollection l l' ->
  computeHash l = computeHash l'.
Proof.
  intros Hwf Hsame. unfold computeHash.
  apply xorFold_permUpTo with (R := sameContainer); [|exact Hsame].
  intros a b Ha. apply Container_hash_same.
  rewrite Forall_forall in Hwf. now apply Hwf.
Qed.

(** C5: the hash of a collection of containers does not depend on the order
    of the collection, nor on the order in which the entries of a label map
    are visited, nor on the order of the networks and ports of a container,
    nor on the order of the aliases of a network. *)
Theorem computeHash_order_insensitive (l l' : list Container.t) :
  Forall (fun c => wf_map (Container.Labels c)) l ->
  sameCollection l l' ->
  computeHash l = computeHash l'.
Proof.
  exact (@computeHash_sameCollection l l').
Qed.

(** C10: two copies of one container cancel in the hash of a collection; a
    list of two identical containers has the hash of the empty list. *)
Theorem computeHash_duplicate_cancels :
  (forall (l : list Container.t) (c : Container.t),
      computeHash (l ++ [c; c]) = computeHash l) /\
  (forall c : Container.t,
      computeHash [c; c] = 0 /\
      computeHash [c; c] = computeHash [] /\
      [c; c] <> []).
Proof.
  assert (H : forall c, xorFold Container.hash [c; c] = 0).
  { intros c. rewrite !xorFold_cons.
    unfold xorFold. cbn [fold_left].
    rewrite Z.lxor_0_r. apply Z.lxor_nilpotent. }
  unfold computeHash. split.
  - intros l c. rewrite xorFold_app, H. apply Z.lxor_0_r.
  - intros c. rewrite H. repeat split. discriminate.
Qed.

(** *** Absence and emptiness *)

Lemma elems_nilIfEmpty {A} (s : slice A) : elems (nilIfEmpty s) = elems s.
Proof.
  unfold nilIfEmpty. destruct (elems s) eqn:E; [reflexivity | exact E].
Qed.

Lemma entries_nilMapIfEmpty {V} (m : gomap V) :
  entries (nilMapIfEmpty m) = entries m.
Proof.
  unfold nilMapIfEmpty. destruct (entries m) eqn:E; [reflexivity | exact E].
Qed.

Lemma elems_mapSlice {A B} (f : A -> B) (s : slice A) :
  elems (mapSlice f s) = map f (elems s).
Proof. destruct s; reflexivity. Qed.

Lemma Network_hash_variants (n : Network.t) :
  Network.hash (nilNetwork n) = Network.hash (emptyNetwork n).
Proof.
  unfold Network.hash, nilNetwork, emptyNetwork, networkWith, len.
  cbn [Network.Name Network.ID Network.IPAddress Network.IP6Address
       Network.Gateway Network.Aliases].
  rewrite elems_nilIfEmpty. reflexivity.
Qed.

Lemma xorFold_map {A B} (f : B -> Z) (g : A -> B) (l : list A) :
  xorFold f (map g l) = xorFold (fun x => f (g x)) l.
Proof.
  induction l as [|x l IH]; [reflexivity|].
  cbn [map]. rewrite !xorFold_cons. now rewrite IH.
Qed.

(** C8: a container whose labels, networks, ports and alias lists are [nil]
    has the hash of the container in which they are allocated and empty. *)
Theorem hash_nil_equals_empty :
  (forall c : Container.t,
      Container.hash (containerWith nilMap nilSlice nilSlice c) =
      Container.hash (containerWith (Map []) (Slice []) (Slice []) c)) /\
  (forall n : Network.t,
      Network.hash (networkWith nilSlice n) =
      Network.hash (networkWith (Slice []) n)) /\
  (forall c : Container.t,
      Container.hash (nilVariant c) = Container.hash (emptyVariant c)).
Proof.
  split; [|split].
  - intros c. unfold Container.hash, containerWith, maplen, keys.
    cbn [Container.ID Container.Name Container.Image Container.State
         Container.Labels Container.Networks Container.Ports entries elems].
    reflexivity.
  - intros n. unfold Network.hash, networkWith, len.
    cbn [Network.Name Network.ID Network.IPAddress Network.IP6Address
         Network.Gateway Network.Aliases elems].
    reflexivity.
  - intros c. unfold Container.hash, nilVariant, emptyVariant, containerWith,
      maplen, keys.
    cbn [Container.ID Container.Name Container.Image Container.State
         Container.Labels Container.Networks Container.Ports].
    cbn [emptyMapIfNil emptyIfNil entries elems].
    rewrite entries_nilMapIfEmpty, !elems_nilIfEmpty, !elems_mapSlice.
    rewrite !xorFold_map.
    assert (HN : forall l : list Network.t,
               xorFold (fun x => Network.hash (nilNetwork x)) l =
               xorFold (fun x => Network.hash (emptyNetwork x)) l).
    { induction l as [|n l IH]; [reflexivity|].
      rewrite !xorFold_cons, IH, Network_hash_variants. reflexivity. }
    rewrite HN.
    rewrite (fold_left_pointwise
               (Container.writeLabel (nilMapIfEmpty (Container.Labels c)))
               (Container.writeLabel (emptyMapIfNil (Container.Labels c)))).
    2:{ intros h k. unfold Container.writeLabel, mapIndex, lookup.
        now rewrite entries_nilMapIfEmpty. }
    reflexivity.
Qed.

End Hasher.

(* ================================================================= *)
(** * Properties of the filters *)

Section Filters.

Lemma LabelEquals_spec (key value : string) (c : Container.t) :
  LabelEquals key value c = true <->
  lookup (Container.Labels c) key = Some value \/
  (lookup (Container.Labels c) key = None /\ value = "").
Proof.
  unfold LabelEquals, mapIndex.
  destruct (lookup (Container.Labels c) key) as [v|]; rewrite String.eqb_eq.
  - split; [intros ->; now left | intros [[= ->] | [[=] _]]; reflexivity].
  - split; [intros <-; now right | intros [[=] | [_ ->]]; reflexivity].
Qed.

(** C3: [LabelEquals key value] holds of a container exactly when its label
    map has [key] with the value [value], or has no [key] and [value] is the
    empty string; on the container without labels of the tests,
    [LabelEquals "missing" ""] holds although the key is absent. *)
Theorem LabelEquals_missing_key :
  (forall key value c,
      LabelEquals key value c = true <->
      lookup (Container.Labels c) key = Some value \/
      (lookup (Container.Labels c) key = None /\ value = "")) /\
  (let runningNoLabels :=
     Container.mk "4" "" "" "running" (Map []) nilSlice nilSlice in
   lookup (Container.Labels runningNoLabels) "missing" = None /\
   LabelEquals "missing" "" runningNoLabels = true /\
   LabelExists "missing" runningNoLabels = false).
Proof.
  split; [exact LabelEquals_spec|].
  repeat split.
Qed.

End Filters.

(* ================================================================= *)
(** * Properties of the monitor *)

Section MonitorProperties.

Context {World : Type}.

Implicit Types (m : monitor World) (w : World).

(** *** Pulls *)

Lemma inspectOne_fold m (summaries : list docker.Summary)
    (acc : slice Container.t) w :
  let '(rs, w') := inspectAll (client m) summaries w in
  exists acc',
    fold_left (inspectOne m) summaries (acc, w) = (acc', w') /\
    elems acc' =
      elems acc ++ List.filter (passes m) (map convertContainer (inspected rs)).
Proof.
  revert acc w.
  induction summaries as [|summary rest IH]; intros acc w;
    cbn [inspectAll fold_left].
  - exists acc. split; [reflexivity|]. cbn. now rewrite app_nil_r.
  - unfold inspectOne at 2.
    destruct (ContainerInspect (client m) (docker.ID summary) w) as [[err|inspect] w1].
    + specialize (IH acc w1).
      destruct (inspectAll (client m) rest w1) as [rs w2].
      destruct IH as (acc' & E1 & E2). exists acc'. split; [exact E1|].
      exact E2.
    + destruct (passes m (convertContainer inspect)) eqn:Hp.
      * specialize (IH (append acc (convertContainer inspect)) w1).
        destruct (inspectAll (client m) rest w1) as [rs w2].
        destruct IH as (acc' & E1 & E2). exists acc'. split; [exact E1|].
        rewrite E2. cbn [inspected flat_map map List.filter app elems append].
        rewrite Hp. now rewrite <- app_assoc.
      * specialize (IH acc w1).
        destruct (inspectAll (client m) rest w1) as [rs w2].
        destruct IH as (acc' & E1 & E2). exists acc'. split; [exact E1|].
        rewrite E2. cbn [inspected flat_map map List.filter app].
        now rewrite Hp.
Qed.

(** C9: a pull fails with the error of the listing when the listing fails;
    otherwise it succeeds, whatever the inspections answer, with the
    containers of the inspections that succeeded (those the filter keeps),
    in the order of the listing: an identity whose inspection fails is
    left out. *)
Theorem gatherContainers_skips_failed_inspections m w :
  match ContainerList (client m) w with
  | (inl err, w') => gatherContainers m w = (inl err, w')
  | (inr summaries, w') =>
      let '(rs, w'') := inspectAll (client m) summaries w' in
      exists containers,
        gatherContainers m w = (inr containers, w'') /\
        elems containers =
          List.filter (passes m) (map convertContainer (inspected rs))
  end.
Proof.
  unfold gatherContainers.
  destruct (ContainerList (client m) w) as [[err|summaries] w']; [reflexivity|].
  pose proof (inspectOne_fold m summaries nilSlice w') as H.
  destruct (inspectAll (client m) summaries w') as [rs w''].
  destruct H as (acc' & E1 & E2).
  exists acc'. rewrite E1. split; [reflexivity | exact E2].
Qed.

(** *** The cursor *)

Lemma sameAsPrevious_true m h :
  sameAsPrevious m h = true <-> previousHash m = Some h.
Proof.
  unfold sameAsPrevious. destruct (previousHash m) as [p|].
  - rewrite Z.eqb_eq. split; [intros ->; reflexivity | intros [= ->]; reflexivity].
  - split; [discriminate | discriminate].
Qed.

Lemma gatherContainers_setPreviousHash m h w :
  gatherContainers (setPreviousHash m h) w = gatherContainers m w.
Proof. reflexivity. Qed.

Lemma gather_ok m w containers w1 :
  gatherContainers m w = (inr containers, w1) ->
  let h := computeHash (elems containers) in
  gather m w =
    if sameAsPrevious m h then (None, m, w1, [])
    else (None, setPreviousHash m (Some h), w1, [Invoked (Some h) containers]).
Proof.
  intros E. unfold gather. rewrite E. reflexivity.
Qed.

Lemma gather_err m w err w1 :
  gatherContainers m w = (inl err, w1) ->
  gather m w = (Some (wrapError "failed to refresh containers: " err), m, w1, []).
Proof.
  intros E. unfold gather. now rewrite E.
Qed.

Lemma gather_cases m w :
  (exists err w1,
      gatherContainers m w = (inl err, w1) /\
      gather m w = (Some (wrapError "failed to refresh containers: " err), m, w1, [])) \/
  (exists containers w1,
      gatherContainers m w = (inr containers, w1) /\
      previousHash m = Some (computeHash (elems containers)) /\
      gather m w = (None, m, w1, [])) \/
  (exists containers w1,
      gatherContainers m w = (inr containers, w1) /\
      previousHash m <> Some (computeHash (elems containers)) /\
      gather m w =
        (None, setPreviousHash m (Some (computeHash (elems containers))), w1,
         [Invoked (Some (computeHash (elems containers))) containers])).
Proof.
  destruct (gatherContainers m w) as [[err|containers] w1] eqn:E.
  - left. exists err, w1. split; [reflexivity|]. now apply gather_err.
  - right. rewrite (gather_ok _ _ E).
    destruct (sameAsPrevious m (computeHash (elems containers))) eqn:S.
    + left. exists containers, w1. apply sameAsPrevious_true in S. auto.
    + right. exists containers, w1. repeat split; try reflexivity.
      intros H. apply sameAsPrevious_true in H. congruence.
Qed.

(** *** What a run does to the cursor *)

Lemma fresh_app (c : option Z) (tr tr' : list action) :
  fresh c (tr ++ tr') <-> fresh c tr /\ fresh (cursorAfter c tr) tr'.
Proof.
  revert c. induction tr as [|a tr IH]; intros c; cbn [app fresh cursorAfter].
  - tauto.
  - destruct a as [|seen cs|d|msg]; rewrite ?IH; tauto.
Qed.

Lemma cursorAfter_app (c : option Z) (tr tr' : list action) :
  cursorAfter c (tr ++ tr') = cursorAfter (cursorAfter c tr) tr'.
Proof.
  revert c. induction tr as [|a tr IH]; intros c; cbn [app cursorAfter].
  - reflexivity.
  - destruct a; apply IH.
Qed.

Lemma gather_trace m w :
  let '(_, m', _, tr) := gather m w in
  fresh (previousHash m) tr /\
  previousHash m' = cursorAfter (previousHash m) tr.
Proof.
  destruct (gather_cases m w)
    as [(err & w1 & _ & ->) | [(cs & w1 & _ & _ & ->) | (cs & w1 & _ & Hne & ->)]];
    cbn [fresh cursorAfter]; auto.
Qed.

Lemma loopBody_trace m g now sel w :
  let '(_, m', _, tr) := loopBody m g now sel w in
  fresh (previousHash m) tr /\
  previousHash m' = cursorAfter (previousHash m) tr.
Proof.
  pose proof (gather_trace m w) as H.
  unfold loopBody.
  destruct sel as [err|[err|]| | | |]; cbn [fresh cursorAfter]; auto;
    try (destruct (waiting g); cbn [fresh cursorAfter]; now auto);
    destruct (gather m w) as [[[[err|] m'] w'] tr]; auto;
    destruct (waiting g); auto.
Qed.

Lemma eventLoop_trace m g s w :
  let '(_, m', _, tr) := eventLoop m g s w in
  fresh (previousHash m) tr /\
  previousHash m' = cursorAfter (previousHash m) tr.
Proof.
  revert m g w. induction s as [|[now sel] rest IH]; intros m g w;
    cbn [eventLoop fresh cursorAfter]; auto.
  pose proof (loopBody_trace m g now sel w) as H.
  destruct (loopBody m g now sel w) as [[[[err|g'] m'] w'] tr]; auto.
  specialize (IH m' g' w').
  destruct (eventLoop m' g' rest w') as [[[r m''] w''] tr'].
  destruct H as [H1 H2], IH as [H3 H4].
  rewrite fresh_app, cursorAfter_app, <- H2. auto.
Qed.

Lemma newGate_Some m start g :
  newGate m start = Some g <->
  0 < maxIdleTime m /\ g = mkGate None None (start + maxIdleTime m) false.
Proof.
  unfold newGate, NewTicker.
  destruct (Z.ltb_spec 0 (maxIdleTime m)); split.
  - intros [= <-]. auto.
  - intros [_ ->]. reflexivity.
  - discriminate.
  - intros [? _]. lia.
Qed.

Lemma newGate_None m start : newGate m start = None <-> maxIdleTime m <= 0.
Proof.
  unfold newGate, NewTicker.
  destruct (Z.ltb_spec 0 (maxIdleTime m)); split; try discriminate; auto; lia.
Qed.

Lemma runOnce_trace m start s w :
  let '(_, m', _, tr) := runOnce m start s w in
  fresh (previousHash m) tr /\
  previousHash m' = cursorAfter (previousHash m) tr.
Proof.
  unfold runOnce.
  pose proof (gather_trace m w) as H.
  destruct (gather m w) as [[[[err|] m'] w'] tr]; cbn [fresh cursorAfter]; auto.
  destruct (newGate m' start) as [g|].
  - pose proof (eventLoop_trace m' g s w') as H'.
    destruct (eventLoop m' g s w') as [[[r m''] w''] tr'].
    destruct H as [H1 H2], H' as [H3 H4].
    cbn [fresh cursorAfter].
    rewrite fresh_app, cursorAfter_app, <- H2. auto.
  - destruct H as [H1 H2]. cbn [fresh cursorAfter].
    rewrite fresh_app, cursorAfter_app, <- H2. cbn [fresh cursorAfter]. auto.
Qed.

(** C1: when the pull succeeds, [gather] calls the callback exactly when
    the hash of the pulled set differs from the cursor or the cursor is
    unset, and the callback is called with the cursor already at the new
    hash; a further refresh that pulls the same set, in whatever order,
    calls it no more.  In every session, whatever the triggers, each
    delivery carries a hash that differs from the cursor before it. *)
Theorem gather_delivers_on_change m w containers w1 :
  gatherContainers m w = (inr containers, w1) ->
  let h := computeHash (elems containers) in
  exists m1 tr,
    gather m w = (None, m1, w1, tr) /\
    m1 = setPreviousHash m (Some h) /\
    (previousHash m <> Some h -> tr = [Invoked (Some h) containers]) /\
    (previousHash m = Some h -> tr = [] /\ m1 = m) /\
    (forall containers2 w2,
        gatherContainers m1 w1 = (inr containers2, w2) ->
        Forall (fun c => wf_map (Container.Labels c)) (elems containers) ->
        sameCollection (elems containers) (elems containers2) ->
        gather m1 w1 = (None, m1, w2, [])) /\
    (forall start s,
        let '(_, _, _, tr') := runOnce m start s w in
        fresh (previousHash m) tr').
Proof.
  intros E h.
  assert (Hrun : forall start s,
             let '(_, _, _, tr') := runOnce m start s w in
             fresh (previousHash m) tr').
  { intros start s. pose proof (runOnce_trace m start s w) as H.
    destruct (runOnce m start s w) as [[[r m'] w'] tr']. tauto. }
  assert (Hnext : forall m1, previousHash m1 = Some h ->
             forall containers2 w2,
               gatherContainers m1 w1 = (inr containers2, w2) ->
               Forall (fun c => wf_map (Container.Labels c)) (elems containers) ->
               sameCollection (elems containers) (elems containers2) ->
               gather m1 w1 = (None, m1, w2, [])).
  { intros m1 Hm1 containers2 w2 E2 Hwf Hsame.
    rewrite (gather_ok _ _ E2).
    rewrite <- (computeHash_sameCollection Hwf Hsame).
    fold h. apply sameAsPrevious_true in Hm1. now rewrite Hm1. }
  rewrite (gather_ok _ _ E). fold h.
  destruct (sameAsPrevious m h) eqn:S.
  - apply sameAsPrevious_true in S.
    exists m, []. split; [reflexivity|].
    split; [destruct m; cbn in S; subst; reflexivity|].
    split; [congruence|]. split; [auto|].
    split; [now apply Hnext | exact Hrun].
  - exists (setPreviousHash m (Some h)), [Invoked (Some h) containers].
    split; [reflexivity|]. split; [reflexivity|]. split; [reflexivity|].
    split; [intros H; apply sameAsPrevious_true in H; congruence|].
    split; [now apply Hnext | exact Hrun].
Qed.

(** *** Sessions *)

Lemma gatherContainers_list_fails m w err w' :
  ContainerList (client m) w = (inl err, w') ->
  gatherContainers m w = (inl err, w').
Proof.
  intros E. unfold gatherContainers. now rewrite E.
Qed.

Lemma runOnce_pull_fails m start s w err w' :
  gatherContainers m w = (inl err, w') ->
  runOnce m start s w =
    (Some (Some (wrapError "failed to refresh containers: " err)), m, w',
     [Subscribed]).
Proof.
  intros E. unfold runOnce. now rewrite (gather_err _ _ E).
Qed.

Lemma loopBody_pull_fails m g now sel w err w' :
  refreshes sel = true ->
  gatherContainers m w = (inl err, w') ->
  loopBody m g now sel w =
    (Return (Some (wrapError "failed to refresh containers: " err)), m, w', []).
Proof.
  intros Hsel E. unfold loopBody.
  destruct sel; try discriminate; now rewrite (gather_err _ _ E).
Qed.

Lemma runOnce_start m start s w containers w1 :
  gatherContainers m w = (inr containers, w1) ->
  let h := computeHash (elems containers) in
  exists m1 tr0,
    gather m w = (None, m1, w1, tr0) /\
    (previousHash m <> Some h -> tr0 = [Invoked (Some h) containers]) /\
    (previousHash m = Some h -> tr0 = []) /\
    runOnce m start s w =
      match newGate m1 start with
      | None =>
          (None, m1, w1,
           Subscribed :: tr0 ++ [Panicked "non-positive interval for NewTicker"])
      | Some g =>
          let '(r, m2, w2, tr') := eventLoop m1 g s w1 in
          (r, m2, w2, Subscribed :: tr0 ++ tr')
      end.
Proof.
  intros E h.
  destruct (gather_cases m w)
    as [(err & w' & E' & _) | [(cs & w' & E' & Hc & G) | (cs & w' & E' & Hc & G)]];
    rewrite E in E'; inversion E'; subst cs w'; clear E'.
  - exists m, []. split; [exact G|]. split; [intros H; now destruct H|].
    split; [reflexivity|]. unfold runOnce. rewrite G. reflexivity.
  - exists (setPreviousHash m (Some h)), [Invoked (Some h) containers].
    split; [exact G|]. split; [reflexivity|].
    split; [intros H; now destruct Hc|]. unfold runOnce. rewrite G. reflexivity.
Qed.

Lemma attempts_app (tr tr' : list action) :
  attempts (tr ++ tr') = (attempts tr + attempts tr')%nat.
Proof.
  unfold attempts. now rewrite filter_app, length_app.
Qed.

Lemma sleeps_app (tr tr' : list action) :
  sleeps (tr ++ tr') = sleeps tr ++ sleeps tr'.
Proof.
  unfold sleeps. now rewrite flat_map_app.
Qed.

Lemma gather_quiet m w :
  let '(_, _, _, tr) := gather m w in attempts tr = 0%nat /\ sleeps tr = [].
Proof.
  destruct (gather_cases m w)
    as [(err & w1 & _ & ->) | [(cs & w1 & _ & _ & ->) | (cs & w1 & _ & _ & ->)]];
    split; reflexivity.
Qed.

Lemma loopBody_quiet m g now sel w :
  let '(_, _, _, tr) := loopBody m g now sel w in
  attempts tr = 0%nat /\ sleeps tr = [].
Proof.
  pose proof (gather_quiet m w) as H.
  unfold loopBody.
  destruct sel as [err|[err|]| | | |]; try (split; reflexivity);
    try (destruct (waiting g); split; reflexivity);
    destruct (gather m w) as [[[[err|] m'] w'] tr]; auto;
    destruct (waiting g); auto.
Qed.

Lemma eventLoop_quiet m g s w :
  let '(_, _, _, tr) := eventLoop m g s w in
  attempts tr = 0%nat /\ sleeps tr = [].
Proof.
  revert m g w. induction s as [|[now sel] rest IH]; intros m g w;
    cbn [eventLoop]; [split; reflexivity|].
  pose proof (loopBody_quiet m g now sel w) as H.
  destruct (loopBody m g now sel w) as [[[[err|g'] m'] w'] tr]; auto.
  specialize (IH m' g' w').
  destruct (eventLoop m' g' rest w') as [[[r m''] w''] tr'].
  destruct H as [H1 H2], IH as [H3 H4].
  now rewrite attempts_app, sleeps_app, H1, H2, H3, H4.
Qed.

(** A session subscribes once and does not sleep. *)
Lemma runOnce_quiet m start s w :
  let '(_, _, _, tr) := runOnce m start s w in
  attempts tr = 1%nat /\ sleeps tr = [].
Proof.
  unfold runOnce.
  pose proof (gather_quiet m w) as H.
  destruct (gather m w) as [[[[err|] m'] w'] tr].
  - destruct H as [H1 H2]. split.
    + change (Subscribed :: tr) with ([Subscribed] ++ tr).
      now rewrite attempts_app, H1.
    + exact H2.
  - assert (Q : forall tr', attempts tr' = 0%nat /\ sleeps tr' = [] ->
               attempts (Subscribed :: tr ++ tr') = 1%nat /\
               sleeps (Subscribed :: tr ++ tr') = []).
    { intros tr' [H3 H4]. destruct H as [H1 H2]. split.
      - change (Subscribed :: tr ++ tr') with ([Subscribed] ++ tr ++ tr').
        now rewrite !attempts_app, H1, H3.
      - change (Subscribed :: tr ++ tr') with ([Subscribed] ++ tr ++ tr').
        now rewrite !sleeps_app, H2, H4. }
    destruct (newGate m' start) as [g|].
    + pose proof (eventLoop_quiet m' g s w') as H'.
      destruct (eventLoop m' g s w') as [[[r m''] w''] tr'].
      now apply Q.
    + apply Q. split; reflexivity.
Qed.

(** *** The retry loop *)

Lemma wrapInt64_small (z : Z) : - 2 ^ 63 <= z < 2 ^ 63 -> wrapInt64 z = z.
Proof.
  intros H. unfold wrapInt64. rewrite Z.mod_small; lia.
Qed.

Lemma retryLoop_continue rc m attempt delay env rest w err m' w' tr :
  runOnce m (startTime env) (script env) w = (Some err, m', w', tr) ->
  ctxErr env = None ->
  cancelled env = None ->
  elapsed env < Minute ->
  (0 <? MaxRetries rc) && (MaxRetries rc <? wrapInt64 (attempt + 1)) = false ->
  retryLoop rc m attempt delay (env :: rest) w =
    (let '(r, m'', w'', tr') :=
       retryLoop rc m' (wrapInt64 (attempt + 1)) (nextDelay rc delay) rest w' in
     (r, m'', w'', tr ++ Slept delay :: tr')).
Proof.
  intros E Hc Hs He Hr. cbn [retryLoop]. rewrite E, Hc, Hs.
  replace (Minute <=? elapsed env) with false by (symmetry; apply Z.leb_gt; lia).
  rewrite Hr. reflexivity.
Qed.

Lemma retryLoop_exhausted rc m attempt delay env rest w err m' w' tr :
  runOnce m (startTime env) (script env) w = (Some err, m', w', tr) ->
  ctxErr env = None ->
  elapsed env < Minute ->
  (0 <? MaxRetries rc) && (MaxRetries rc <? wrapInt64 (attempt + 1)) = true ->
  retryLoop rc m attempt delay (env :: rest) w = (Some err, m', w', tr).
Proof.
  intros E Hc He Hr. cbn [retryLoop]. rewrite E, Hc.
  replace (Minute <=? elapsed env) with false by (symmetry; apply Z.leb_gt; lia).
  rewrite Hr. reflexivity.
Qed.

(** A session that lasted the minute makes the loop go on as from its
    start. *)
Lemma retryLoop_reset rc m attempt delay env rest w :
  Minute <= elapsed env ->
  retryLoop rc m attempt delay (env :: rest) w =
  retryLoop rc m 0 (MinDelay rc) (env :: rest) w.
Proof.
  intros He. cbn [retryLoop].
  replace (Minute <=? elapsed env) with true by (symmetry; apply Z.leb_le; lia).
  reflexivity.
Qed.

Lemma retryLoop_rapid rc m w envs m' w' :
  rapidFailures m w envs m' w' ->
  forall attempt delay rest,
    MaxRetries rc <= 0 \/
      (0 <= attempt /\
       attempt + Z.of_nat (List.length envs) <= MaxRetries rc < 2 ^ 63) ->
    exists pre attempt',
      attempts pre = List.length envs /\
      sleeps pre = delaysFrom rc (List.length envs) delay /\
      (0 < MaxRetries rc -> attempt' = attempt + Z.of_nat (List.length envs)) /\
      retryLoop rc m attempt delay (envs ++ rest) w =
        (let '(r, m'', w'', tr) :=
           retryLoop rc m' attempt'
                     (Nat.iter (List.length envs) (nextDelay rc) delay) rest w' in
         (r, m'', w'', pre ++ tr)).
Proof.
  induction 1 as [m w|m w env envs err m1 w1 tr m2 w2 E Hc He Hs HR IH];
    intros attempt delay rest Hmax.
  - exists [], attempt. split; [reflexivity|]. split; [reflexivity|].
    split; [cbn [List.length Z.of_nat]; lia|].
    cbn [List.length app].
    change (Nat.iter 0 (nextDelay rc) delay) with delay.
    destruct (retryLoop rc m attempt delay rest w) as [[[r m''] w''] tr].
    reflexivity.
  - cbn [List.length] in *. rewrite Nat2Z.inj_succ in *.
    assert (Hr : (0 <? MaxRetries rc) && (MaxRetries rc <? wrapInt64 (attempt + 1)) = false).
    { destruct Hmax as [Hmax|Hmax].
      - replace (0 <? MaxRetries rc) with false
          by (symmetry; apply Z.ltb_ge; lia). reflexivity.
      - rewrite wrapInt64_small by lia.
        replace (MaxRetries rc <? attempt + 1) with false
          by (symmetry; apply Z.ltb_ge; lia). apply andb_false_r. }
    destruct (IH (wrapInt64 (attempt + 1)) (nextDelay rc delay) rest)
      as (pre & attempt' & P1 & P2 & P3 & P4).
    { destruct Hmax as [Hmax|Hmax]; [now left | right].
      rewrite wrapInt64_small by lia. lia. }
    exists (tr ++ Slept delay :: pre), attempt'.
    pose proof (runOnce_quiet m (startTime env) (script env) w) as Q.
    rewrite E in Q. destruct Q as [Q1 Q2].
    split; [|split; [|split]].
    + change (Slept delay :: pre) with ([Slept delay] ++ pre).
      rewrite !attempts_app, Q1, P1. reflexivity.
    + change (Slept delay :: pre) with ([Slept delay] ++ pre).
      rewrite !sleeps_app, Q2, P2. reflexivity.
    + intros Hpos. rewrite (P3 Hpos).
      destruct Hmax as [Hmax|Hmax]; [lia|].
      rewrite wrapInt64_small by lia. lia.
    + cbn [app].
      rewrite retryLoop_continue with (err := err) (m' := m1) (w' := w1) (tr := tr);
        try assumption.
      rewrite P4. rewrite <- Nat.iter_succ_r.
      match goal with
      | |- context [retryLoop rc m2 ?a ?d rest w2] =>
          destruct (retryLoop rc m2 a d rest w2) as [[[r m''] w''] tr']
      end.
      now rewrite <- app_assoc.
Qed.

Lemma rapidFailures_app_inv m w l1 l2 m' w' :
  rapidFailures m w (l1 ++ l2) m' w' ->
  exists mi wi, rapidFailures m w l1 mi wi /\ rapidFailures mi wi l2 m' w'.
Proof.
  revert m w. induction l1 as [|env l1 IH]; intros m w H; cbn [app] in H.
  - exists m, w. split; [constructor | exact H].
  - inversion H as [|? ? ? ? err m1 w1 tr ? ? E Hc He Hs HR]; subst.
    destruct (IH _ _ HR) as (mi & wi & R1 & R2).
    exists mi, wi. split; [|exact R2]. econstructor; eassumption.
Qed.

(** With a bound on the retries, the attempt that follows the last retry
    ends the run with its error. *)
Lemma runWithRetry_exhausted rc m w envs env rest m' w' :
  0 < MaxRetries rc < 2 ^ 63 - 1 ->
  Z.of_nat (List.length envs) = MaxRetries rc ->
  rapidFailures m w (envs ++ [env]) m' w' ->
  exists err tr mi wi tr',
    runWithRetry rc m (envs ++ env :: rest) w = (Some err, m', w', tr) /\
    attempts tr = S (List.length envs) /\
    sleeps tr = delaysFrom rc (List.length envs) (MinDelay rc) /\
    rapidFailures m w envs mi wi /\
    runOnce mi (startTime env) (script env) wi = (Some err, m', w', tr').
Proof.
  intros Hmax Hlen HR.
  destruct (rapidFailures_app_inv _ _ HR) as (mi & wi & R1 & R2).
  inversion R2 as [|? ? ? ? err ? ? tr' ? ? E Hc He Hs Hnil]; subst.
  inversion Hnil; subst.
  destruct (@retryLoop_rapid rc _ _ _ _ _ R1 0 (MinDelay rc) (env :: rest))
    as (pre & attempt' & P1 & P2 & P3 & P4); [right; lia|].
  unfold runWithRetry. rewrite P4, P3 by lia. cbn [Z.add].
  rewrite retryLoop_exhausted with (err := err) (m' := m') (w' := w') (tr := tr');
    try assumption.
  2:{ rewrite wrapInt64_small by lia.
      apply andb_true_intro. split; [apply Z.ltb_lt | apply Z.ltb_lt]; lia. }
  exists err, (pre ++ tr'), mi, wi, tr'.
  pose proof (runOnce_quiet mi (startTime env) (script env) wi) as Q.
  rewrite E in Q. destruct Q as [Q1 Q2].
  split; [reflexivity|]. split; [|split; [|split]].
  - rewrite attempts_app, P1, Q1. lia.
  - rewrite sleeps_app, P2, Q2. apply app_nil_r.
  - exact R1.
  - exact E.
Qed.

(** While the retries are not used up, every failure is followed by a
    sleep. *)
Lemma runWithRetry_rapid rc m w envs m' w' :
  MaxRetries rc <= 0 \/ Z.of_nat (List.length envs) <= MaxRetries rc < 2 ^ 63 ->
  rapidFailures m w envs m' w' ->
  exists tr,
    runWithRetry rc m envs w = (None, m', w', tr) /\
    attempts tr = List.length envs /\
    sleeps tr = delaysFrom rc (List.length envs) (MinDelay rc).
Proof.
  intros Hmax HR.
  destruct (@retryLoop_rapid rc _ _ _ _ _ HR 0 (MinDelay rc) [])
    as (pre & attempt' & P1 & P2 & _ & P4).
  { destruct Hmax; [now left | right; lia]. }
  exists pre. unfold runWithRetry. rewrite app_nil_r in P4. rewrite P4.
  cbn [retryLoop]. rewrite app_nil_r. auto.
Qed.

(** *** The backoff *)

Lemma nextDelay_doubles rc (a : Z) :
  0 <= MinDelay rc <= MaxDelay rc -> MaxDelay rc < 2 ^ 62 -> 0 <= a ->
  nextDelay rc (Z.min a (MaxDelay rc)) = Z.min (2 * a) (MaxDelay rc).
Proof.
  intros Hm HM Ha. unfold nextDelay.
  rewrite wrapInt64_small by lia.
  destruct (Z.ltb_spec (MaxDelay rc) (Z.min a (MaxDelay rc) * 2)); lia.
Qed.

Lemma delaysFrom_backoff rc (n j : nat) :
  0 <= MinDelay rc <= MaxDelay rc -> MaxDelay rc < 2 ^ 62 ->
  delaysFrom rc n (Z.min (MinDelay rc * 2 ^ Z.of_nat j) (MaxDelay rc)) =
  map (backoff rc) (seq (S j) n).
Proof.
  intros Hm HM. revert j. induction n as [|n IH]; intros j; [reflexivity|].
  cbn [delaysFrom seq map]. f_equal.
  - unfold backoff.
    replace (Z.of_nat (S j) - 1) with (Z.of_nat j) by lia. reflexivity.
  - rewrite nextDelay_doubles; try assumption.
    2:{ apply Z.mul_nonneg_nonneg; [lia|]. apply Z.pow_nonneg. lia. }
    rewrite <- IH. do 2 f_equal.
    rewrite Nat2Z.inj_succ, Z.pow_succ_r by lia. ring.
Qed.

Lemma delaysFrom_MinDelay rc (n : nat) :
  0 <= MinDelay rc <= MaxDelay rc -> MaxDelay rc < 2 ^ 62 ->
  delaysFrom rc n (MinDelay rc) = map (backoff rc) (seq 1 n).
Proof.
  intros Hm HM. rewrite <- delaysFrom_backoff by assumption.
  f_equal. cbn [Z.of_nat Z.pow]. lia.
Qed.

(** *** The monitor along a run *)

Lemma setPreviousHash_same m : setPreviousHash m (previousHash m) = m.
Proof. now destruct m. Qed.

(** A refresh changes nothing of the monitor but the cursor. *)
Lemma gather_monitor m w r m' w' tr :
  gather m w = (r, m', w', tr) -> m' = setPreviousHash m (previousHash m').
Proof.
  unfold gather.
  destruct (gatherContainers m w) as [[e|containers] w1].
  - intros [= _ <- _ _]. symmetry. apply setPreviousHash_same.
  - destruct (sameAsPrevious m (computeHash (elems containers)));
      intros [= _ <- _ _]; [symmetry; apply setPreviousHash_same | reflexivity].
Qed.

Lemma gather_keeps_config m w r m' w' tr :
  gather m w = (r, m', w', tr) ->
  debounce m' = debounce m /\
  maxDebounceTime m' = maxDebounceTime m /\
  maxIdleTime m' = maxIdleTime m.
Proof.
  intros G. apply gather_monitor in G. rewrite G. repeat split.
Qed.

Lemma loopBody_monitor m g now sel w c m' w' tr :
  loopBody m g now sel w = (c, m', w', tr) ->
  m' = setPreviousHash m (previousHash m').
Proof.
  unfold loopBody.
  destruct sel as [err|[err|]| | | |];
    try (intros [= _ <- _ _]; symmetry; apply setPreviousHash_same);
    try (destruct (waiting g); intros [= _ <- _ _]; symmetry;
         apply setPreviousHash_same);
    destruct (gather m w) as [[[[err|] m1] w1] tr1] eqn:G;
    apply gather_monitor in G;
    try (destruct (waiting g)); intros [= _ <- _ _]; exact G.
Qed.

Lemma eventLoop_monitor m g s w r m' w' tr :
  eventLoop m g s w = (r, m', w', tr) ->
  m' = setPreviousHash m (previousHash m').
Proof.
  revert m g w r m' w' tr.
  induction s as [|[now sel] rest IH]; intros m g w r m' w' tr;
    cbn [eventLoop].
  - intros [= _ <- _ _]. symmetry. apply setPreviousHash_same.
  - destruct (loopBody m g now sel w) as [[[[err|g'] m1] w1] tr1] eqn:L;
      apply loopBody_monitor in L.
    + intros [= _ <- _ _]. exact L.
    + destruct (eventLoop m1 g' rest w1) as [[[r' m2] w2] tr2] eqn:E.
      intros [= _ <- _ _]. apply IH in E. rewrite E, L. reflexivity.
Qed.

Lemma runOnce_monitor m start s w r m' w' tr :
  runOnce m start s w = (r, m', w', tr) ->
  m' = setPreviousHash m (previousHash m').
Proof.
  unfold runOnce.
  destruct (gather m w) as [[[[err|] m1] w1] tr1] eqn:G;
    apply gather_monitor in G.
  - intros [= _ <- _ _]. exact G.
  - destruct (newGate m1 start) as [g|].
    + destruct (eventLoop m1 g s w1) as [[[r' m2] w2] tr2] eqn:E.
      intros [= _ <- _ _]. apply eventLoop_monitor in E. rewrite E, G.
      reflexivity.
    + intros [= _ <- _ _]. exact G.
Qed.

(** A session that is still in its loop goes on with the cases that
    follow. *)
Lemma eventLoop_app m g pre rest w m2 w2 tr :
  eventLoop m g pre w = (None, m2, w2, tr) ->
  exists g2,
    eventLoop m g (pre ++ rest) w =
      (let '(r, m3, w3, tr') := eventLoop m2 g2 rest w2 in
       (r, m3, w3, tr ++ tr')).
Proof.
  revert m g w tr. induction pre as [|[now sel] pre IH]; intros m g w tr;
    cbn [eventLoop app].
  - intros [= <- <- <-]. exists g.
    destruct (eventLoop m g rest w) as [[[r m3] w3] tr']. reflexivity.
  - destruct (loopBody m g now sel w) as [[[[err|g'] m1] w1] tr1]; [discriminate|].
    destruct (eventLoop m1 g' pre w1) as [[[r m3] w3] tr3] eqn:E.
    intros [= -> <- <- <-].
    destruct (IH _ _ _ _ E) as (g2 & ->). exists g2.
    destruct (eventLoop m3 g2 rest w3) as [[[r m4] w4] tr4].
    now rewrite app_assoc.
Qed.

Lemma runOnce_app m start pre rest w m2 w2 tr :
  runOnce m start pre w = (None, m2, w2, tr) ->
  0 < maxIdleTime m ->
  exists g2,
    runOnce m start (pre ++ rest) w =
      (let '(r, m3, w3, tr') := eventLoop m2 g2 rest w2 in
       (r, m3, w3, tr ++ tr')).
Proof.
  unfold runOnce. intros H Hpos.
  destruct (gather m w) as [[[[err|] m1] w1] tr1] eqn:G; [discriminate|].
  destruct (gather_keeps_config _ _ G) as (_ & _ & Hi).
  destruct (newGate m1 start) as [g|] eqn:N.
  2:{ apply newGate_None in N. lia. }
  destruct (eventLoop m1 g pre w1) as [[[r m3] w3] tr3] eqn:E.
  injection H as -> <- <- <-.
  destruct (@eventLoop_app _ _ _ rest _ _ _ _ E) as (g2 & ->). exists g2.
  destruct (eventLoop m3 g2 rest w3) as [[[r m4] w4] tr4].
  cbn [app]. now rewrite app_assoc.
Qed.

(** *** The cursor across reconnections *)

Lemma fresh_Slept (c : option Z) (d : Z) (tr : list action) :
  fresh c (Slept d :: tr) <-> fresh c tr.
Proof. reflexivity. Qed.

Lemma retryLoop_trace rc m attempt delay (envs : list attemptEnv) w :
  let '(_, m', _, tr) := retryLoop rc m attempt delay envs w in
  fresh (previousHash m) tr /\
  previousHash m' = cursorAfter (previousHash m) tr.
Proof.
  revert m attempt delay w.
  induction envs as [|env rest IH]; intros m attempt delay w;
    cbn [retryLoop]; [cbn; auto|].
  pose proof (runOnce_trace m (startTime env) (script env) w) as H.
  destruct (runOnce m (startTime env) (script env) w) as [[[[err|] m1] w1] tr];
    [|exact H].
  destruct (ctxErr env); [exact H|].
  match goal with
  | |- context [if ?b then _ else _] => destruct b
  end; [exact H|].
  destruct (cancelled env); [exact H|].
  match goal with
  | |- context [retryLoop rc m1 ?a ?d rest w1] =>
      specialize (IH m1 a d w1);
      destruct (retryLoop rc m1 a d rest w1) as [[[r m2] w2] tr']
  end.
  destruct H as [H1 H2], IH as [H3 H4].
  rewrite fresh_app, cursorAfter_app. cbn [fresh cursorAfter].
  rewrite <- H2. auto.
Qed.

Lemma run_trace m (envs : list attemptEnv) w :
  let '(_, m', _, tr) := run m envs w in
  fresh (previousHash m) tr /\
  previousHash m' = cursorAfter (previousHash m) tr.
Proof.
  unfold run. destruct (reconnect m) as [rc|].
  - apply retryLoop_trace.
  - destruct envs as [|env rest]; [cbn; auto|]. apply runOnce_trace.
Qed.

(** *** [Run] and its client *)

Lemma Run_with_client nd opts (c : DockerClient World) envs w :
  dockerClientOf nd opts = inr c ->
  Run nd opts envs w =
    (let '(r, _, w', tr) := run (newMonitor (applyOptions opts) c) envs w in
     (r, w', tr)).
Proof.
  unfold dockerClientOf. intros E. unfold Run. now rewrite E.
Qed.

Lemma Run_without_client nd opts err envs w :
  dockerClientOf nd opts = inl err ->
  Run nd opts envs w = (Some (Some err), w, []).
Proof.
  unfold dockerClientOf. intros E. unfold Run. now rewrite E.
Qed.

Lemma Run_fresh nd opts (envs : list attemptEnv) w :
  fresh None (snd (Run (World := World) nd opts envs w)).
Proof.
  destruct (dockerClientOf nd opts) as [err|c] eqn:E.
  - rewrite (Run_without_client nd opts envs w E). exact I.
  - rewrite (Run_with_client nd opts envs w E).
    pose proof (run_trace (newMonitor (applyOptions opts) c) envs w) as R.
    destruct (run (newMonitor (applyOptions opts) c) envs w) as [[[r m'] w'] tr].
    exact (proj1 R).
Qed.

(** *** The first session of a run *)

Lemma retryLoop_first rc m attempt delay env envs w :
  exists rest,
    snd (retryLoop rc m attempt delay (env :: envs) w) =
    snd (runOnce m (startTime env) (script env) w) ++ rest.
Proof.
  cbn [retryLoop].
  destruct (runOnce m (startTime env) (script env) w) as [[[[err|] m'] w'] tr];
    cbn [snd]; [|exists []; now rewrite app_nil_r].
  destruct (ctxErr env); [exists []; now rewrite app_nil_r|].
  match goal with
  | |- context [if ?b then _ else _] => destruct b
  end; [exists []; now rewrite app_nil_r|].
  destruct (cancelled env); [exists []; now rewrite app_nil_r|].
  match goal with
  | |- context [retryLoop rc m' ?a ?d envs w'] =>
      destruct (retryLoop rc m' a d envs w') as [[[r m''] w''] tr']
  end.
  cbn [snd]. now exists (Slept (if Minute <=? elapsed env then MinDelay rc else delay) :: tr').
Qed.

Lemma run_first m env envs w :
  exists rest,
    snd (run m (env :: envs) w) =
    snd (runOnce m (startTime env) (script env) w) ++ rest.
Proof.
  unfold run. destruct (reconnect m) as [rc|].
  - apply retryLoop_first.
  - exists []. now rewrite app_nil_r.
Qed.

(** What a session does begins with the subscription and the first
    refresh. *)
Lemma runOnce_begins m start s w :
  exists rest,
    snd (runOnce m start s w) = Subscribed :: snd (gather m w) ++ rest.
Proof.
  unfold runOnce.
  destruct (gather m w) as [[[[err|] m1] w1] tr0]; cbn [snd].
  - exists []. now rewrite app_nil_r.
  - destruct (newGate m1 start) as [g|].
    + destruct (eventLoop m1 g s w1) as [[[r m2] w2] tr']. now exists tr'.
    + now eexists.
Qed.

(** A session that has started and has no case to take yet. *)
Lemma runOnce_waiting m start w m1 w1 tr0 :
  gather m w = (None, m1, w1, tr0) ->
  0 < maxIdleTime m ->
  runOnce m start [] w = (None, m1, w1, Subscribed :: tr0).
Proof.
  intros G Hpos. unfold runOnce. rewrite G.
  destruct (gather_keeps_config _ _ G) as (_ & _ & Hi).
  destruct (newGate m1 start) as [g|] eqn:N.
  - cbn [eventLoop]. now rewrite app_nil_r.
  - apply newGate_None in N. lia.
Qed.

(** The loop goes on to the next session with the monitor that the
    session before has left. *)
Lemma retryLoop_reconnects rc m attempt delay env rest w err m1 w1 tr1 :
  runOnce m (startTime env) (script env) w = (Some err, m1, w1, tr1) ->
  ctxErr env = None ->
  cancelled env = None ->
  let stable := Minute <=? elapsed env in
  let attempt' := wrapInt64 ((if stable then 0 else attempt) + 1) in
  let delay' := if stable then MinDelay rc else delay in
  (0 <? MaxRetries rc) && (MaxRetries rc <? attempt') = false ->
  retryLoop rc m attempt delay (env :: rest) w =
    (let '(r, m3, w3, tr') :=
       retryLoop rc m1 attempt' (nextDelay rc delay') rest w1 in
     (r, m3, w3, tr1 ++ Slept delay' :: tr')).
Proof.
  intros E Hc Hs stable attempt' delay' Hr.
  cbn [retryLoop]. rewrite E, Hc, Hs.
  fold stable. fold attempt'. rewrite Hr. reflexivity.
Qed.

(** The session that follows in the loop begins with its subscription and
    its first refresh; with no case to take yet it has done nothing
    else. *)
Lemma retryLoop_next_start rc m1 attempt delay env2 rest2 w1 m2 w2 tr0 :
  gather m1 w1 = (None, m2, w2, tr0) ->
  exists more,
    snd (retryLoop rc m1 attempt delay (env2 :: rest2) w1) =
      Subscribed :: tr0 ++ more /\
    (script env2 = [] -> 0 < maxIdleTime m1 -> more = []).
Proof.
  intros G.
  destruct (retryLoop_first rc m1 attempt delay env2 rest2 w1) as (rest & F).
  destruct (runOnce_begins m1 (startTime env2) (script env2) w1) as (rest' & B).
  rewrite G in B. cbn [snd] in B. rewrite B in F.
  exists (rest' ++ rest). split.
  - rewrite F. cbn [app]. now rewrite app_assoc.
  - intros Hs Hpos.
    assert (R : retryLoop rc m1 attempt delay (env2 :: rest2) w1 =
                (None, m2, w2, Subscribed :: tr0)).
    { cbn [retryLoop].
      rewrite Hs, (@runOnce_waiting m1 (startTime env2) w1 m2 w2 tr0 G Hpos).
      reflexivity. }
    rewrite R in F. cbn [snd app] in F. injection F as F.
    rewrite <- app_assoc in F.
    apply (app_inv_head tr0). rewrite app_nil_r. symmetry. exact F.
Qed.

(** *** Session start, errors and retries *)

Lemma cursorAfter_quiet (c : option Z) (tr : list action) :
  deliveries tr = [] -> cursorAfter c tr = c.
Proof.
  induction tr as [|a tr IH]; [reflexivity|].
  destruct a as [|seen cs|d|msg]; cbn [deliveries flat_map app cursorAfter];
    try exact IH.
  discriminate.
Qed.

(** The cursor after a run is the hash of the set delivered last. *)
Lemma cursorAfter_last (c : option Z) (tr : list action)
    (before : list (slice Container.t)) (cs0 : slice Container.t) :
  fresh c tr ->
  deliveries tr = before ++ [cs0] ->
  cursorAfter c tr = Some (computeHash (elems cs0)).
Proof.
  revert c before. induction tr as [|a tr IH]; intros c before.
  - intros _ E. destruct before; discriminate.
  - destruct a as [|seen cs|d|msg];
      cbn [deliveries flat_map app cursorAfter fresh];
      try (apply IH).
    intros (Hseen & _ & F) E. fold (deliveries tr) in E.
    destruct before as [|b before]; cbn [app] in E.
    + injection E as -> E. rewrite (@cursorAfter_quiet seen tr E). exact Hseen.
    + injection E as _ E. exact (IH _ _ F E).
Qed.

(** The session after a reconnect. *)
Lemma retryLoop_hands_cursor rc m attempt delay env rest w err m1 w1 tr1 :
  runOnce m (startTime env) (script env) w = (Some err, m1, w1, tr1) ->
  ctxErr env = None ->
  cancelled env = None ->
  let stable := Minute <=? elapsed env in
  let attempt' := wrapInt64 ((if stable then 0 else attempt) + 1) in
  let delay' := if stable then MinDelay rc else delay in
  (0 <? MaxRetries rc) && (MaxRetries rc <? attempt') = false ->
  let cursor := cursorAfter (previousHash m) tr1 in
  previousHash m1 = cursor /\
  retryLoop rc m attempt delay (env :: rest) w =
    (let '(r, m3, w3, tr') :=
       retryLoop rc m1 attempt' (nextDelay rc delay') rest w1 in
     (r, m3, w3, tr1 ++ Slept delay' :: tr')) /\
  (forall env2 rest2 containers w2,
      rest = env2 :: rest2 ->
      gatherContainers m1 w1 = (inr containers, w2) ->
      let h := computeHash (elems containers) in
      exists m2 tr0 more,
        gather m1 w1 = (None, m2, w2, tr0) /\
        (cursor <> Some h -> tr0 = [Invoked (Some h) containers]) /\
        (cursor = Some h -> tr0 = [] /\ m2 = m1) /\
        (forall before cs0,
            deliveries tr1 = before ++ [cs0] ->
            Forall (fun c => wf_map (Container.Labels c)) (elems cs0) ->
            sameCollection (elems cs0) (elems containers) ->
            tr0 = [] /\ m2 = m1) /\
        snd (retryLoop rc m attempt delay (env :: rest) w) =
          tr1 ++ Slept delay' :: Subscribed :: tr0 ++ more /\
        (script env2 = [] -> 0 < maxIdleTime m -> more = [])).
Proof.
  intros E Hc Hs stable attempt' delay' Hr cursor.
  pose proof (runOnce_trace m (startTime env) (script env) w) as T.
  rewrite E in T. destruct T as [F T].
  pose proof (@retryLoop_reconnects rc m attempt delay env rest w err m1 w1 tr1
                E Hc Hs Hr) as L.
  split; [exact T|]. split; [exact L|].
  intros env2 rest2 containers w2 -> E2 h.
  subst attempt' delay' stable.
  assert (Hpos1 : 0 < maxIdleTime m -> 0 < maxIdleTime m1).
  { intros Hpos.
    rewrite (@runOnce_monitor m (startTime env) (script env) w _ m1 w1 tr1 E).
    exact Hpos. }
  assert (X : forall m2 tr0,
             gather m1 w1 = (None, m2, w2, tr0) ->
             exists more,
               snd (retryLoop rc m attempt delay (env :: env2 :: rest2) w) =
                 tr1 ++
                 Slept (if Minute <=? elapsed env then MinDelay rc else delay)
                 :: Subscribed :: tr0 ++ more /\
               (script env2 = [] -> 0 < maxIdleTime m -> more = [])).
  { intros m2 tr0 G. rewrite L.
    match goal with
    | |- context [retryLoop rc m1 ?a ?d (env2 :: rest2) w1] =>
        destruct (@retryLoop_next_start rc m1 a d env2 rest2 w1 m2 w2 tr0 G)
          as (more & X1 & X2);
        destruct (retryLoop rc m1 a d (env2 :: rest2) w1) as [[[r m3] w3] tr']
    end.
    cbn [snd] in *. subst tr'. exists more. split; [reflexivity|]. auto. }
  fold cursor in T.
  assert (Hlast : forall before cs0,
             deliveries tr1 = before ++ [cs0] ->
             Forall (fun c => wf_map (Container.Labels c)) (elems cs0) ->
             sameCollection (elems cs0) (elems containers) ->
             cursor = Some h).
  { intros before cs0 Ed Hwf Hsame. unfold cursor, h.
    rewrite (@cursorAfter_last (previousHash m) tr1 before cs0 F Ed).
    now rewrite (computeHash_sameCollection Hwf Hsame). }
  destruct (gather_cases m1 w1)
    as [(e & w' & E' & _) | [(cs & w' & E' & Hsame & G) | (cs & w' & E' & Hne & G)]];
    rewrite E2 in E'; [discriminate | injection E' as <- <- ..].
  - destruct (X _ _ G) as (more & X1 & X2).
    exists m1, [], more.
    split; [exact G|].
    split; [intros N; exfalso; apply N; rewrite <- T; exact Hsame|].
    split; [auto|]. split; [auto|]. split; [exact X1 | exact X2].
  - destruct (X _ _ G) as (more & X1 & X2).
    exists (setPreviousHash m1 (Some h)), [Invoked (Some h) containers], more.
    split; [exact G|]. split; [reflexivity|].
    split; [intros N; exfalso; apply Hne; rewrite T; exact N|].
    split; [|split; [exact X1 | exact X2]].
    intros before cs0 Ed Hwf Hs'. exfalso. apply Hne. rewrite T.
    exact (Hlast _ _ Ed Hwf Hs').
Qed.

(** C4: at the start of every session the monitor pulls, and when the pull
    succeeds it calls the callback exactly when the cursor is unset or
    differs from the hash of the pulled set.  [Run] builds the monitor with
    the cursor unset, whichever client it works with, so its first session
    always delivers on a successful pull; without a client no session
    starts.  A reconnect hands the monitor of the session that ended to the
    next one: the cursor at the start of the next session is that of the
    last delivery made so far, the callback is called there exactly when
    the hash of the pulled set differs from it, and so it is not called when
    the pulled set is, up to order, the set delivered last; this is so
    after every round of the loop, and for the second session of a [Run]
    with reconnection.  Over a whole [Run], a delivery at the start of a
    session is never made with the hash of the delivery before it. *)
Theorem session_start_delivers_on_change :
  (forall m start s w containers w1,
      gatherContainers m w = (inr containers, w1) ->
      let h := computeHash (elems containers) in
      exists m1 tr0,
        gather m w = (None, m1, w1, tr0) /\
        (previousHash m <> Some h -> tr0 = [Invoked (Some h) containers]) /\
        (previousHash m = Some h -> tr0 = []) /\
        runOnce m start s w =
          match newGate m1 start with
          | None =>
              (None, m1, w1,
               Subscribed :: tr0 ++
               [Panicked "non-positive interval for NewTicker"])
          | Some g =>
              let '(r, m2, w2, tr') := eventLoop m1 g s w1 in
              (r, m2, w2, Subscribed :: tr0 ++ tr')
          end) /\
  (forall nd opts (c : DockerClient World) env envs w containers w1,
      dockerClientOf nd opts = inr c ->
      gatherContainers (newMonitor (applyOptions opts) c) w = (inr containers, w1) ->
      exists rest,
        snd (Run nd opts (env :: envs) w) =
        Subscribed :: Invoked (Some (computeHash (elems containers))) containers
                   :: rest) /\
  (forall nd opts err (envs : list attemptEnv) (w : World),
      dockerClientOf nd opts = inl err ->
      Run nd opts envs w = (Some (Some err), w, [])) /\
  (forall rc m attempt delay env rest w err m1 w1 tr1,
      runOnce m (startTime env) (script env) w = (Some err, m1, w1, tr1) ->
      ctxErr env = None ->
      cancelled env = None ->
      let stable := Minute <=? elapsed env in
      let attempt' := wrapInt64 ((if stable then 0 else attempt) + 1) in
      let delay' := if stable then MinDelay rc else delay in
      (0 <? MaxRetries rc) && (MaxRetries rc <? attempt') = false ->
      let cursor := cursorAfter (previousHash m) tr1 in
      previousHash m1 = cursor /\
      retryLoop rc m attempt delay (env :: rest) w =
        (let '(r, m3, w3, tr') :=
           retryLoop rc m1 attempt' (nextDelay rc delay') rest w1 in
         (r, m3, w3, tr1 ++ Slept delay' :: tr')) /\
      (forall env2 rest2 containers w2,
          rest = env2 :: rest2 ->
          gatherContainers m1 w1 = (inr containers, w2) ->
          let h := computeHash (elems containers) in
          exists m2 tr0 more,
            gather m1 w1 = (None, m2, w2, tr0) /\
            (cursor <> Some h -> tr0 = [Invoked (Some h) containers]) /\
            (cursor = Some h -> tr0 = [] /\ m2 = m1) /\
            (forall before cs0,
                deliveries tr1 = before ++ [cs0] ->
                Forall (fun c => wf_map (Container.Labels c)) (elems cs0) ->
                sameCollection (elems cs0) (elems containers) ->
                tr0 = [] /\ m2 = m1) /\
            snd (retryLoop rc m attempt delay (env :: rest) w) =
              tr1 ++ Slept delay' :: Subscribed :: tr0 ++ more /\
            (script env2 = [] -> 0 < maxIdleTime m -> more = []))) /\
  (forall nd opts (c : DockerClient World) env env2 rest w err m1 w1 tr1
          containers w2,
      dockerClientOf nd opts = inr c ->
      enableAutoReconnect (applyOptions opts) = true ->
      runOnce (newMonitor (applyOptions opts) c) (startTime env) (script env) w =
        (Some err, m1, w1, tr1) ->
      ctxErr env = None ->
      cancelled env = None ->
      gatherContainers m1 w1 = (inr containers, w2) ->
      let h := computeHash (elems containers) in
      let cursor := cursorAfter None tr1 in
      exists tr0 more,
        (cursor <> Some h -> tr0 = [Invoked (Some h) containers]) /\
        (cursor = Some h -> tr0 = []) /\
        snd (Run nd opts (env :: env2 :: rest) w) =
          tr1 ++ Slept (minReconnectDelay (applyOptions opts))
              :: Subscribed :: tr0 ++ more /\
        (script env2 = [] -> 0 < cfgMaxIdleTime (applyOptions opts) ->
         more = [])) /\
  (forall nd opts (envs : list attemptEnv) (w : World) pre seen cs post,
      snd (Run nd opts envs w) = pre ++ Subscribed :: Invoked seen cs :: post ->
      seen = Some (computeHash (elems cs)) /\ cursorAfter None pre <> seen).
Proof.
  split; [|split; [|split; [|split; [|split]]]].
  - intros m start s w containers w1 E. now apply runOnce_start.
  - intros nd opts c env envs w containers w1 Ec E.
    rewrite (Run_with_client nd opts (env :: envs) w Ec).
    set (m := newMonitor (applyOptions opts) c) in *.
    destruct (run_first m env envs w) as (rest & Hrest).
    destruct (runOnce_begins m (startTime env) (script env) w) as (rest' & B).
    rewrite B in Hrest.
    destruct (@runOnce_start m (startTime env) (script env) w containers w1 E)
      as (m1 & tr0 & G & H1 & _ & _).
    rewrite G in Hrest. cbn [snd] in Hrest.
    rewrite H1 in Hrest by discriminate.
    destruct (run m (env :: envs) w) as [[[r' m'] w'] tr''].
    cbn [snd] in *. subst tr''. cbn [app]. eauto.
  - intros nd opts err envs w. apply Run_without_client.
  - intros rc m attempt delay env rest w err m1 w1 tr1.
    apply retryLoop_hands_cursor.
  - intros nd opts c env env2 rest w err m1 w1 tr1 containers w2
           Ec Hr E Hc Hs E2 h cursor.
    set (cfg := applyOptions opts) in *.
    set (rc := mkReconnect (minReconnectDelay cfg) (maxReconnectDelay cfg)
                           (maxReconnectRetries cfg)).
    assert (Hretry : (0 <? MaxRetries rc) &&
                     (MaxRetries rc <?
                      wrapInt64 ((if Minute <=? elapsed env then 0 else 0) + 1)) =
                     false).
    { replace (if Minute <=? elapsed env then 0 else 0) with 0
        by (now destruct (Minute <=? elapsed env)).
      change (wrapInt64 (0 + 1)) with 1.
      destruct (Z.ltb_spec 0 (MaxRetries rc)); [|reflexivity].
      apply Z.ltb_ge. lia. }
    destruct (@retryLoop_hands_cursor rc (newMonitor cfg c) 0 (MinDelay rc) env
                (env2 :: rest) w err m1 w1 tr1 E Hc Hs Hretry)
      as (_ & _ & N).
    destruct (N env2 rest containers w2 eq_refl E2)
      as (m2 & tr0 & more & _ & D1 & D2 & _ & T & M).
    exists tr0, more.
    split; [exact D1|]. split; [intros X; now destruct (D2 X)|].
    replace (if Minute <=? elapsed env then MinDelay rc else MinDelay rc)
      with (minReconnectDelay cfg) in T
      by (now destruct (Minute <=? elapsed env)).
    split; [|exact M].
    rewrite (Run_with_client nd opts (env :: env2 :: rest) w Ec).
    fold cfg. unfold run.
    replace (reconnect (newMonitor cfg c)) with (Some rc)
      by (unfold newMonitor; rewrite Hr; reflexivity).
    unfold runWithRetry.
    destruct (retryLoop rc (newMonitor cfg c) 0 (MinDelay rc)
                (env :: env2 :: rest) w) as [[[r m'] w'] tr].
    exact T.
  - intros nd opts envs w pre seen cs post E.
    pose proof (Run_fresh nd opts envs w) as F.
    rewrite E in F. apply fresh_app in F. destruct F as [_ F].
    cbn [fresh] in F. destruct F as (F1 & F2 & _). auto.
Qed.

(** A pull that fails at a later refresh ends the session. *)
Lemma runOnce_later_pull_fails m start pre now sel more w m2 w2 tr err w' :
  runOnce m start pre w = (None, m2, w2, tr) ->
  0 < maxIdleTime m ->
  refreshes sel = true ->
  ContainerList (client m) w2 = (inl err, w') ->
  runOnce m start (pre ++ (now, sel) :: more) w =
    (Some (Some (wrapError "failed to refresh containers: " err)), m2, w', tr).
Proof.
  intros H Hpos Hsel E.
  destruct (@runOnce_app _ _ _ ((now, sel) :: more) _ _ _ _ H Hpos) as (g2 & ->).
  cbn [eventLoop].
  rewrite loopBody_pull_fails with (err := err) (w' := w'); [|exact Hsel|].
  - now rewrite app_nil_r.
  - apply gatherContainers_list_fails.
    rewrite (@runOnce_monitor m start pre w _ m2 w2 tr H). exact E.
Qed.

(** C6: without reconnection, a pull that fails because the listing fails
    ends the session, at its start or at a later refresh, and [run] and
    [Run] return that error, wrapped, whichever client [Run] works with;
    with reconnection and two retries allowed, three attempts that fail in
    a row make [run] and [Run] start exactly three sessions and sleep
    twice, and return the error of the third. *)
Theorem run_surfaces_pull_error :
  (forall m env envs w err w',
      reconnect m = None ->
      ContainerList (client m) w = (inl err, w') ->
      run m (env :: envs) w =
        (Some (Some (wrapError "failed to refresh containers: " err)), m, w',
         [Subscribed])) /\
  (forall m g now sel rest w err w',
      refreshes sel = true ->
      ContainerList (client m) w = (inl err, w') ->
      eventLoop m g ((now, sel) :: rest) w =
        (Some (Some (wrapError "failed to refresh containers: " err)), m, w', [])) /\
  (forall m env envs w pre now sel more m2 w2 tr err w',
      reconnect m = None ->
      script env = pre ++ (now, sel) :: more ->
      runOnce m (startTime env) pre w = (None, m2, w2, tr) ->
      0 < maxIdleTime m ->
      refreshes sel = true ->
      ContainerList (client m) w2 = (inl err, w') ->
      run m (env :: envs) w =
        (Some (Some (wrapError "failed to refresh containers: " err)), m2, w',
         tr)) /\
  (forall nd opts (c : DockerClient World) env envs w err w',
      dockerClientOf nd opts = inr c ->
      enableAutoReconnect (applyOptions opts) = false ->
      ContainerList c w = (inl err, w') ->
      Run nd opts (env :: envs) w =
        (Some (Some (wrapError "failed to refresh containers: " err)), w',
         [Subscribed])) /\
  (forall nd opts (c : DockerClient World) env envs w pre now sel more m2 w2 tr
          err w',
      dockerClientOf nd opts = inr c ->
      enableAutoReconnect (applyOptions opts) = false ->
      script env = pre ++ (now, sel) :: more ->
      runOnce (newMonitor (applyOptions opts) c) (startTime env) pre w =
        (None, m2, w2, tr) ->
      0 < cfgMaxIdleTime (applyOptions opts) ->
      refreshes sel = true ->
      ContainerList c w2 = (inl err, w') ->
      Run nd opts (env :: envs) w =
        (Some (Some (wrapError "failed to refresh containers: " err)), w', tr)) /\
  (forall m rc e1 e2 e3 rest w m' w',
      reconnect m = Some rc ->
      MaxRetries rc = 2 ->
      rapidFailures m w [e1; e2; e3] m' w' ->
      exists err tr mi wi tr3,
        run m (e1 :: e2 :: e3 :: rest) w = (Some err, m', w', tr) /\
        attempts tr = 3%nat /\
        List.length (sleeps tr) = 2%nat /\
        rapidFailures m w [e1; e2] mi wi /\
        runOnce mi (startTime e3) (script e3) wi = (Some err, m', w', tr3)) /\
  (forall nd opts (c : DockerClient World) e1 e2 e3 rest w m' w',
      dockerClientOf nd opts = inr c ->
      enableAutoReconnect (applyOptions opts) = true ->
      maxReconnectRetries (applyOptions opts) = 2 ->
      rapidFailures (newMonitor (applyOptions opts) c) w [e1; e2; e3] m' w' ->
      exists err tr mi wi tr3,
        Run nd opts (e1 :: e2 :: e3 :: rest) w = (Some err, w', tr) /\
        attempts tr = 3%nat /\
        List.length (sleeps tr) = 2%nat /\
        rapidFailures (newMonitor (applyOptions opts) c) w [e1; e2] mi wi /\
        runOnce mi (startTime e3) (script e3) wi = (Some err, m', w', tr3)).
Proof.
  assert (Later : forall m env envs w pre now sel more m2 w2 tr err w',
             reconnect m = None ->
             script env = pre ++ (now, sel) :: more ->
             runOnce m (startTime env) pre w = (None, m2, w2, tr) ->
             0 < maxIdleTime m ->
             refreshes sel = true ->
             ContainerList (client m) w2 = (inl err, w') ->
             run m (env :: envs) w =
               (Some (Some (wrapError "failed to refresh containers: " err)),
                m2, w', tr)).
  { intros m env envs w pre now sel more m2 w2 tr err w' Hr Hs H Hpos Hsel E.
    unfold run. rewrite Hr, Hs.
    now apply runOnce_later_pull_fails with (w2 := w2). }
  assert (Retry : forall m rc e1 e2 e3 rest w m' w',
             reconnect m = Some rc ->
             MaxRetries rc = 2 ->
             rapidFailures m w [e1; e2; e3] m' w' ->
             exists err tr mi wi tr3,
               run m (e1 :: e2 :: e3 :: rest) w = (Some err, m', w', tr) /\
               attempts tr = 3%nat /\
               List.length (sleeps tr) = 2%nat /\
               rapidFailures m w [e1; e2] mi wi /\
               runOnce mi (startTime e3) (script e3) wi = (Some err, m', w', tr3)).
  { intros m rc e1 e2 e3 rest w m' w' Hrc Hmax HR.
    destruct (@runWithRetry_exhausted rc m w [e1; e2] e3 rest m' w')
      as (err & tr & mi & wi & tr3 & R & A & S & R1 & E).
    - rewrite Hmax. lia.
    - now rewrite Hmax.
    - exact HR.
    - exists err, tr, mi, wi, tr3. cbn [app] in R.
      unfold run. rewrite Hrc.
      split; [exact R|]. split; [exact A|]. split; [|split; [exact R1 | exact E]].
      rewrite S. reflexivity. }
  split; [|split; [|split; [|split; [|split; [|split]]]]].
  - intros m env envs w err w' Hr E. unfold run. rewrite Hr.
    apply runOnce_pull_fails. now apply gatherContainers_list_fails.
  - intros m g now sel rest w err w' Hsel E. cbn [eventLoop].
    rewrite loopBody_pull_fails with (err := err) (w' := w'); auto.
    now apply gatherContainers_list_fails.
  - exact Later.
  - intros nd opts c env envs w err w' Ec Hr E.
    rewrite (Run_with_client nd opts (env :: envs) w Ec).
    unfold run, newMonitor. rewrite Hr. cbn [reconnect].
    rewrite runOnce_pull_fails with (err := err) (w' := w'); [reflexivity|].
    now apply gatherContainers_list_fails.
  - intros nd opts c env envs w pre now sel more m2 w2 tr err w'
           Ec Hr Hs H Hpos Hsel E.
    rewrite (Run_with_client nd opts (env :: envs) w Ec).
    rewrite (Later (newMonitor (applyOptions opts) c) env envs w pre now sel more
                   m2 w2 tr err w'); try assumption; try reflexivity.
    unfold newMonitor. rewrite Hr. reflexivity.
  - exact Retry.
  - intros nd opts c e1 e2 e3 rest w m' w' Ec Hr Hmax HR.
    destruct (Retry (newMonitor (applyOptions opts) c)
                (mkReconnect (minReconnectDelay (applyOptions opts))
                             (maxReconnectDelay (applyOptions opts))
                             (maxReconnectRetries (applyOptions opts)))
                e1 e2 e3 rest w m' w')
      as (err & tr & mi & wi & tr3 & R & A & S & R1 & E).
    + unfold newMonitor. rewrite Hr. reflexivity.
    + exact Hmax.
    + exact HR.
    + exists err, tr, mi, wi, tr3.
      rewrite (Run_with_client nd opts (e1 :: e2 :: e3 :: rest) w Ec), R.
      auto.
Qed.

(** C7: for a configuration with [0 <= MinDelay <= MaxDelay < 2^62]
    nanoseconds, the delays slept along failures that follow one another
    within the minute are [min (MinDelay * 2^(k-1)) MaxDelay] for
    [k = 1, 2, ...]; and after a session that lasted the minute the loop
    sleeps [MinDelay] and goes on with the attempt counter at one, as after
    its very first failure. *)
Theorem backoff_schedule rc m w envs m' w' :
  0 <= MinDelay rc <= MaxDelay rc ->
  MaxDelay rc < 2 ^ 62 ->
  MaxRetries rc <= 0 \/ Z.of_nat (List.length envs) <= MaxRetries rc < 2 ^ 63 ->
  rapidFailures m w envs m' w' ->
  (exists tr,
      runWithRetry rc m envs w = (None, m', w', tr) /\
      sleeps tr = map (backoff rc) (seq 1 (List.length envs))) /\
  (forall m0 attempt delay env rest w0 err m1 w1 tr,
      runOnce m0 (startTime env) (script env) w0 = (Some err, m1, w1, tr) ->
      ctxErr env = None ->
      cancelled env = None ->
      Minute <= elapsed env ->
      retryLoop rc m0 attempt delay (env :: rest) w0 =
        retryLoop rc m0 0 (MinDelay rc) (env :: rest) w0 /\
      retryLoop rc m0 attempt delay (env :: rest) w0 =
        (let '(r, m2, w2, tr') :=
           retryLoop rc m1 1 (nextDelay rc (MinDelay rc)) rest w1 in
         (r, m2, w2, tr ++ Slept (MinDelay rc) :: tr'))).
Proof.
  intros Hm HM Hmax HR. split.
  - destruct (runWithRetry_rapid rc Hmax HR) as (tr & R & _ & S).
    exists tr. split; [exact R|].
    rewrite S. now apply delaysFrom_MinDelay.
  - intros m0 attempt delay env rest w0 err m1 w1 tr E Hc Hs He.
    split; [now apply retryLoop_reset|].
    cbn [retryLoop]. rewrite E, Hc, Hs.
    replace (Minute <=? elapsed env) with true by (symmetry; apply Z.leb_le; lia).
    change (wrapInt64 (0 + 1)) with 1.
    replace ((0 <? MaxRetries rc) && (MaxRetries rc <? 1)) with false.
    + reflexivity.
    + symmetry. destruct (Z.ltb_spec 0 (MaxRetries rc)); [|reflexivity].
      apply Z.ltb_ge. lia.
Qed.

End MonitorProperties.

(* ================================================================= *)
(** * Properties of the gate *)

Section GateProperties.

Context {World : Type}.

Implicit Types (m : monitor World) (w : World) (g : gate).

(** *** The window *)

Lemma loopBody_event m g now w :
  loopBody m g now recvEvent w =
    (Continue (mkGate (Some (now + debounce m))
                 (if waiting g then maxDebounceTimer g
                  else Some (now + maxDebounceTime m))
                 (now + maxIdleTime m) true), m, w, []).
Proof.
  unfold loopBody. destruct (waiting g); reflexivity.
Qed.

Lemma loopBody_window m g now sel w g' m' w' tr :
  loopBody m g now sel w = (Continue g', m', w', tr) ->
  (waiting g = true -> waiting g' = true ->
     sel = recvEvent /\ maxDebounceTimer g' = maxDebounceTimer g) /\
  (waiting g = false -> waiting g' = true ->
     sel = recvEvent /\ maxDebounceTimer g' = Some (now + maxDebounceTime m)) /\
  (waiting g = true -> waiting g' = false ->
     debounceTimer g' = None /\ maxDebounceTimer g' = None) /\
  (waiting g = false -> waiting g' = false ->
     maxDebounceTimer g' = maxDebounceTimer g \/ maxDebounceTimer g' = None).
Proof.
  unfold loopBody.
  destruct sel as [err|[err|]| | | |]; try discriminate.
  - destruct (waiting g) eqn:Wg; intros [= <- <- <- <-]; cbn;
      repeat split; auto; discriminate.
  - destruct (gather m w) as [[[[err|] m1] w1] tr1]; [discriminate|].
    intros [= <- <- <- <-]; cbn; repeat split; auto; discriminate.
  - destruct (gather m w) as [[[[err|] m1] w1] tr1]; [discriminate|].
    intros [= <- <- <- <-]; cbn; repeat split; auto; discriminate.
  - destruct (gather m w) as [[[[err|] m1] w1] tr1]; [discriminate|].
    destruct (waiting g) eqn:Wg; intros [= <- <- <- <-]; cbn;
      repeat split; auto; try discriminate; congruence.
Qed.

(** The firing of the max-debounce timer is a refresh: the monitor pulls,
    a pull that fails ends the session, and after a pull that succeeds the
    callback is called if the set has changed, the debounce timer is
    stopped, the ticker is reset and the gate is idle. *)
Lemma loopBody_maxDebounceFired_refreshes m g now w :
  match gatherContainers m w with
  | (inl err, w') =>
      loopBody m g now maxDebounceFired w =
        (Return (Some (wrapError "failed to refresh containers: " err)),
         m, w', [])
  | (inr containers, w') =>
      let h := computeHash (elems containers) in
      loopBody m g now maxDebounceFired w =
        (Continue (mkGate None None (now + maxIdleTime m) false),
         (if sameAsPrevious m h then m else setPreviousHash m (Some h)), w',
         (if sameAsPrevious m h then [] else [Invoked (Some h) containers]))
  end.
Proof.
  unfold loopBody, gather.
  destruct (gatherContainers m w) as [[err|containers] w']; [reflexivity|].
  cbv zeta.
  destruct (sameAsPrevious m (computeHash (elems containers))); reflexivity.
Qed.

(** Every firing of a timer or of the ticker is a refresh of the same
    kind, and leaves the gate not waiting, with both timers stopped. *)
Lemma loopBody_refreshes m g now sel w :
  refreshes sel = true ->
  match gatherContainers m w with
  | (inl err, w') =>
      loopBody m g now sel w =
        (Return (Some (wrapError "failed to refresh containers: " err)),
         m, w', [])
  | (inr containers, w') =>
      let h := computeHash (elems containers) in
      exists g',
        loopBody m g now sel w =
          (Continue g',
           (if sameAsPrevious m h then m else setPreviousHash m (Some h)), w',
           (if sameAsPrevious m h then [] else [Invoked (Some h) containers])) /\
        waiting g' = false /\
        (gateOk g -> debounceTimer g' = None /\ maxDebounceTimer g' = None)
  end.
Proof.
  intros Hsel. unfold loopBody, gather.
  destruct sel as [err|[err|]| | | |]; try discriminate;
    (destruct (gatherContainers m w) as [[err|containers] w']; [reflexivity|]);
    cbv zeta;
    destruct (sameAsPrevious m (computeHash (elems containers)));
    try (eexists; split; [reflexivity|]; split; [reflexivity|];
         intros _; split; reflexivity);
    unfold gateOk; destruct (waiting g);
    eexists; (split; [reflexivity|]); (split; [reflexivity|]);
    cbn; tauto.
Qed.

Lemma firstRefresh_events (l : list Z) (tr : list (Z * selected)) :
  firstRefresh (map (fun a => (a, recvEvent)) l ++ tr) = firstRefresh tr.
Proof.
  induction l as [|a l IH]; [reflexivity | exact IH].
Qed.

(** *** The select *)

Lemma least_candidate (l : list (Z * selected)) :
  l <> [] ->
  exists t sel,
    In (t, sel) l /\ forall t' sel', In (t', sel') l -> t <= t'.
Proof.
  induction l as [|[t sel] l IH]; [congruence|]. intros _.
  destruct l as [|x l].
  - exists t, sel. split; [now left|].
    intros t' sel' [[= <- <-]|[]]. lia.
  - destruct IH as (t1 & sel1 & Hin & Hmin); [discriminate|].
    destruct (Z_le_gt_dec t t1) as [Hle|Hgt].
    + exists t, sel. split; [now left|].
      intros t' sel' [[= <- <-]|H]; [lia|]. specialize (Hmin _ _ H). lia.
    + exists t1, sel1. split; [now right|].
      intros t' sel' [[= <- <-]|H]; [lia|]. exact (Hmin _ _ H).
Qed.

(** The select always has a case to take: the ticker keeps ticking. *)
Lemma select_progress (s : session World) : exists t sel, enabled s t sel.
Proof.
  apply least_candidate. unfold candidates.
  repeat match goal with
         | |- context [match ?x with _ => _ end] => destruct x
         end; cbn; discriminate.
Qed.

Lemma exec_one (s : session World) (t : Z) (sel : selected) :
  enabled s t sel -> exists st, exec s [(t, sel)] st.
Proof.
  intros He.
  destruct (fst (fire s t sel)) as [s'|err] eqn:Hf.
  - exists (Live s'). eapply exec_cons; [exact He | exact Hf | constructor].
  - exists (Ended World err). now apply exec_end.
Qed.

Lemma fire_event (s : session World) (t : Z) :
  fire s t recvEvent =
  (Live (mkSession t (tl (arrivals s)) (doneAt s) (errAt s)
           (mkGate (Some (t + debounce (mon s)))
                   (if waiting (timers s) then maxDebounceTimer (timers s)
                    else Some (t + maxDebounceTime (mon s)))
                   (t + maxIdleTime (mon s)) true)
           (mon s) (world s)), []).
Proof.
  unfold fire. rewrite loopBody_event. reflexivity.
Qed.

Lemma arrivalsFrom_cons (t0 gap : Z) (k count : nat) :
  arrivalsFrom t0 gap k (S count) =
  (t0 + Z.of_nat k * gap) :: arrivalsFrom t0 gap (S k) count.
Proof. reflexivity. Qed.

(** *** The storm *)

Section Storm.

Variables (m : monitor World) (w : World) (t0 gap idle0 : Z) (n : nat).

Hypothesis gap_pos : 0 < gap.
Hypothesis max_nonneg : 0 <= maxDebounceTime m.
Hypothesis storm_long : maxDebounceTime m < Z.of_nat n * gap.

Let start : session World := stormStart m w t0 gap n idle0.
Let state (k : nat) : session World := stormState m w t0 gap n k.
Let deadline : Z := t0 + maxDebounceTime m.

Lemma clock_state (k : nat) : clock (state k) = t0 + (Z.of_nat k - 1) * gap.
Proof. reflexivity. Qed.

(** While the clock has not passed the deadline, events are still to
    come. *)
Lemma state_before_deadline (k : nat) :
  (1 <= k)%nat -> clock (state k) <= deadline -> (k <= n)%nat.
Proof.
  rewrite clock_state. unfold deadline. intros Hk Hc.
  assert (H : (Z.of_nat k - 1) * gap < Z.of_nat n * gap) by lia.
  apply Z.mul_lt_mono_pos_r in H; lia.
Qed.

Lemma arrivals_state (k : nat) :
  (k <= n)%nat ->
  arrivals (state k) =
  (t0 + Z.of_nat k * gap) :: arrivalsFrom t0 gap (S k) (S n - S k).
Proof.
  intros Hk. unfold state, stormState. cbn [arrivals].
  replace (S n - k)%nat with (S (S n - S k)) by lia.
  apply arrivalsFrom_cons.
Qed.

Lemma candidates_start :
  candidates start =
  [(Z.max t0 (t0 + Z.of_nat 0 * gap), recvEvent); (Z.max t0 idle0, idleTick)].
Proof. reflexivity. Qed.

Lemma candidates_state (k : nat) :
  (k <= n)%nat ->
  let c := clock (state k) in
  candidates (state k) =
  [(Z.max c (t0 + Z.of_nat k * gap), recvEvent);
   (Z.max c (c + debounce m), debounceFired);
   (Z.max c deadline, maxDebounceFired);
   (Z.max c (c + maxIdleTime m), idleTick)].
Proof.
  intros Hk c. unfold candidates, due.
  rewrite arrivals_state by lia. reflexivity.
Qed.

Lemma fire_start : fst (fire start t0 recvEvent) = Live (state 1).
Proof.
  rewrite fire_event. cbn [fst]. f_equal.
  unfold start, stormStart, state, stormState, storm.
  cbn [arrivals doneAt errAt timers mon world waiting tl Z.of_nat].
  rewrite arrivalsFrom_cons. cbn [tl].
  replace (S n - 1)%nat with n by lia.
  f_equal; [lia|]. f_equal; f_equal; lia.
Qed.

Lemma fire_state (k : nat) :
  (k <= n)%nat ->
  fst (fire (state k) (t0 + Z.of_nat k * gap) recvEvent) = Live (state (S k)).
Proof.
  intros Hk. rewrite fire_event. cbn [fst]. f_equal.
  rewrite arrivals_state by assumption.
  unfold state, stormState.
  cbn [arrivals doneAt errAt timers mon world waiting maxDebounceTimer tl].
  rewrite Nat2Z.inj_succ.
  f_equal; [lia|]. f_equal; f_equal; lia.
Qed.

(** **** Whatever the configuration: a refresh by the deadline *)

Lemma enabled_start_bound (t : Z) (sel : selected) :
  enabled start t sel ->
  t <= deadline /\ ((sel = recvEvent /\ t = t0) \/ refreshes sel = true).
Proof.
  unfold enabled. rewrite candidates_start. intros [Hin Hmin].
  pose proof (Hmin _ _ (or_introl eq_refl)) as M1.
  unfold deadline.
  destruct Hin as [E|[E|[]]]; inversion E; subst.
  - split; [lia|]. left. split; [reflexivity | lia].
  - split; [lia|]. now right.
Qed.

Lemma enabled_state_bound (k : nat) (t : Z) (sel : selected) :
  (1 <= k)%nat ->
  clock (state k) <= deadline ->
  enabled (state k) t sel ->
  t <= deadline /\
  ((sel = recvEvent /\ t = t0 + Z.of_nat k * gap) \/ refreshes sel = true).
Proof.
  intros Hk Hc.
  pose proof (state_before_deadline Hk Hc) as Hn.
  unfold enabled. rewrite candidates_state by assumption.
  rewrite clock_state in *. intros [Hin Hmin].
  pose proof (Hmin _ _ (or_intror (or_intror (or_introl eq_refl)))) as M3.
  destruct Hin as [E|[E|[E|[E|[]]]]]; inversion E; subst;
    (split; [lia|]); try (now right).
  left. split; [reflexivity | lia].
Qed.

Lemma exec_state_bound (s : session World) (tr : list (Z * selected))
    (st : status World) :
  exec s tr st ->
  forall k, s = state k -> (1 <= k)%nat -> clock (state k) <= deadline ->
  (firstRefresh tr = None /\
   st = Live (state (k + List.length tr)) /\
   clock (state (k + List.length tr)) <= deadline) \/
  (exists t sel, firstRefresh tr = Some (t, sel) /\ t <= deadline).
Proof.
  induction 1 as [s|s t sel err He Hf|s t sel s' tr st He Hf Hx IH];
    intros k -> Hk Hc.
  - left. cbn [List.length firstRefresh]. rewrite Nat.add_0_r. auto.
  - apply enabled_state_bound in He; try assumption.
    destruct He as [Ht [[-> ->]|Hr]].
    + rewrite fire_state in Hf by (now apply state_before_deadline).
      discriminate.
    + right. exists t, sel. cbn [firstRefresh]. rewrite Hr. auto.
  - apply enabled_state_bound in He; try assumption.
    destruct He as [Ht [[-> ->]|Hr]].
    + rewrite fire_state in Hf by (now apply state_before_deadline).
      injection Hf as <-.
      cbn [firstRefresh refreshes List.length].
      replace (k + S (List.length tr))%nat with (S k + List.length tr)%nat by lia.
      apply IH; [reflexivity | lia |].
      rewrite clock_state, Nat2Z.inj_succ. lia.
    + right. exists t, sel. cbn [firstRefresh]. rewrite Hr. auto.
Qed.

Lemma clock_state_1 : clock (state 1) <= deadline.
Proof.
  rewrite clock_state. unfold deadline. cbn [Z.of_nat]. lia.
Qed.

Lemma exec_start_bound (tr : list (Z * selected)) (st : status World) :
  exec start tr st ->
  (firstRefresh tr = None /\
   (List.length tr <= n)%nat /\
   exists s, st = Live s /\ clock s <= deadline) \/
  (exists t sel, firstRefresh tr = Some (t, sel) /\ t <= deadline).
Proof.
  intros Hx.
  inversion Hx as [s|s t sel err He Hf|s t sel s' tr' st' He Hf Hx']; subst.
  - left. split; [reflexivity|]. split; [cbn; lia|].
    exists start. split; [reflexivity|].
    unfold start, stormStart, deadline. cbn [clock]. lia.
  - apply enabled_start_bound in He. destruct He as [Ht [[-> ->]|Hr]].
    + rewrite fire_start in Hf. discriminate.
    + right. exists t, sel. cbn [firstRefresh]. rewrite Hr. auto.
  - apply enabled_start_bound in He. destruct He as [Ht [[-> ->]|Hr]].
    + rewrite fire_start in Hf. injection Hf as <-.
      cbn [firstRefresh refreshes List.length].
      destruct (exec_state_bound Hx' (k := 1) eq_refl (le_n 1) clock_state_1)
        as [(F & -> & Hc)|F]; [left|now right].
      split; [exact F|]. split.
      * pose proof (state_before_deadline (k := 1 + List.length tr')) as Hn.
        specialize (Hn ltac:(lia) Hc). lia.
      * eexists. split; [reflexivity | exact Hc].
    + right. exists t, sel. cbn [firstRefresh]. rewrite Hr. auto.
Qed.

Lemma exec_state_refreshes (d k : nat) :
  (n - k = d)%nat -> (1 <= k)%nat -> clock (state k) <= deadline ->
  exists tr st, exec (state k) tr st /\ firstRefresh tr <> None.
Proof.
  revert k. induction d as [|d IH]; intros k Hd Hk Hc;
    pose proof (state_before_deadline Hk Hc) as Hn;
    destruct (select_progress (state k)) as (t & sel & He);
    destruct (enabled_state_bound Hk Hc He) as [Ht [[-> ->]|Hr]].
  - unfold deadline in Ht. assert (k = n) by lia. subst k. lia.
  - destruct (exec_one He) as (st & Hx).
    exists [(t, sel)], st. split; [exact Hx|].
    cbn [firstRefresh]. rewrite Hr. discriminate.
  - destruct (IH (S k)) as (tr & st & Hx & F); [lia | lia | |].
    { rewrite clock_state, Nat2Z.inj_succ. unfold deadline in *. lia. }
    exists ((t0 + Z.of_nat k * gap, recvEvent) :: tr), st. split; [|exact F].
    eapply exec_cons; [exact He | apply fire_state; assumption | exact Hx].
  - destruct (exec_one He) as (st & Hx).
    exists [(t, sel)], st. split; [exact Hx|].
    cbn [firstRefresh]. rewrite Hr. discriminate.
Qed.

Lemma exec_start_refreshes :
  exists tr st, exec start tr st /\ firstRefresh tr <> None.
Proof.
  destruct (select_progress start) as (t & sel & He).
  destruct (enabled_start_bound He) as [Ht [[-> ->]|Hr]].
  - destruct (exec_state_refreshes (k := 1) eq_refl (le_n 1) clock_state_1)
      as (tr & st & Hx & F).
    exists ((t0, recvEvent) :: tr), st. split; [|exact F].
    eapply exec_cons; [exact He | apply fire_start | exact Hx].
  - destruct (exec_one He) as (st & Hx).
    exists [(t, sel)], st. split; [exact Hx|].
    cbn [firstRefresh]. rewrite Hr. discriminate.
Qed.

(** **** With the idle period above the gap: the refresh at the deadline *)

Section Exact.

Hypothesis debounce_gap : debounce m = 10 * gap.
Hypothesis gap_idle : gap < maxIdleTime m.
Hypothesis idle_later : t0 < idle0.

Lemma enabled_start (t : Z) (sel : selected) :
  enabled start t sel <-> t = t0 /\ sel = recvEvent.
Proof.
  unfold enabled. rewrite candidates_start. split.
  - intros [[E|[E|[]]] Hmin]; inversion E; subst; [split; [lia | reflexivity]|].
    specialize (Hmin _ recvEvent (or_introl eq_refl)). lia.
  - intros [-> ->]. split; [left; f_equal; lia|].
    intros t' sel' [E|[E|[]]]; inversion E; subst; lia.
Qed.

Lemma enabled_state (k : nat) (t : Z) (sel : selected) :
  (1 <= k)%nat ->
  clock (state k) <= deadline ->
  enabled (state k) t sel <->
  (sel = recvEvent /\ t = t0 + Z.of_nat k * gap /\ t <= deadline) \/
  (sel = maxDebounceFired /\ t = deadline /\ deadline <= t0 + Z.of_nat k * gap).
Proof.
  intros Hk Hc.
  pose proof (state_before_deadline Hk Hc) as Hn.
  unfold enabled. rewrite candidates_state by assumption.
  rewrite clock_state in *.
  split.
  - intros [Hin Hmin].
    pose proof (Hmin _ _ (or_introl eq_refl)) as M1.
    pose proof (Hmin _ _ (or_intror (or_intror (or_introl eq_refl)))) as M3.
    destruct Hin as [E|[E|[E|[E|[]]]]]; inversion E; subst.
    + left. repeat split; lia.
    + lia.
    + right. repeat split; lia.
    + lia.
  - intros [(-> & -> & Ht)|(-> & -> & Ht)].
    + split; [left; f_equal; lia|].
      intros t' sel' [E|[E|[E|[E|[]]]]]; inversion E; subst; lia.
    + split; [right; right; left; f_equal; lia|].
      intros t' sel' [E|[E|[E|[E|[]]]]]; inversion E; subst; lia.
Qed.

(** A run from [state k]: either it has taken only events, each before
    the deadline, or its first refresh is the max-debounce timer at the
    deadline. *)
Lemma exec_state (s : session World) (tr : list (Z * selected))
    (st : status World) :
  exec s tr st ->
  forall k, s = state k -> (1 <= k)%nat -> clock (state k) <= deadline ->
  firstRefresh tr = None \/
  firstRefresh tr = Some (deadline, maxDebounceFired).
Proof.
  induction 1 as [s|s t sel err He Hf|s t sel s' tr st He Hf Hx IH];
    intros k -> Hk Hc.
  - now left.
  - apply enabled_state in He; try assumption.
    destruct He as [(-> & -> & Ht)|(-> & -> & Ht)]; [now left | now right].
  - apply enabled_state in He; try assumption.
    destruct He as [(-> & -> & Ht)|(-> & -> & Ht)]; [|now right].
    rewrite fire_state in Hf by (now apply state_before_deadline).
    injection Hf as <-.
    cbn [firstRefresh refreshes].
    apply (IH (S k)); [reflexivity | lia |].
    rewrite clock_state, Nat2Z.inj_succ. lia.
Qed.

Lemma exec_start (tr : list (Z * selected)) (st : status World) :
  exec start tr st ->
  firstRefresh tr = None \/
  firstRefresh tr = Some (deadline, maxDebounceFired).
Proof.
  intros Hx.
  inversion Hx as [s|s t sel err He Hf|s t sel s' tr' st' He Hf Hx']; subst.
  - now left.
  - apply enabled_start in He. destruct He as [-> ->]. now left.
  - apply enabled_start in He. destruct He as [-> ->].
    rewrite fire_start in Hf. injection Hf as <-.
    cbn [firstRefresh refreshes].
    exact (exec_state Hx' (k := 1) eq_refl (le_n 1) clock_state_1).
Qed.

(** The refresh that the max-debounce timer makes. *)
Lemma fire_state_refresh (k : nat) (t : Z) :
  fst (fire (state k) t maxDebounceFired) =
    match gather m w with
    | (Some err, _, _, _) => Ended World (Some err)
    | (None, m', w', _) => Live (stormRefreshed m' w' t0 gap n k t)
    end.
Proof.
  unfold fire, state, stormState, loopBody.
  cbn [mon timers world arrivals doneAt errAt].
  destruct (gather m w) as [[[[err|] m'] w'] tr] eqn:G; cbn [fst]; [reflexivity|].
  unfold stormRefreshed.
  destruct (gather_keeps_config _ _ G) as (_ & _ & ->). reflexivity.
Qed.

(** A run from [state k], in full: the events that are left before the
    deadline, then the max-debounce timer at the deadline, whose refresh
    the rest of the run follows. *)
Lemma exec_state_refreshed (s : session World) (tr : list (Z * selected))
    (st : status World) :
  exec s tr st ->
  forall k, s = state k -> (1 <= k)%nat -> clock (state k) <= deadline ->
  firstRefresh tr = None \/
  (exists j post,
      tr = map (fun a => (a, recvEvent)) (arrivalsFrom t0 gap k j) ++
           (deadline, maxDebounceFired) :: post /\
      match gather m w with
      | (Some err, _, _, _) => post = [] /\ st = Ended World (Some err)
      | (None, m', w', _) =>
          exec (stormRefreshed m' w' t0 gap n (k + j) deadline) post st
      end).
Proof.
  induction 1 as [s|s t sel err He Hf|s t sel s' tr st He Hf Hx IH];
    intros k -> Hk Hc.
  - now left.
  - apply enabled_state in He; try assumption.
    destruct He as [(-> & -> & Ht)|(-> & -> & Ht)].
    + rewrite fire_state in Hf by (now apply state_before_deadline).
      discriminate.
    + right. exists 0%nat, []. split; [reflexivity|].
      rewrite fire_state_refresh in Hf.
      destruct (gather m w) as [[[[e|] m'] w'] tr0]; [|discriminate].
      injection Hf as <-. auto.
  - apply enabled_state in He; try assumption.
    destruct He as [(-> & -> & Ht)|(-> & -> & Ht)].
    + rewrite fire_state in Hf by (now apply state_before_deadline).
      injection Hf as <-.
      destruct (IH (S k)) as [N|(j & post & E & G)]; [reflexivity | lia | |now left|].
      { rewrite clock_state, Nat2Z.inj_succ. lia. }
      right. exists (S j), post. split.
      * rewrite arrivalsFrom_cons. cbn [map app]. now rewrite E.
      * replace (k + S j)%nat with (S k + j)%nat by lia. exact G.
    + right. exists 0%nat, tr. split; [reflexivity|].
      rewrite fire_state_refresh in Hf. rewrite Nat.add_0_r.
      destruct (gather m w) as [[[[e|] m'] w'] tr0]; [discriminate|].
      injection Hf as <-. exact Hx.
Qed.

Lemma exec_start_refreshed (tr : list (Z * selected)) (st : status World) :
  exec start tr st ->
  firstRefresh tr = None \/
  (firstRefresh tr = Some (deadline, maxDebounceFired) /\
   exists k post,
     (1 <= k)%nat /\
     tr = stormEvents t0 gap k ++ (deadline, maxDebounceFired) :: post /\
     match gather m w with
     | (Some err, _, _, _) => post = [] /\ st = Ended World (Some err)
     | (None, m', w', _) =>
         exec (stormRefreshed m' w' t0 gap n k deadline) post st
     end).
Proof.
  intros Hx.
  inversion Hx as [s|s t sel err He Hf|s t sel s' tr' st' He Hf Hx']; subst.
  - now left.
  - apply enabled_start in He. destruct He as [-> ->]. now left.
  - apply enabled_start in He. destruct He as [-> ->].
    rewrite fire_start in Hf. injection Hf as <-.
    destruct (exec_state_refreshed Hx' (k := 1) eq_refl (le_n 1) clock_state_1)
      as [N|(j & post & E & G)]; [now left|].
    right.
    assert (T : (t0, recvEvent) :: tr' =
                stormEvents t0 gap (S j) ++ (deadline, maxDebounceFired) :: post).
    { unfold stormEvents. rewrite arrivalsFrom_cons. cbn [map app].
      rewrite E. f_equal. f_equal. cbn [Z.of_nat]. lia. }
    split.
    + rewrite T. unfold stormEvents. now rewrite firstRefresh_events.
    + exists (S j), post. split; [lia|]. split; [exact T | exact G].
Qed.

End Exact.

(** **** With the idle period below the gap: the ticker closes every window *)

Section ShortIdle.

Hypothesis idle_pos : 0 < maxIdleTime m.
Hypothesis idle_gap : maxIdleTime m < gap.
Hypothesis idle_debounce : maxIdleTime m < debounce m.
Hypothesis idle_max : maxIdleTime m < maxDebounceTime m.

(** What holds of the session all along: the gate is idle, or it has just
    taken an event, and the events to come are at least the gap away. *)
Let hasty (s : session World) : Prop :=
  doneAt s = None /\ errAt s = None /\
  debounce (mon s) = debounce m /\
  maxDebounceTime (mon s) = maxDebounceTime m /\
  maxIdleTime (mon s) = maxIdleTime m /\
  spaced gap (arrivals s) /\
  match arrivals s with [] => True | a :: _ => clock s <= a end /\
  ((debounceTimer (timers s) = None /\ maxDebounceTimer (timers s) = None /\
    waiting (timers s) = false) \/
   (timers s = mkGate (Some (clock s + debounce m))
                      (Some (clock s + maxDebounceTime m))
                      (clock s + maxIdleTime m) true /\
    match arrivals s with [] => True | a :: _ => clock s + gap <= a end)).

Lemma spaced_arrivalsFrom (k count : nat) : spaced gap (arrivalsFrom t0 gap k count).
Proof.
  revert k. induction count as [|count IH]; intros k; [exact I|].
  rewrite arrivalsFrom_cons. cbn [spaced]. split; [|apply IH].
  destruct count as [|count]; [exact I|].
  rewrite arrivalsFrom_cons. rewrite Nat2Z.inj_succ. lia.
Qed.

Lemma spaced_tail (a : Z) (rest : list Z) :
  spaced gap (a :: rest) ->
  spaced gap rest /\ match rest with [] => True | b :: _ => a + gap <= b end.
Proof. cbn [spaced]. tauto. Qed.

Lemma hasty_start : hasty start.
Proof.
  unfold hasty, start, stormStart, storm.
  cbn [doneAt errAt mon arrivals clock timers debounceTimer maxDebounceTimer waiting].
  do 5 (split; [reflexivity|]).
  split; [apply spaced_arrivalsFrom|]. split; [|left; auto].
  rewrite arrivalsFrom_cons. cbn [Z.of_nat]. lia.
Qed.

Lemma hasty_step (s : session World) (t : Z) (sel : selected) :
  hasty s -> enabled s t sel ->
  sel <> maxDebounceFired /\
  forall s', fst (fire s t sel) = Live s' -> hasty s'.
Proof.
  destruct s as [c arr dn er g mo wo]. unfold hasty, enabled, candidates, due.
  cbn [doneAt errAt mon arrivals clock timers world].
  intros (-> & -> & Hd & HM & HI & Hsp & Hc & Hg) [Hin Hmin].
  cbn [app] in Hin, Hmin.
  destruct Hg as [(G1 & G2 & G3)|[-> Ha]].
  - destruct g as [dt mt it wt]. cbn in G1, G2, G3. subst dt mt wt.
    cbn [debounceTimer maxDebounceTimer idleTicker app] in Hin, Hmin.
    destruct arr as [|a rest].
    + destruct Hin as [E|[]]. inversion E; subst. split; [discriminate|].
      intros s'. unfold fire, loopBody. cbn [mon timers world waiting].
      destruct (gather mo wo) as [[[[e|] m'] w'] tr0] eqn:G; [discriminate|].
      cbn [fst]. intros [= <-].
      destruct (gather_keeps_config _ _ G) as (K1 & K2 & K3).
      unfold hasty. cbn. rewrite K1, K2, K3. repeat split; auto.
    + apply spaced_tail in Hsp. destruct Hsp as [Hsp Hb].
      destruct Hin as [E|[E|[]]]; inversion E; subst; (split; [discriminate|]).
      * intros s'. rewrite fire_event. cbn [fst]. intros [= <-].
        unfold hasty. cbn. rewrite Hd, HM, HI.
        repeat split; auto.
        -- destruct rest as [|b rest']; [exact I | lia].
        -- right. split; [reflexivity|].
           destruct rest as [|b rest']; [exact I | lia].
      * pose proof (Hmin _ _ (or_introl eq_refl)) as M1.
        intros s'. unfold fire, loopBody. cbn [mon timers world waiting].
        destruct (gather mo wo) as [[[[e|] m'] w'] tr0] eqn:G; [discriminate|].
        cbn [fst]. intros [= <-].
        destruct (gather_keeps_config _ _ G) as (K1 & K2 & K3).
        unfold hasty. cbn. rewrite K1, K2, K3. repeat split; auto. lia.
  - cbn [debounceTimer maxDebounceTimer idleTicker app] in Hin, Hmin.
    assert (Ht : t <= c + maxIdleTime m).
    { destruct arr as [|a rest]; cbn [app] in Hmin.
      - specialize (Hmin _ idleTick
                      (or_intror (or_intror (or_introl eq_refl)))). lia.
      - specialize (Hmin _ idleTick
                      (or_intror (or_intror (or_intror (or_introl eq_refl))))). lia. }
    assert (Hsel : sel = idleTick /\ t = c + maxIdleTime m).
    { destruct arr as [|a rest]; cbn [app] in Hin.
      - destruct Hin as [E|[E|[E|[]]]]; inversion E; subst;
          try (split; [reflexivity | lia]); lia.
      - destruct Hin as [E|[E|[E|[E|[]]]]]; inversion E; subst;
          try (split; [reflexivity | lia]); lia. }
    destruct Hsel as [-> ->]. split; [discriminate|].
    intros s'. unfold fire, loopBody. cbn [mon timers world waiting idleTicker].
    destruct (gather mo wo) as [[[[e|] m'] w'] tr0] eqn:G; [discriminate|].
    cbn [fst]. intros [= <-].
    destruct (gather_keeps_config _ _ G) as (K1 & K2 & K3).
    unfold hasty. cbn. rewrite K1, K2, K3. repeat split; auto.
    destruct arr as [|a rest]; [exact I | lia].
Qed.

(** The max-debounce timer never fires. *)
Lemma exec_hasty (s : session World) (tr : list (Z * selected))
    (st : status World) :
  exec s tr st -> hasty s -> forall t, ~ In (t, maxDebounceFired) tr.
Proof.
  induction 1 as [s|s t sel err He Hf|s t sel s' tr st He Hf Hx IH];
    intros Hs t' Hin.
  - destruct Hin.
  - destruct (hasty_step Hs He) as [Hn _].
    destruct Hin as [E|[]]. inversion E; subst. now apply Hn.
  - destruct (hasty_step Hs He) as [Hn Hnext].
    destruct Hin as [E|Hin]; [inversion E; subst; now apply Hn|].
    exact (IH (Hnext _ Hf) t' Hin).
Qed.

Hypothesis idle_later : t0 < idle0.

Lemma enabled_state_hasty (k : nat) (t : Z) (sel : selected) :
  (k = 1 /\ k <= n)%nat ->
  enabled (state k) t sel ->
  t = clock (state k) + maxIdleTime m /\ sel = idleTick.
Proof.
  intros Hk. unfold enabled. rewrite candidates_state by lia.
  rewrite clock_state. intros [Hin Hmin].
  pose proof (Hmin _ _ (or_intror (or_intror (or_intror (or_introl eq_refl)))))
    as M4.
  unfold deadline in *.
  destruct Hin as [E|[E|[E|[E|[]]]]]; inversion E; subst;
    try (split; [lia | reflexivity]); lia.
Qed.

Lemma enabled_state_1 (t : Z) (sel : selected) :
  enabled (state 1) t sel -> t = t0 + maxIdleTime m /\ sel = idleTick.
Proof.
  assert (Hn : (1 <= n)%nat).
  { destruct (Nat.eq_dec n 0) as [E|E]; [exfalso | lia].
    pose proof storm_long as SL. rewrite E in SL. cbn in SL. lia. }
  intros He. apply enabled_state_hasty in He; [|lia].
  rewrite clock_state in He. destruct He as [-> ->].
  split; [lia | reflexivity].
Qed.

(** The first refresh is the tick that follows the first event. *)
Lemma exec_start_hasty (tr : list (Z * selected)) (st : status World) :
  exec start tr st ->
  firstRefresh tr = None \/
  firstRefresh tr = Some (t0 + maxIdleTime m, idleTick).
Proof.
  intros Hx.
  assert (Hs : forall t sel, enabled start t sel -> t = t0 /\ sel = recvEvent).
  { intros t sel. unfold enabled. rewrite candidates_start.
    intros [[E|[E|[]]] Hmin]; inversion E; subst; [split; [lia | reflexivity]|].
    specialize (Hmin _ recvEvent (or_introl eq_refl)). lia. }
  inversion Hx as [s|s t sel err He Hf|s t sel s' tr' st' He Hf Hx']; subst.
  - now left.
  - apply Hs in He. destruct He as [-> ->]. now left.
  - apply Hs in He. destruct He as [-> ->].
    rewrite fire_start in Hf. injection Hf as <-.
    cbn [firstRefresh refreshes].
    inversion Hx' as [s|s t sel err He Hf|s t sel s' tr'' st'' He Hf Hx'']; subst.
    + now left.
    + apply enabled_state_1 in He. destruct He as [-> ->]. now right.
    + apply enabled_state_1 in He. destruct He as [-> ->]. now right.
Qed.

Lemma enabled_state_tick (k : nat) :
  (k = 1 /\ k <= n)%nat ->
  enabled (state k) (clock (state k) + maxIdleTime m) idleTick.
Proof.
  intros Hk. unfold enabled. rewrite candidates_state by lia.
  rewrite clock_state. unfold deadline.
  split; [right; right; right; left; f_equal; lia|].
  intros t' sel' [E|[E|[E|[E|[]]]]]; inversion E; subst; lia.
Qed.

(** Under the storm the first refresh of every run is the tick that
    follows the first event, the max-debounce timer never fires, and the
    run up to that tick exists. *)
Lemma storm_hasty :
  (forall tr st,
      exec start tr st ->
      (firstRefresh tr = None \/
       firstRefresh tr = Some (t0 + maxIdleTime m, idleTick)) /\
      forall t, ~ In (t, maxDebounceFired) tr) /\
  (exists st, exec start [(t0, recvEvent); (t0 + maxIdleTime m, idleTick)] st).
Proof.
  split.
  - intros tr st Hx. split; [now apply exec_start_hasty with (st := st)|].
    exact (exec_hasty Hx hasty_start).
  - assert (Hn : (1 <= n)%nat).
    { destruct (Nat.eq_dec n 0) as [E|E]; [exfalso | lia].
      pose proof storm_long as SL. rewrite E in SL. cbn in SL. lia. }
    pose proof (@enabled_state_tick 1 ltac:(lia)) as He.
    rewrite clock_state in He.
    replace (t0 + (Z.of_nat 1 - 1) * gap + maxIdleTime m)
      with (t0 + maxIdleTime m) in He by lia.
    destruct (exec_one He) as (st & Hx).
    exists st. apply exec_cons with (s' := state 1).
    + unfold enabled. rewrite candidates_start. split; [left; f_equal; lia|].
      intros t' sel' [E|[E|[]]]; inversion E; subst; lia.
    + apply fire_start.
    + exact Hx.
Qed.

End ShortIdle.

End Storm.

(** C2: the max-debounce timer is armed when an event opens the window
    and at no other moment: an event inside the window leaves it as it is,
    and the window closes with both timers stopped.  Its firing is a
    refresh: the monitor pulls, a pull that fails ends the session, and
    after a pull that succeeds the callback is called if the set has
    changed, the debounce timer is stopped and the gate is idle again;
    the firing of the debounce timer and the tick are refreshes of the
    same kind.
    Under events that come every [gap] for longer than [maxDebounceTime],
    no run of the session goes past [maxDebounceTime] after the first event
    without a refresh, and a run with a refresh exists.  When the gap is
    [debounce / 10], the idle period is longer than the gap and the ticker
    is not due before the first event, every run takes the events that
    come before the deadline and then the max-debounce timer, at
    [maxDebounceTime] after the first event: that is its first refresh,
    and the run goes on from the gate idle and from the monitor and the
    daemon as that refresh leaves them; and such a run exists.  When the
    idle period is positive and shorter than the gap, the debounce time and
    the max-debounce time, the first refresh is instead the tick that
    follows the first event, and the max-debounce timer never fires. *)
Theorem max_debounce_armed_once :
  (forall m g now sel w g' m' w' tr,
      loopBody m g now sel w = (Continue g', m', w', tr) ->
      (waiting g = true -> waiting g' = true ->
         sel = recvEvent /\ maxDebounceTimer g' = maxDebounceTimer g) /\
      (waiting g = false -> waiting g' = true ->
         sel = recvEvent /\
         maxDebounceTimer g' = Some (now + maxDebounceTime m)) /\
      (waiting g = true -> waiting g' = false ->
         debounceTimer g' = None /\ maxDebounceTimer g' = None) /\
      (waiting g = false -> waiting g' = false ->
         maxDebounceTimer g' = maxDebounceTimer g \/
         maxDebounceTimer g' = None)) /\
  (forall m g now w,
      match gatherContainers m w with
      | (inl err, w') =>
          loopBody m g now maxDebounceFired w =
            (Return (Some (wrapError "failed to refresh containers: " err)),
             m, w', [])
      | (inr containers, w') =>
          let h := computeHash (elems containers) in
          loopBody m g now maxDebounceFired w =
            (Continue (mkGate None None (now + maxIdleTime m) false),
             (if sameAsPrevious m h then m else setPreviousHash m (Some h)), w',
             (if sameAsPrevious m h then [] else [Invoked (Some h) containers]))
      end) /\
  (forall m g now sel w,
      refreshes sel = true ->
      match gatherContainers m w with
      | (inl err, w') =>
          loopBody m g now sel w =
            (Return (Some (wrapError "failed to refresh containers: " err)),
             m, w', [])
      | (inr containers, w') =>
          let h := computeHash (elems containers) in
          exists g',
            loopBody m g now sel w =
              (Continue g',
               (if sameAsPrevious m h then m else setPreviousHash m (Some h)),
               w',
               (if sameAsPrevious m h then []
                else [Invoked (Some h) containers])) /\
            waiting g' = false /\
            (gateOk g -> debounceTimer g' = None /\ maxDebounceTimer g' = None)
      end) /\
  (forall m w t0 gap idle0 n,
      0 < gap ->
      0 <= maxDebounceTime m ->
      maxDebounceTime m < Z.of_nat n * gap ->
      let start := stormStart m w t0 gap n idle0 in
      let deadline := t0 + maxDebounceTime m in
      (forall tr st,
          exec start tr st ->
          (firstRefresh tr = None /\
           (List.length tr <= n)%nat /\
           exists s, st = Live s /\ clock s <= deadline) \/
          (exists t sel, firstRefresh tr = Some (t, sel) /\ t <= deadline)) /\
      (exists tr st, exec start tr st /\ firstRefresh tr <> None) /\
      (debounce m = 10 * gap ->
       gap < maxIdleTime m ->
       t0 < idle0 ->
       (forall tr st,
           exec start tr st ->
           firstRefresh tr = None \/
           (firstRefresh tr = Some (deadline, maxDebounceFired) /\
            exists k post,
              (1 <= k)%nat /\
              tr = stormEvents t0 gap k ++ (deadline, maxDebounceFired) :: post /\
              match gather m w with
              | (Some err, _, _, _) => post = [] /\ st = Ended World (Some err)
              | (None, m', w', _) =>
                  exec (stormRefreshed m' w' t0 gap n k deadline) post st
              end)) /\
       (exists tr st,
           exec start tr st /\
           firstRefresh tr = Some (deadline, maxDebounceFired))) /\
      (0 < maxIdleTime m ->
       maxIdleTime m < gap ->
       maxIdleTime m < debounce m ->
       maxIdleTime m < maxDebounceTime m ->
       t0 < idle0 ->
       (forall tr st,
           exec start tr st ->
           (firstRefresh tr = None \/
            firstRefresh tr = Some (t0 + maxIdleTime m, idleTick)) /\
           forall t, ~ In (t, maxDebounceFired) tr) /\
       (exists st,
           exec start [(t0, recvEvent); (t0 + maxIdleTime m, idleTick)] st))).
Proof.
  split; [|split; [|split]].
  - intros m g now sel w g' m' w' tr. apply loopBody_window.
  - apply loopBody_maxDebounceFired_refreshes.
  - apply loopBody_refreshes.
  - intros m w t0 gap idle0 n H1 H2 H3 start deadline. split; [|split; [|split]].
    + intros tr st. now apply exec_start_bound.
    + now apply exec_start_refreshes.
    + intros H4 H5 H6. split.
      * intros tr st. now apply exec_start_refreshed.
      * destruct (@exec_start_refreshes m w t0 gap idle0 n H1 H2 H3)
          as (tr & st & Hx & F).
        exists tr, st. split; [exact Hx|].
        destruct (@exec_start m w t0 gap idle0 n H1 H2 H3 H4 H5 H6 tr st Hx)
          as [N|S]; [contradiction | exact S].
    + intros I1 I2 I3 I4 I5. now apply storm_hasty.
Qed.

End GateProperties.

(* ================================================================= *)
(** * Further properties of the filters *)

Section MoreFilters.

Lemma All_Forall (filters : list Filter) (c : Container.t) :
  All filters c = true <-> Forall (fun f => f c = true) filters.
Proof.
  induction filters as [|f rest IH]; cbn [All].
  - split; [constructor | reflexivity].
  - destruct (f c) eqn:E; cbn [negb].
    + rewrite IH. split; [now constructor | now inversion 1].
    + split; [discriminate | inversion 1; congruence].
Qed.

Lemma Any_Exists (filters : list Filter) (c : Container.t) :
  Any filters c = true <-> Exists (fun f => f c = true) filters.
Proof.
  induction filters as [|f rest IH]; cbn [Any].
  - split; [discriminate | inversion 1].
  - destruct (f c) eqn:E.
    + split; [now left | reflexivity].
    + rewrite IH. split; [now right | inversion 1; [congruence | assumption]].
Qed.

(** X1: [All] holds of a container exactly when every filter of the list
    does, and [Any] exactly when some filter does; in particular [All] of
    no filter holds and [Any] of no filter does not. *)
Theorem All_Any_meaning (filters : list Filter) (c : Container.t) :
  (All filters c = true <-> Forall (fun f => f c = true) filters) /\
  (Any filters c = true <-> Exists (fun f => f c = true) filters) /\
  All [] c = true /\
  Any [] c = false.
Proof.
  split; [apply All_Forall|]. split; [apply Any_Exists|]. split; reflexivity.
Qed.

(** X2: the filters obey the laws of De Morgan and of double negation, and
    a nested [All] or [Any] can be flattened. *)
Theorem filters_boolean_laws (fs gs : list Filter) (f : Filter)
    (c : Container.t) :
  Not (Not f) c = f c /\
  Not (All fs) c = Any (map Not fs) c /\
  Not (Any fs) c = All (map Not fs) c /\
  All (fs ++ gs) c = All [All fs; All gs] c /\
  Any (fs ++ gs) c = Any [Any fs; Any gs] c.
Proof.
  split; [unfold Not; apply negb_involutive|].
  split; [|split; [|split]].
  - unfold Not. induction fs as [|g rest IH]; cbn [All Any map]; [reflexivity|].
    destruct (g c); cbn [negb]; [exact IH | reflexivity].
  - unfold Not. induction fs as [|g rest IH]; cbn [All Any map]; [reflexivity|].
    destruct (g c); cbn [negb]; [reflexivity | exact IH].
  - cbn [All]. induction fs as [|g rest IH]; cbn [All app negb].
    + destruct (All gs c); reflexivity.
    + destruct (g c); cbn [negb]; [exact IH | reflexivity].
  - cbn [Any]. induction fs as [|g rest IH]; cbn [Any app].
    + destruct (Any gs c); reflexivity.
    + destruct (g c); [reflexivity | exact IH].
Qed.

Lemma assoc_Some_In {V} (k : string) (l : list (string * V)) (v : V) :
  assoc k l = Some v -> In (k, v) l.
Proof.
  induction l as [|[k' v'] l IH]; cbn [assoc]; [discriminate|].
  destruct (String.eqb_spec k k') as [->|].
  - intros [= ->]. now left.
  - intros H. right. now apply IH.
Qed.

Lemma assoc_In_keys {V} (k : string) (l : list (string * V)) :
  In k (map fst l) <-> exists v, assoc k l = Some v.
Proof.
  induction l as [|[k' v'] l IH]; cbn [assoc map In fst].
  - split; [intros [] | intros [v [=]]].
  - destruct (String.eqb_spec k k') as [->|Hne].
    + split; [intros _; now exists v' | intros _; now left].
    + rewrite <- IH. split; [intros [E|H]; [congruence | exact H] | now right].
Qed.

(** X3: [LabelExists key] holds exactly of the containers whose label map
    has the key; and a container of which [LabelEquals key value] holds
    for a value other than the empty string has the key, with that
    value. *)
Theorem LabelExists_meaning (key value : string) (c : Container.t) :
  (LabelExists key c = true <-> In key (keys (Container.Labels c))) /\
  (value <> "" -> LabelEquals key value c = true ->
   LabelExists key c = true /\ In (key, value) (entries (Container.Labels c))).
Proof.
  split.
  - unfold LabelExists, lookup, keys. rewrite assoc_In_keys.
    destruct (assoc key (entries (Container.Labels c))) as [v|].
    + split; [intros _; now exists v | reflexivity].
    + split; [discriminate | intros [v [=]]].
  - unfold LabelEquals, LabelExists, mapIndex, lookup.
    destruct (assoc key (entries (Container.Labels c))) as [v|] eqn:E.
    + intros _ H. apply String.eqb_eq in H. subst v.
      split; [reflexivity | now apply assoc_Some_In].
    + intros Hv H. apply String.eqb_eq in H. congruence.
Qed.

End MoreFilters.

(* ================================================================= *)
(** * Further properties of the hasher *)

Section MoreHasher.

(** *** The hashes are 64-bit values *)

Lemma Write_uint64 (h : Z) (bs : list Z) : uint64 h -> uint64 (fnv.Write h bs).
Proof.
  unfold fnv.Write. revert h.
  induction bs as [|b bs IH]; intros h Hh; cbn [fold_left]; [exact Hh|].
  apply IH. unfold fnv.WriteByte, fnv.wrap64, uint64.
  apply Z.mod_pos_bound. lia.
Qed.

Lemma WriteString_uint64 (h : Z) (s : string) :
  uint64 h -> uint64 (WriteString h s).
Proof. apply Write_uint64. Qed.

Lemma New64a_uint64 : uint64 fnv.New64a.
Proof. unfold uint64, fnv.New64a, fnv.offset64. lia. Qed.

Lemma lxor_uint64 (a b : Z) : uint64 a -> uint64 b -> uint64 (Z.lxor a b).
Proof.
  unfold uint64. intros [Ha Ha'] [Hb Hb'].
  assert (H0 : 0 <= Z.lxor a b) by (apply Z.lxor_nonneg; tauto).
  split; [exact H0|].
  destruct (Z.eq_dec (Z.lxor a b) 0) as [->|Hne]; [lia|].
  apply Z.log2_lt_pow2; [lia|].
  pose proof (Z.log2_lxor a b Ha Hb) as Hl.
  assert (La : Z.log2 a < 64).
  { destruct (Z.eq_dec a 0) as [->|]; [cbn; lia|].
    apply Z.log2_lt_pow2; lia. }
  assert (Lb : Z.log2 b < 64).
  { destruct (Z.eq_dec b 0) as [->|]; [cbn; lia|].
    apply Z.log2_lt_pow2; lia. }
  lia.
Qed.

Lemma xorFold_uint64 {A} (f : A -> Z) (l : list A) :
  (forall x, uint64 (f x)) -> uint64 (xorFold f l).
Proof.
  intros Hf. unfold xorFold.
  assert (H : forall a, uint64 a ->
                uint64 (fold_left (fun acc x => Z.lxor acc (f x)) l a)).
  { induction l as [|x l IH]; intros a Ha; cbn [fold_left]; [exact Ha|].
    apply IH. now apply lxor_uint64. }
  apply H. unfold uint64. lia.
Qed.

Lemma Port_hash_uint64 (p : Port.t) : uint64 (Port.hash p).
Proof.
  unfold Port.hash, fnv.Sum64, WriteUint16.
  repeat first [apply WriteString_uint64 | apply Write_uint64].
  apply New64a_uint64.
Qed.

Lemma Network_hash_uint64 (n : Network.t) : uint64 (Network.hash n).
Proof.
  unfold Network.hash, fnv.Sum64.
  destruct (0 <? len (Network.Aliases n)).
  - generalize (sortStrings (elems (Network.Aliases n))). intros l.
    assert (H : forall h, uint64 h -> uint64 (fold_left WriteString l h)).
    { induction l as [|x l IH]; intros h Hh; cbn [fold_left]; [exact Hh|].
      apply IH. now apply WriteString_uint64. }
    apply H. repeat apply WriteString_uint64. apply New64a_uint64.
  - repeat apply WriteString_uint64. apply New64a_uint64.
Qed.

Lemma Container_hash_uint64 (c : Container.t) : uint64 (Container.hash c).
Proof.
  unfold Container.hash, fnv.Sum64, WriteUint64.
  do 2 apply Write_uint64.
  destruct (0 <? maplen (Container.Labels c)).
  - generalize (sortStrings (keys (Container.Labels c))). intros l.
    assert (H : forall h, uint64 h ->
                  uint64 (fold_left (Container.writeLabel (Container.Labels c)) l h)).
    { induction l as [|x l IH]; intros h Hh; cbn [fold_left]; [exact Hh|].
      apply IH. unfold Container.writeLabel. now repeat apply WriteString_uint64. }
    apply H. repeat apply WriteString_uint64. apply New64a_uint64.
  - repeat apply WriteString_uint64. apply New64a_uint64.
Qed.

(** X4: every hash is a 64-bit value: the hash of a port, of a network, of
    a container and of a list of containers lies in [0, 2^64). *)
Theorem hashes_are_uint64 :
  (forall p, 0 <= Port.hash p < 2 ^ 64) /\
  (forall n, 0 <= Network.hash n < 2 ^ 64) /\
  (forall c, 0 <= Container.hash c < 2 ^ 64) /\
  (forall l, 0 <= computeHash l < 2 ^ 64).
Proof.
  split; [exact Port_hash_uint64|]. split; [exact Network_hash_uint64|].
  split; [exact Container_hash_uint64|].
  intros l. apply xorFold_uint64. exact Container_hash_uint64.
Qed.

(** *** The hash of a list, one container at a time *)

Lemma lxor_cancel_l (a b : Z) : Z.lxor a b = b <-> a = 0.
Proof.
  split.
  - intros H. apply (f_equal (fun x => Z.lxor x b)) in H.
    rewrite Z.lxor_assoc, Z.lxor_nilpotent, Z.lxor_0_r in H. exact H.
  - intros ->. apply Z.lxor_0_l.
Qed.

(** X5: the hash of a concatenation is the xor of the hashes; so putting a
    container in front of a list changes the hash of the list exactly when
    the hash of the container is not zero, and the hash of the list without
    the container is recovered by one more xor. *)
Theorem computeHash_incremental (l l' : list Container.t) (c : Container.t) :
  computeHash (l ++ l') = Z.lxor (computeHash l) (computeHash l') /\
  computeHash (c :: l) = Z.lxor (Container.hash c) (computeHash l) /\
  computeHash l = Z.lxor (Container.hash c) (computeHash (c :: l)) /\
  (computeHash (c :: l) = computeHash l <-> Container.hash c = 0).
Proof.
  unfold computeHash.
  split; [apply xorFold_app|]. split; [apply xorFold_cons|]. split.
  - rewrite xorFold_cons, <- Z.lxor_assoc, Z.lxor_nilpotent. now rewrite Z.lxor_0_l.
  - rewrite xorFold_cons. apply lxor_cancel_l.
Qed.

(** *** Fields are written one after the other *)

Lemma bytes_append (a b : string) : bytes (a ++ b)%string = bytes a ++ bytes b.
Proof.
  unfold bytes. rewrite <- map_app. f_equal.
  induction a as [|x a IH]; cbn; [reflexivity | now rewrite IH].
Qed.

Lemma WriteString_append (h : Z) (a b : string) :
  WriteString (WriteString h a) b = WriteString h (a ++ b)%string.
Proof.
  unfold WriteString, fnv.Write. now rewrite bytes_append, fold_left_app.
Qed.

(** X6: the hash of a container reads its identity, name, image and state
    as one run of bytes, and the hash of a network its name, identity,
    addresses and gateway: two containers, or two networks, whose fields
    differ only in where one field ends and the next begins hash alike. *)
Theorem hash_runs_fields_together :
  (forall c c',
      (Container.ID c ++ Container.Name c ++ Container.Image c ++ Container.State c)%string =
      (Container.ID c' ++ Container.Name c' ++ Container.Image c' ++ Container.State c')%string ->
      Container.Labels c = Container.Labels c' ->
      Container.Networks c = Container.Networks c' ->
      Container.Ports c = Container.Ports c' ->
      Container.hash c = Container.hash c') /\
  (forall n n',
      (Network.Name n ++ Network.ID n ++ Network.IPAddress n ++
       Network.IP6Address n ++ Network.Gateway n)%string =
      (Network.Name n' ++ Network.ID n' ++ Network.IPAddress n' ++
       Network.IP6Address n' ++ Network.Gateway n')%string ->
      Network.Aliases n = Network.Aliases n' ->
      Network.hash n = Network.hash n').
Proof.
  split.
  - intros c c' E EL EN EP. unfold Container.hash.
    rewrite !WriteString_append, E, EL, EN, EP. reflexivity.
  - intros n n' E EA. unfold Network.hash.
    rewrite !WriteString_append, E, EA. reflexivity.
Qed.

End MoreHasher.

(* ================================================================= *)
(** * Properties of the conversion *)

Section Conversion.

Lemma fold_append_elems {A B} (f : A -> B) (l : list A) (acc : slice B) :
  elems (fold_left (fun acc x => append acc (f x)) l acc) =
  elems acc ++ map f l.
Proof.
  revert acc. induction l as [|x l IH]; intros acc; cbn [fold_left map].
  - now rewrite app_nil_r.
  - rewrite IH. cbn [append elems]. now rewrite <- app_assoc.
Qed.

Lemma fold_append_nil {A B} (f : A -> B) (l : list A) :
  fold_left (fun acc x => append acc (f x)) l nilSlice = nilSlice <-> l = [].
Proof.
  split.
  - intros H. apply (f_equal (@elems B)) in H.
    rewrite fold_append_elems in H. cbn [elems app] in H.
    destruct l; [reflexivity | discriminate].
  - intros ->. reflexivity.
Qed.

(** X7: a container gets one network for each entry of the network map of
    the inspection, in the order in which the map is visited, named by the
    key of the entry; its name is the name of the inspection without one
    leading slash; without network settings its networks and ports are
    [nil]. *)
Theorem convertContainer_networks (inspect : docker.InspectResponse) :
  let c := convertContainer inspect in
  Container.ID c = docker.inspectID inspect /\
  Container.Name c = trimSlash (docker.Name inspect) /\
  Container.Labels c = docker.ConfigLabels inspect /\
  match docker.Settings inspect with
  | None => Container.Networks c = nilSlice /\ Container.Ports c = nilSlice
  | Some ns =>
      elems (Container.Networks c) = map convertNetwork (entries (docker.Networks ns)) /\
      map Network.Name (elems (Container.Networks c)) = keys (docker.Networks ns) /\
      (Container.Networks c = nilSlice <-> entries (docker.Networks ns) = [])
  end.
Proof.
  cbn zeta. unfold convertContainer.
  cbn [Container.ID Container.Name Container.Labels Container.Networks
       Container.Ports].
  repeat (split; [reflexivity|]).
  destruct (docker.Settings inspect) as [ns|]; [|split; reflexivity].
  split; [|split].
  - now rewrite fold_append_elems.
  - rewrite fold_append_elems. cbn [elems app]. unfold keys.
    rewrite map_map. apply map_ext. intros [k v]. reflexivity.
  - apply fold_append_nil.
Qed.

(** *** Ports *)

Lemma parseDigits_nonneg (s : string) (acc v : Z) :
  parseDigits acc s = Some v -> 0 <= acc -> 0 <= v.
Proof.
  revert acc. induction s as [|a s IH]; intros acc; cbn [parseDigits].
  - intros [= <-]. auto.
  - destruct ((0 <=? Z.of_N (N_of_ascii a) - 48) &&
              (Z.of_N (N_of_ascii a) - 48 <=? 9)) eqn:E; [|discriminate].
    apply andb_prop in E. destruct E as [E1 E2].
    apply Z.leb_le in E1. intros H Hacc. eapply IH; [exact H | lia].
Qed.

Lemma ParseUint16_range (s : string) (v : Z) :
  ParseUint16 s = Some v -> 0 <= v <= 65535 /\ s <> "".
Proof.
  unfold ParseUint16. destruct s as [|a s]; [discriminate|].
  destruct (parseDigits 0 (String a s)) as [v'|] eqn:E; [|discriminate].
  destruct (Z.leb_spec v' 65535); [|discriminate].
  intros [= <-]. split; [|discriminate].
  split; [|assumption]. eapply parseDigits_nonneg; [exact E | lia].
Qed.

Lemma convertBinding_range (containerPort : Z) (proto : string)
    (bindings : list docker.PortBinding) (ports : slice Port.t) :
  0 <= containerPort <= 65535 ->
  Forall portInRange (elems ports) ->
  Forall portInRange
    (elems (fold_left (convertBinding containerPort proto) bindings ports)) /\
  (List.length (elems (fold_left (convertBinding containerPort proto) bindings ports))
   <= List.length (elems ports) + List.length bindings)%nat.
Proof.
  intros Hc. revert ports.
  induction bindings as [|b bs IH]; intros ports Hp; cbn [fold_left].
  - split; [exact Hp | cbn; lia].
  - unfold convertBinding at 2 4.
    destruct (ParseUint16 (docker.HostPort b)) as [hp|] eqn:E.
    + destruct (IH (append ports (Port.mk (docker.HostIP b) hp containerPort proto)))
        as [H1 H2].
      { cbn [append elems]. apply Forall_app. split; [exact Hp|].
        constructor; [|constructor].
        apply ParseUint16_range in E. split; cbn; lia. }
      split; [exact H1|].
      cbn [append elems] in H2. rewrite length_app in H2. cbn in *. lia.
    + destruct (IH ports Hp) as [H1 H2]. split; [exact H1 | cbn; lia].
Qed.

Lemma convertPort_range (l : list (string * slice docker.PortBinding))
    (ports : slice Port.t) :
  Forall portInRange (elems ports) ->
  Forall portInRange (elems (fold_left convertPort l ports)) /\
  (List.length (elems (fold_left convertPort l ports))
   <= List.length (elems ports) +
      List.length (flat_map (fun pb => elems (snd pb)) l))%nat.
Proof.
  revert ports. induction l as [|[portProto bindings] l IH]; intros ports Hp;
    cbn [fold_left flat_map snd].
  - split; [exact Hp | cbn; lia].
  - rewrite length_app.
    assert (Hskip :
      Forall portInRange (elems (fold_left convertPort l ports)) /\
      (List.length (elems (fold_left convertPort l ports))
       <= List.length (elems ports) +
          (List.length (elems bindings) +
           List.length (flat_map (fun pb => elems (snd pb)) l)))%nat).
    { destruct (IH ports Hp) as [H1 H2]. split; [exact H1 | lia]. }
    unfold convertPort at 2 4.
    destruct (splitSlash portProto) as [|p0 [|p1 [|p2 rest]]]; try exact Hskip.
    destruct (ParseUint16 p0) as [cp|] eqn:E; [|exact Hskip].
    apply ParseUint16_range in E. destruct E as [E _].
    destruct (@convertBinding_range cp p1 (elems bindings) ports E Hp) as [B1 B2].
    destruct (IH _ B1) as [H1 H2]. split; [exact H1 | lia].
Qed.

(** X8: every port of a converted container has its host port and its
    container port between 0 and 65535, and the container has at most as
    many ports as the inspection has bindings. *)
Theorem convertContainer_ports_in_range (inspect : docker.InspectResponse) :
  let ports := elems (Container.Ports (convertContainer inspect)) in
  Forall (fun p => 0 <= Port.HostPort p <= 65535 /\
                   0 <= Port.ContainerPort p <= 65535) ports /\
  (List.length ports <=
   match docker.Settings inspect with
   | None => 0
   | Some ns => List.length (flat_map (fun pb => elems (snd pb))
                                      (entries (docker.Ports ns)))
   end)%nat.
Proof.
  cbn zeta. unfold convertContainer. cbn [Container.Ports].
  destruct (docker.Settings inspect) as [ns|].
  - destruct (@convertPort_range (entries (docker.Ports ns)) nilSlice) as [H1 H2];
      [constructor|].
    split; [exact H1 | exact H2].
  - split; [constructor | cbn; lia].
Qed.

End Conversion.

(* ================================================================= *)
(** * Further properties of the pull *)

Section MorePulls.

Context {World : Type}.

Implicit Types (m : monitor World) (w : World).

Lemma inspectOne_fold_nil m (summaries : list docker.Summary)
    (acc : slice Container.t) w :
  (elems acc = [] -> acc = nilSlice) ->
  let acc' := fst (fold_left (inspectOne m) summaries (acc, w)) in
  elems acc' = [] -> acc' = nilSlice.
Proof.
  revert acc w. induction summaries as [|summary rest IH]; intros acc w Hacc;
    cbn [fold_left fst]; [exact Hacc|].
  unfold inspectOne at 2 4.
  destruct (ContainerInspect (client m) (docker.ID summary) w) as [[err|inspect] w1].
  - now apply IH.
  - destruct (passes m (convertContainer inspect)).
    + apply IH. cbn [append elems]. intros H.
      apply app_eq_nil in H. destruct H as [_ H]. discriminate.
    + now apply IH.
Qed.

Lemma inspectAll_length (c : DockerClient World) (l : list docker.Summary)
    w rs w' :
  inspectAll c l w = (rs, w') ->
  (List.length (inspected rs) <= List.length l)%nat.
Proof.
  revert w rs w'. induction l as [|s l IH]; intros w rs w'; cbn [inspectAll].
  - intros [= <- <-]. cbn; lia.
  - destruct (ContainerInspect c (docker.ID s) w) as [r w1].
    destruct (inspectAll c l w1) as [rs1 w2] eqn:E.
    intros [= <- <-]. specialize (IH _ _ _ E).
    destruct r; cbn [inspected flat_map List.length app] in *;
      fold (inspected rs1); lia.
Qed.

(** X9: a pull that succeeds returns only containers that the filter
    accepts, at most one for each identity listed, and [nil] rather than an
    empty slice when it has none to return. *)
Theorem gatherContainers_result m w containers w' :
  gatherContainers m w = (inr containers, w') ->
  Forall (fun c => passes m c = true) (elems containers) /\
  (exists summaries w1,
      ContainerList (client m) w = (inr summaries, w1) /\
      (List.length (elems containers) <= List.length summaries)%nat) /\
  (elems containers = [] -> containers = nilSlice).
Proof.
  unfold gatherContainers.
  destruct (ContainerList (client m) w) as [[err|summaries] w1] eqn:EL;
    [discriminate|].
  pose proof (inspectOne_fold m summaries nilSlice w1) as H.
  pose proof (@inspectOne_fold_nil m summaries nilSlice w1 (fun _ => eq_refl)) as N.
  cbn zeta in N.
  destruct (inspectAll (client m) summaries w1) as [rs w2] eqn:EA.
  destruct H as (acc' & E1 & E2). rewrite E1 in *. cbn [fst] in N.
  intros [= <- <-]. split; [|split].
  - rewrite E2. cbn [elems app]. apply Forall_forall.
    intros c Hc. now apply filter_In in Hc.
  - exists summaries, w1. split; [reflexivity|].
    rewrite E2. cbn [elems app].
    eapply Nat.le_trans; [apply filter_length_le|].
    rewrite length_map.
    exact (inspectAll_length _ _ _ EA).
  - exact N.
Qed.

End MorePulls.

(* ================================================================= *)
(** * Properties of the port keys *)

Section PortKeys.

Lemma splitSlash_nonempty (s : string) : splitSlash s <> [].
Proof.
  induction s as [|a s IH]; cbn [splitSlash]; [discriminate|].
  destruct (Ascii.eqb a "/"); [discriminate|].
  destruct (splitSlash s); [contradiction | discriminate].
Qed.

Lemma splitSlash_length (s : string) :
  List.length (splitSlash s) = S (slashes s).
Proof.
  induction s as [|a s IH]; cbn [splitSlash slashes]; [reflexivity|].
  destruct (Ascii.eqb a "/"); [cbn [List.length]; now rewrite IH|].
  pose proof (splitSlash_nonempty s) as N.
  destruct (splitSlash s) as [|x xs]; [contradiction | exact IH].
Qed.

Lemma splitSlash_concat (s : string) : String.concat "/" (splitSlash s) = s.
Proof.
  induction s as [|a s IH]; cbn [splitSlash]; [reflexivity|].
  pose proof (splitSlash_nonempty s) as N.
  destruct (Ascii.eqb_spec a "/"%char) as [->|Hne].
  - destruct (splitSlash s) as [|x xs]; [contradiction|].
    change (String.concat "/" ("" :: x :: xs))
      with (String "/" (String.concat "/" (x :: xs))).
    now rewrite IH.
  - destruct (splitSlash s) as [|x xs]; [contradiction|].
    destruct xs as [|y ys].
    + cbn [String.concat] in *. now rewrite IH.
    + change (String.concat "/" (String a x :: y :: ys))
        with (String a (String.concat "/" (x :: y :: ys))).
      now rewrite IH.
Qed.

(** X21: a key of the port map is split at its slashes, and joining the
    parts with slashes gives the key back; a key that does not have exactly
    one slash, or whose part before the slash is not a decimal number up to
    65535, contributes no port, whatever its bindings. *)
Theorem convertPort_skips_malformed_keys :
  (forall s, String.concat "/" (splitSlash s) = s /\
             List.length (splitSlash s) = S (slashes s)) /\
  (forall ports key bindings,
      slashes key <> 1%nat -> convertPort ports (key, bindings) = ports) /\
  (forall ports key bindings,
      ParseUint16 (hd "" (splitSlash key)) = None ->
      convertPort ports (key, bindings) = ports).
Proof.
  split; [|split].
  - intros s. split; [apply splitSlash_concat | apply splitSlash_length].
  - intros ports key bindings H. unfold convertPort.
    pose proof (splitSlash_length key) as L.
    destruct (splitSlash key) as [|p0 [|p1 [|p2 rest]]]; try reflexivity.
    cbn [List.length] in L. congruence.
  - intros ports key bindings H. unfold convertPort.
    destruct (splitSlash key) as [|p0 [|p1 [|p2 rest]]]; try reflexivity.
    cbn [hd] in H. now rewrite H.
Qed.

End PortKeys.

(* ================================================================= *)
(** * Further properties of the sessions *)

Section MoreSessions.

Context {World : Type}.

Implicit Types (m : monitor World) (w : World) (g : gate).

Lemma loopBody_gateOk m g now sel w g' m' w' tr :
  gateOk g ->
  loopBody m g now sel w = (Continue g', m', w', tr) ->
  gateOk g'.
Proof.
  unfold gateOk, loopBody. intros Hg.
  destruct sel as [err|[err|]| | | |]; try discriminate.
  - destruct (waiting g); intros [= <- <- <- <-]; cbn;
      split; try discriminate; tauto.
  - destruct (gather m w) as [[[[err|] m1] w1] tr1]; [discriminate|].
    intros [= <- <- <- <-]. cbn. auto.
  - destruct (gather m w) as [[[[err|] m1] w1] tr1]; [discriminate|].
    intros [= <- <- <- <-]. cbn. auto.
  - destruct (gather m w) as [[[[err|] m1] w1] tr1]; [discriminate|].
    destruct (waiting g) eqn:Wg; intros [= <- <- <- <-]; cbn; auto.
Qed.

Lemma exec_gateOk (s : session World) (tr : list (Z * selected))
    (st : status World) :
  exec s tr st ->
  gateOk (timers s) ->
  forall s', st = Live s' -> gateOk (timers s').
Proof.
  induction 1 as [s|s t sel err He Hf|s t sel s1 tr st He Hf Hx IH];
    intros Hg s' E.
  - now injection E as <-.
  - discriminate.
  - apply IH; [|exact E]. unfold fire in Hf.
    destruct (loopBody (mon s) (timers s) t sel (world s))
      as [[[[err|g'] m'] w'] tr'] eqn:L; [discriminate|].
    cbn [fst] in Hf. injection Hf as <-. cbn [timers].
    eapply loopBody_gateOk; eassumption.
Qed.

(** X10: the gate that [runOnce] creates starts with both timers stopped
    and not waiting, and whatever case the loop takes next, the two timers
    are armed exactly while the gate is waiting; this holds along every run
    of a session. *)
Theorem gate_timers_follow_waiting :
  (forall m start g, newGate m start = Some g -> gateOk g) /\
  (forall m g now sel w g' m' w' tr,
      gateOk g ->
      loopBody m g now sel w = (Continue g', m', w', tr) ->
      gateOk g') /\
  (forall (s : session World) tr s',
      gateOk (timers s) -> exec s tr (Live s') -> gateOk (timers s')).
Proof.
  split; [|split].
  - intros m start g N. apply newGate_Some in N. destruct N as [_ ->].
    unfold gateOk. cbn. auto.
  - intros m g now sel w g' m' w' tr. apply loopBody_gateOk.
  - intros s tr s' Hg Hx. eapply exec_gateOk; eauto.
Qed.

(** X11: events alone never make the session pull, call the callback or
    end: over a script of events only, the loop leaves the monitor and the
    daemon as they are and is still waiting at the end. *)
Theorem events_alone_do_nothing m g (s : list (Z * selected)) w :
  Forall (fun x => snd x = recvEvent) s ->
  eventLoop m g s w = (None, m, w, []).
Proof.
  revert g. induction s as [|[now sel] rest IH]; intros g H;
    cbn [eventLoop]; [reflexivity|].
  inversion H as [|? ? Hsel Hrest]; subst. cbn [snd] in Hsel. subst sel.
  unfold loopBody. destruct (waiting g); rewrite (IH _ Hrest); reflexivity.
Qed.

(** *** Deliveries and triggers *)

Lemma deliveries_app (tr tr' : list action) :
  deliveries (tr ++ tr') = deliveries tr ++ deliveries tr'.
Proof. unfold deliveries. apply flat_map_app. Qed.

Lemma gather_deliveries m w :
  let '(_, _, _, tr) := gather m w in (List.length (deliveries tr) <= 1)%nat.
Proof.
  unfold gather.
  destruct (gatherContainers m w) as [[err|containers] w1]; [cbn; lia|].
  destruct (sameAsPrevious m (computeHash (elems containers))); cbn; lia.
Qed.

Lemma loopBody_deliveries m g now sel w :
  let '(_, _, _, tr) := loopBody m g now sel w in
  (List.length (deliveries tr) <= if refreshes sel then 1 else 0)%nat.
Proof.
  pose proof (gather_deliveries m w) as H.
  unfold loopBody.
  destruct sel as [err|[err|]| | | |]; cbn [refreshes];
    try (cbn; lia); try (destruct (waiting g); cbn; lia);
    destruct (gather m w) as [[[[err|] m'] w'] tr]; auto;
    destruct (waiting g); auto.
Qed.

Lemma eventLoop_deliveries m g (s : list (Z * selected)) w :
  let '(_, _, _, tr) := eventLoop m g s w in
  (List.length (deliveries tr) <= triggers s)%nat.
Proof.
  revert m g w. induction s as [|[now sel] rest IH]; intros m g w;
    cbn [eventLoop]; [cbn; lia|].
  pose proof (loopBody_deliveries m g now sel w) as H.
  unfold triggers in *. cbn [List.filter snd].
  destruct (loopBody m g now sel w) as [[[[err|g'] m'] w'] tr].
  - destruct (refreshes sel); cbn [List.length]; lia.
  - specialize (IH m' g' w').
    destruct (eventLoop m' g' rest w') as [[[r m''] w''] tr'].
    rewrite deliveries_app, length_app.
    destruct (refreshes sel); cbn [List.length]; lia.
Qed.

(** X12: a session calls the callback at most once at its start and at
    most once for each firing of a timer or of the ticker: the deliveries
    of a session are no more than one plus the refresh triggers of its
    script. *)
Theorem deliveries_bounded_by_triggers m start (s : list (Z * selected)) w :
  let '(_, _, _, tr) := runOnce m start s w in
  (List.length (deliveries tr) <= 1 + triggers s)%nat.
Proof.
  unfold runOnce.
  pose proof (gather_deliveries m w) as H.
  destruct (gather m w) as [[[[err|] m'] w'] tr].
  - cbn [deliveries flat_map app]. fold (deliveries tr). lia.
  - destruct (newGate m' start) as [g|].
    + pose proof (eventLoop_deliveries m' g s w') as H'.
      destruct (eventLoop m' g s w') as [[[r m''] w''] tr'].
      cbn [deliveries flat_map app]. fold (deliveries (tr ++ tr')).
      rewrite deliveries_app, length_app. lia.
    + cbn [deliveries flat_map app].
      fold (deliveries (tr ++ [Panicked "non-positive interval for NewTicker"])).
      rewrite deliveries_app, length_app.
      change (deliveries [Panicked "non-positive interval for NewTicker"])
        with (@nil (slice Container.t)).
      cbn [List.length]. lia.
Qed.

(** *** How a session ends *)

Lemma gather_error m w err m' w' tr :
  gather m w = (Some err, m', w', tr) ->
  exists e, err = wrapError "failed to refresh containers: " e /\
            m' = m /\ tr = [].
Proof.
  unfold gather.
  destruct (gatherContainers m w) as [[e|containers] w1].
  - intros [= <- <- <- <-]. now exists e.
  - destruct (sameAsPrevious m (computeHash (elems containers))); discriminate.
Qed.

Lemma endsLike_cons (x : Z * selected) (s : list (Z * selected)) r :
  endsLike s r -> endsLike (x :: s) r.
Proof.
  intros [H|[(now & e & H & E)|[(now & e & H & E)|(now & H & E)]]].
  - now left.
  - right; left. exists now, e. split; [now right | exact E].
  - right; right; left. exists now, e. split; [now right | exact E].
  - right; right; right. exists now. split; [now right | exact E].
Qed.

Lemma eventLoop_ends m g (s : list (Z * selected)) w r m' w' tr :
  eventLoop m g s w = (Some r, m', w', tr) -> endsLike s r.
Proof.
  revert m g w tr. induction s as [|[now sel] rest IH]; intros m g w tr;
    cbn [eventLoop]; [discriminate|].
  destruct (loopBody m g now sel w) as [[[[err|g'] m1] w1] tr1] eqn:L.
  - intros [= <- <- <- <-]. unfold loopBody in L.
    destruct sel as [e|[e|]| | | |].
    + injection L as <- _ _ _. right; left. exists now, e. split; [now left | reflexivity].
    + injection L as <- _ _ _. right; right; left. exists now, e.
      split; [now left | reflexivity].
    + injection L as <- _ _ _. right; right; right. exists now.
      split; [now left | reflexivity].
    + destruct (waiting g); discriminate.
    + destruct (gather m w) as [[[[e|] m2] w2] tr2] eqn:G; [|discriminate].
      injection L as <- _ _ _. left.
      destruct (gather_error _ _ G) as (e' & -> & _). now exists e'.
    + destruct (gather m w) as [[[[e|] m2] w2] tr2] eqn:G; [|discriminate].
      injection L as <- _ _ _. left.
      destruct (gather_error _ _ G) as (e' & -> & _). now exists e'.
    + destruct (gather m w) as [[[[e|] m2] w2] tr2] eqn:G;
        [|destruct (waiting g); discriminate].
      injection L as <- _ _ _. left.
      destruct (gather_error _ _ G) as (e' & -> & _). now exists e'.
  - destruct (eventLoop m1 g' rest w1) as [[[r' m2] w2] tr2] eqn:E.
    intros [= -> <- <- <-]. apply endsLike_cons. eapply IH. exact E.
Qed.

(** X13: a session that returns does so in one of four ways: with the
    error of a pull, wrapped; with the error of the context, as it is, after
    the context is done; with the error of the event stream, wrapped; or
    with no error, and that only after the error channel has delivered
    [nil]. *)
Theorem session_ends m start (s : list (Z * selected)) w r m' w' tr :
  runOnce m start s w = (Some r, m', w', tr) ->
  (exists e, r = Some (wrapError "failed to refresh containers: " e)) \/
  (exists now e, In (now, ctxDone e) s /\ r = Some e) \/
  (exists now e, In (now, recvErr (Some e)) s /\
                 r = Some (wrapError "failed to stream events: " e)) \/
  (exists now, In (now, recvErr None) s /\ r = None).
Proof.
  unfold runOnce.
  destruct (gather m w) as [[[[err|] m1] w1] tr1] eqn:G.
  - intros [= <- <- <- <-]. left.
    destruct (gather_error _ _ G) as (e' & -> & _). now exists e'.
  - destruct (newGate m1 start) as [g|]; [|discriminate].
    destruct (eventLoop m1 g s w1) as [[[r' m2] w2] tr2] eqn:E.
    intros [= -> <- <- <-]. exact (eventLoop_ends _ _ _ _ E).
Qed.

End MoreSessions.

(* ================================================================= *)
(** * Further properties of the retry loop *)

Section MoreRetries.

Context {World : Type}.

Implicit Types (m : monitor World) (w : World) (rc : reconnectConfig).

(** X14: over a whole run, reconnections included, every delivery is made
    with the cursor at the hash of the delivered set, and that hash differs
    from the hash of the delivery before it; [Run] starts with the cursor
    unset. *)
Theorem run_deliveries_are_fresh :
  (forall m (envs : list attemptEnv) w,
      let '(_, m', _, tr) := run m envs w in
      fresh (previousHash m) tr /\
      previousHash m' = cursorAfter (previousHash m) tr) /\
  (forall nd opts (envs : list attemptEnv) w,
      let '(_, _, tr) := Run (World := World) nd opts envs w in
      fresh None tr).
Proof.
  assert (R : forall m (envs : list attemptEnv) w,
             let '(_, m', _, tr) := run m envs w in
             fresh (previousHash m) tr /\
             previousHash m' = cursorAfter (previousHash m) tr).
  { intros m envs w. unfold run. destruct (reconnect m) as [rc|].
    - apply retryLoop_trace.
    - destruct envs as [|env rest]; [cbn; auto|]. apply runOnce_trace. }
  split; [exact R|].
  intros nd opts envs w. unfold Run.
  destruct (match cfgClient (applyOptions opts) with
            | Some c => inr c
            | None => nd
            end) as [err|c]; [exact I|].
  specialize (R (newMonitor (applyOptions opts) c) envs w).
  destruct (run (newMonitor (applyOptions opts) c) envs w) as [[[r m'] w'] tr].
  exact (proj1 R).
Qed.

(** *** Attempts and sleeps *)

Lemma retryLoop_counts rc m attempt delay (envs : list attemptEnv) w :
  let '(r, _, _, tr) := retryLoop rc m attempt delay envs w in
  (List.length (sleeps tr) <= attempts tr <= S (List.length (sleeps tr)))%nat /\
  (r <> None -> attempts tr = S (List.length (sleeps tr))).
Proof.
  revert m attempt delay w.
  induction envs as [|env rest IH]; intros m attempt delay w;
    cbn [retryLoop]; [cbn; split; [lia | congruence]|].
  pose proof (runOnce_quiet m (startTime env) (script env) w) as H.
  destruct (runOnce m (startTime env) (script env) w) as [[[[err|] m1] w1] tr];
    destruct H as [H1 H2]; [|rewrite H1, H2; cbn; split; [lia | reflexivity]].
  destruct (ctxErr env); [rewrite H1, H2; cbn; split; [lia | reflexivity]|].
  match goal with
  | |- context [if ?b then _ else _] => destruct b
  end; [rewrite H1, H2; cbn; split; [lia | reflexivity]|].
  destruct (cancelled env); [rewrite H1, H2; cbn; split; [lia | reflexivity]|].
  match goal with
  | |- context [retryLoop rc m1 ?a ?d rest w1] =>
      specialize (IH m1 a d w1);
      destruct (retryLoop rc m1 a d rest w1) as [[[r m2] w2] tr']
  end.
  destruct IH as [I1 I2].
  match goal with
  | |- context [Slept ?d :: tr'] =>
      change (Slept d :: tr') with ([Slept d] ++ tr')
  end.
  rewrite !attempts_app, !sleeps_app, !length_app, H1, H2.
  cbn [attempts sleeps flat_map List.filter List.length app Nat.add].
  split; [lia|]. intros Hr. specialize (I2 Hr). lia.
Qed.

(** X15: the run sleeps only between two attempts: it has made as many
    attempts as sleeps, or one more, and one more whenever it has returned
    or a session is still running; without reconnection it makes at most
    one attempt and never sleeps. *)
Theorem attempts_and_sleeps :
  (forall rc m (envs : list attemptEnv) w,
      let '(r, _, _, tr) := runWithRetry rc m envs w in
      (List.length (sleeps tr) <= attempts tr <= S (List.length (sleeps tr)))%nat /\
      (r <> None -> attempts tr = S (List.length (sleeps tr)))) /\
  (forall m (envs : list attemptEnv) w,
      reconnect m = None ->
      let '(_, _, _, tr) := run m envs w in
      (attempts tr <= 1)%nat /\ sleeps tr = []).
Proof.
  split.
  - intros rc m envs w. apply retryLoop_counts.
  - intros m envs w Hr. unfold run. rewrite Hr.
    destruct envs as [|env rest]; [cbn; split; [lia | reflexivity]|].
    pose proof (runOnce_quiet m (startTime env) (script env) w) as H.
    destruct (runOnce m (startTime env) (script env) w) as [[[r m1] w1] tr].
    destruct H as [H1 H2]. rewrite H1, H2. split; [lia | reflexivity].
Qed.

Lemma retryLoop_attempts_bound rc m attempt delay (envs : list attemptEnv) w :
  0 < MaxRetries rc < 2 ^ 63 - 1 ->
  0 <= attempt <= MaxRetries rc ->
  Forall (fun env => elapsed env < Minute) envs ->
  let '(_, _, _, tr) := retryLoop rc m attempt delay envs w in
  Z.of_nat (attempts tr) <= MaxRetries rc + 1 - attempt.
Proof.
  intros Hmax. revert m attempt delay w.
  induction envs as [|env rest IH]; intros m attempt delay w Ha Hshort;
    cbn [retryLoop]; [cbn; lia|].
  inversion Hshort as [|? ? He Hrest]; subst.
  pose proof (runOnce_quiet m (startTime env) (script env) w) as H.
  destruct (runOnce m (startTime env) (script env) w) as [[[[err|] m1] w1] tr];
    destruct H as [H1 H2]; [|rewrite H1; cbn; lia].
  destruct (ctxErr env); [rewrite H1; cbn; lia|].
  replace (Minute <=? elapsed env) with false by (symmetry; apply Z.leb_gt; lia).
  rewrite wrapInt64_small by lia.
  destruct (Z.ltb_spec (MaxRetries rc) (attempt + 1)) as [Hgt|Hle].
  - replace (0 <? MaxRetries rc) with true by (symmetry; apply Z.ltb_lt; lia).
    cbn [andb]. rewrite H1. cbn; lia.
  - rewrite andb_false_r.
    destruct (cancelled env); [rewrite H1; cbn; lia|].
    specialize (IH m1 (attempt + 1) (nextDelay rc delay) w1 ltac:(lia) Hrest).
    destruct (retryLoop rc m1 (attempt + 1) (nextDelay rc delay) rest w1)
      as [[[r m2] w2] tr'].
    change (Slept delay :: tr') with ([Slept delay] ++ tr').
    rewrite !attempts_app, H1.
    cbn [attempts List.filter List.length Nat.add]. lia.
Qed.

(** X16: with a bound on the retries, while no session lasts the minute,
    the run makes at most one attempt more than the bound, whatever the
    sessions do. *)
Theorem attempts_bounded rc m (envs : list attemptEnv) w :
  0 < MaxRetries rc < 2 ^ 63 - 1 ->
  Forall (fun env => elapsed env < Minute) envs ->
  let '(_, _, _, tr) := runWithRetry rc m envs w in
  Z.of_nat (attempts tr) <= MaxRetries rc + 1.
Proof.
  intros Hmax Hshort. unfold runWithRetry.
  pose proof (@retryLoop_attempts_bound rc m 0 (MinDelay rc) envs w Hmax
                ltac:(lia) Hshort) as H.
  destruct (retryLoop rc m 0 (MinDelay rc) envs w) as [[[r m'] w'] tr]. lia.
Qed.

(** *** The delays *)

Lemma nextDelay_range rc (delay : Z) :
  0 <= MinDelay rc <= MaxDelay rc -> MaxDelay rc < 2 ^ 62 ->
  MinDelay rc <= delay <= MaxDelay rc ->
  MinDelay rc <= nextDelay rc delay <= MaxDelay rc.
Proof.
  intros Hm HM Hd. unfold nextDelay.
  rewrite wrapInt64_small by lia.
  destruct (Z.ltb_spec (MaxDelay rc) (delay * 2)); lia.
Qed.

Lemma retryLoop_delays rc m attempt delay (envs : list attemptEnv) w :
  0 <= MinDelay rc <= MaxDelay rc -> MaxDelay rc < 2 ^ 62 ->
  MinDelay rc <= delay <= MaxDelay rc ->
  let '(_, _, _, tr) := retryLoop rc m attempt delay envs w in
  Forall (fun d => MinDelay rc <= d <= MaxDelay rc) (sleeps tr).
Proof.
  intros Hm HM. revert m attempt delay w.
  induction envs as [|env rest IH]; intros m attempt delay w Hd;
    cbn [retryLoop]; [constructor|].
  pose proof (runOnce_quiet m (startTime env) (script env) w) as H.
  destruct (runOnce m (startTime env) (script env) w) as [[[[err|] m1] w1] tr];
    destruct H as [H1 H2]; [|rewrite H2; constructor].
  destruct (ctxErr env); [rewrite H2; constructor|].
  match goal with
  | |- context [if ?b then _ else _] => destruct b
  end; [rewrite H2; constructor|].
  destruct (cancelled env); [rewrite H2; constructor|].
  set (d := if Minute <=? elapsed env then MinDelay rc else delay).
  assert (Hd' : MinDelay rc <= d <= MaxDelay rc)
    by (subst d; destruct (Minute <=? elapsed env); lia).
  match goal with
  | |- context [retryLoop rc m1 ?a (nextDelay rc d) rest w1] =>
      specialize (IH m1 a (nextDelay rc d) w1 (@nextDelay_range rc d Hm HM Hd'));
      destruct (retryLoop rc m1 a (nextDelay rc d) rest w1) as [[[r m2] w2] tr']
  end.
  change (Slept d :: tr') with ([Slept d] ++ tr').
  rewrite !sleeps_app, H2. cbn [sleeps flat_map app].
  constructor; [exact Hd' | exact IH].
Qed.

(** X17: for a configuration with [0 <= MinDelay <= MaxDelay < 2^62], every
    delay that the run sleeps lies between [MinDelay] and [MaxDelay],
    whatever the sessions do. *)
Theorem delays_within_bounds rc m (envs : list attemptEnv) w :
  0 <= MinDelay rc <= MaxDelay rc ->
  MaxDelay rc < 2 ^ 62 ->
  let '(_, _, _, tr) := runWithRetry rc m envs w in
  Forall (fun d => MinDelay rc <= d <= MaxDelay rc) (sleeps tr).
Proof.
  intros Hm HM. unfold runWithRetry.
  apply retryLoop_delays; try assumption. lia.
Qed.

(** *** Retrying for ever *)

Lemma retryLoop_unlimited rc m attempt delay (envs : list attemptEnv) w r m' w' tr :
  MaxRetries rc <= 0 ->
  retryLoop rc m attempt delay envs w = (Some r, m', w', tr) ->
  exists env e,
    In env envs /\ (ctxErr env = Some e \/ cancelled env = Some e) /\ r = Some e.
Proof.
  intros Hmax. revert m attempt delay w tr.
  induction envs as [|env rest IH]; intros m attempt delay w tr;
    cbn [retryLoop]; [discriminate|].
  destruct (runOnce m (startTime env) (script env) w) as [[[[err|] m1] w1] tr1];
    [|discriminate].
  destruct (ctxErr env) as [e|] eqn:Ec.
  { intros [= <- <- <- <-]. exists env, e. split; [now left|]. auto. }
  replace (0 <? MaxRetries rc) with false by (symmetry; apply Z.ltb_ge; lia).
  cbn [andb].
  destruct (cancelled env) as [e|] eqn:Es.
  { intros [= <- <- <- <-]. exists env, e. split; [now left|]. auto. }
  match goal with
  | |- context [retryLoop rc m1 ?a ?d rest w1] =>
      destruct (retryLoop rc m1 a d rest w1) as [[[r' m2] w2] tr'] eqn:E
  end.
  intros [= -> <- <- <-].
  destruct (IH _ _ _ _ _ E) as (env' & e & Hin & Hc & Hr).
  exists env', e. split; [now right|]. auto.
Qed.

(** X18: with [MaxRetries] zero or negative the run never gives up: it
    returns only with the error of the context, after the context is found
    done at the end of a session or during a sleep. *)
Theorem unlimited_retries_end_by_cancellation rc m (envs : list attemptEnv)
    w r m' w' tr :
  MaxRetries rc <= 0 ->
  runWithRetry rc m envs w = (Some r, m', w', tr) ->
  exists env e,
    In env envs /\ (ctxErr env = Some e \/ cancelled env = Some e) /\ r = Some e.
Proof.
  intros Hmax. apply retryLoop_unlimited. exact Hmax.
Qed.

(** *** The idle period and the ticker *)







End MoreRetries.

(* ================================================================= *)
(** * Further properties of the gate *)

Section MoreGate.

Context {World : Type}.

Implicit Types (m : monitor World) (w : World) (g : gate).

(** *** Silence *)

Lemma ticks_S (first period : Z) (n : nat) :
  ticks first period (S n) = (first, idleTick) :: ticks (first + period) period n.
Proof.
  unfold ticks. cbn [seq map]. f_equal; [f_equal; cbn; lia|].
  rewrite <- seq_shift, map_map. apply map_ext.
  intros k. f_equal. lia.
Qed.

Lemma enabled_quiet m w (now idle t : Z) (sel : selected) :
  now <= idle ->
  enabled (quietSession m w now idle) t sel <-> t = idle /\ sel = idleTick.
Proof.
  intros H. unfold enabled, quietSession, candidates, due. cbn.
  split.
  - intros [[E|[]] _]. inversion E; subst. split; [lia | reflexivity].
  - intros [-> ->]. split; [left; f_equal; lia|].
    intros t' sel' [E|[]]. inversion E; subst. lia.
Qed.

Lemma fire_quiet m w (now idle : Z) (s' : session World) :
  fst (fire (quietSession m w now idle) idle idleTick) = Live s' ->
  exists m' w',
    s' = quietSession m' w' idle (idle + maxIdleTime m) /\
    maxIdleTime m' = maxIdleTime m.
Proof.
  unfold fire, quietSession, loopBody. cbn [mon timers world waiting idleTicker].
  destruct (gather m w) as [[[[e|] m'] w'] tr] eqn:G; [discriminate|].
  cbn [fst debounceTimer maxDebounceTimer arrivals doneAt errAt waiting].
  intros [= <-]. exists m', w'. split; [reflexivity|].
  now destruct (gather_keeps_config _ _ G) as (_ & _ & ?).
Qed.

Lemma exec_quiet (s : session World) (tr : list (Z * selected))
    (st : status World) :
  exec s tr st ->
  forall m w now idle,
    s = quietSession m w now idle -> now <= idle -> 0 <= maxIdleTime m ->
    tr = ticks idle (maxIdleTime m) (List.length tr).
Proof.
  induction 1 as [s|s t sel err He Hf|s t sel s' tr st He Hf Hx IH];
    intros m w now idle -> Hn Hi.
  - reflexivity.
  - apply enabled_quiet in He; [|assumption]. destruct He as [-> ->].
    cbn [List.length]. rewrite ticks_S. reflexivity.
  - apply enabled_quiet in He; [|assumption]. destruct He as [-> ->].
    apply fire_quiet in Hf. destruct Hf as (m' & w' & -> & Em).
    cbn [List.length]. rewrite ticks_S. f_equal.
    specialize (IH m' w' idle (idle + maxIdleTime m) eq_refl
                  ltac:(lia) ltac:(lia)).
    rewrite Em in IH. exact IH.
Qed.

(** X20: in silence the ticker alone drives the session.  With a positive
    idle period [runOnce] gets its ticker, and with no event to come every
    run of the session it has just started takes the idle tick at
    [maxIdleTime] after the start, then again every [maxIdleTime], and
    nothing else; and the first tick can be taken. *)
Theorem silence_refreshes_every_idle_time m w (start : Z) :
  0 < maxIdleTime m ->
  exists g,
    newGate m start = Some g /\
    let s := mkSession start [] None None g m w in
    (forall tr st,
        exec s tr st ->
        tr = ticks (start + maxIdleTime m) (maxIdleTime m) (List.length tr)) /\
    (exists st, exec s [(start + maxIdleTime m, idleTick)] st).
Proof.
  intros Hi. exists (mkGate None None (start + maxIdleTime m) false).
  split; [now apply newGate_Some|]. intros s. split.
  - intros tr st Hx.
    apply (exec_quiet Hx (m := m) (w := w) (now := start)); [reflexivity | lia | lia].
  - apply exec_one.
    apply (enabled_quiet m w (now := start)); [lia | auto].
Qed.

(** *** A burst *)

Section Burst.

Variables (m : monitor World) (w : World) (first : Z).

Hypothesis debounce_nonneg : 0 <= debounce m.
Hypothesis debounce_idle : debounce m < maxIdleTime m.

(** The burst ends early enough for the debounce timer to fire before the
    max-debounce timer. *)
Let inTime (cur : Z) (rest : list Z) : Prop :=
  last rest cur + debounce m < first + maxDebounceTime m.

Lemma last_cons (a cur : Z) (rest : list Z) :
  last (a :: rest) cur = last rest a.
Proof.
  revert a cur. induction rest as [|b rest IH]; intros a cur; [reflexivity|].
  change (last (a :: b :: rest) cur) with (last (b :: rest) cur).
  now rewrite (IH b cur), (IH b a).
Qed.

Lemma burst_last (cur : Z) (rest : list Z) :
  burst (debounce m) cur rest -> cur <= last rest cur.
Proof.
  revert cur. induction rest as [|a rest IH]; intros cur; cbn [burst].
  - cbn. lia.
  - intros [Ha Hb]. rewrite last_cons. specialize (IH a Hb). lia.
Qed.

Lemma enabled_burst_event (cur a t : Z) (rest : list Z) (sel : selected) :
  burst (debounce m) cur (a :: rest) -> inTime cur (a :: rest) ->
  enabled (burstSession m w first cur (a :: rest)) t sel <->
  t = a /\ sel = recvEvent.
Proof.
  intros [Ha Hb] Ht. unfold inTime in Ht. rewrite last_cons in Ht.
  pose proof (burst_last a rest Hb) as Hl.
  unfold enabled, burstSession, candidates, due. cbn.
  split.
  - intros [Hin Hmin].
    pose proof (Hmin _ _ (or_introl eq_refl)) as M1.
    destruct Hin as [E|[E|[E|[E|[]]]]]; inversion E; subst;
      try (split; [lia | reflexivity]); lia.
  - intros [-> ->]. split; [left; f_equal; lia|].
    intros t' sel' [E|[E|[E|[E|[]]]]]; inversion E; subst; lia.
Qed.

Lemma enabled_burst_end (cur t : Z) (sel : selected) :
  inTime cur [] ->
  enabled (burstSession m w first cur []) t sel <->
  t = cur + debounce m /\ sel = debounceFired.
Proof.
  unfold inTime. cbn [last]. intros Ht.
  unfold enabled, burstSession, candidates, due. cbn.
  split.
  - intros [Hin Hmin].
    pose proof (Hmin _ _ (or_introl eq_refl)) as M1.
    destruct Hin as [E|[E|[E|[]]]]; inversion E; subst;
      try (split; [lia | reflexivity]); lia.
  - intros [-> ->]. split; [left; f_equal; lia|].
    intros t' sel' [E|[E|[E|[]]]]; inversion E; subst; lia.
Qed.

Lemma fire_burst_event (cur a : Z) (rest : list Z) :
  fst (fire (burstSession m w first cur (a :: rest)) a recvEvent) =
  Live (burstSession m w first a rest).
Proof. rewrite fire_event. reflexivity. Qed.

Lemma fire_burst_end (cur : Z) (s' : session World) :
  fst (fire (burstSession m w first cur []) (cur + debounce m) debounceFired) =
    Live s' ->
  exists m' w',
    s' = quietSession m' w' (cur + debounce m)
                      (cur + debounce m + maxIdleTime m) /\
    maxIdleTime m' = maxIdleTime m.
Proof.
  unfold fire, burstSession, loopBody. cbn [mon timers world].
  destruct (gather m w) as [[[[e|] m'] w'] tr] eqn:G; [discriminate|].
  cbn [fst arrivals doneAt errAt].
  intros [= <-]. exists m', w'. split; [reflexivity|].
  now destruct (gather_keeps_config _ _ G) as (_ & _ & ?).
Qed.

Lemma isPrefix_nil {A} (l : list A) : isPrefix [] l.
Proof. now exists l. Qed.

Lemma isPrefix_cons {A} (x : A) (l l' : list A) :
  isPrefix l l' -> isPrefix (x :: l) (x :: l').
Proof. intros [rest ->]. now exists rest. Qed.

Lemma exec_burst (rest : list Z) :
  forall (cur : Z) (tr : list (Z * selected)) (st : status World),
    burst (debounce m) cur rest -> inTime cur rest ->
    exec (burstSession m w first cur rest) tr st ->
    exists n,
      isPrefix tr (burstSchedule (debounce m) (maxIdleTime m) cur rest n).
Proof.
  induction rest as [|a rest IH]; intros cur tr st Hb Ht Hx.
  - unfold burstSchedule. cbn [map app last].
    inversion Hx as [s|s t sel err He Hf|s t sel s' tr' st' He Hf Hx']; subst.
    + exists 0%nat. apply isPrefix_nil.
    + apply enabled_burst_end in He; [|assumption]. destruct He as [-> ->].
      exists 0%nat. apply isPrefix_cons, isPrefix_nil.
    + apply enabled_burst_end in He; [|assumption]. destruct He as [-> ->].
      apply fire_burst_end in Hf. destruct Hf as (m' & w' & -> & Em).
      exists (List.length tr'). apply isPrefix_cons.
      exists []. rewrite app_nil_r.
      pose proof (exec_quiet Hx' (m := m') (w := w') eq_refl
                    ltac:(lia) ltac:(lia)) as Q.
      rewrite Em in Q. symmetry. exact Q.
  - unfold burstSchedule. rewrite last_cons. cbn [map app].
    inversion Hx as [s|s t sel err He Hf|s t sel s' tr' st' He Hf Hx']; subst.
    + exists 0%nat. apply isPrefix_nil.
    + apply enabled_burst_event in He; try assumption. destruct He as [-> ->].
      rewrite fire_burst_event in Hf. discriminate.
    + apply enabled_burst_event in He; try assumption. destruct He as [-> ->].
      rewrite fire_burst_event in Hf. injection Hf as <-.
      destruct Hb as [Ha Hb]. unfold inTime in Ht. rewrite last_cons in Ht.
      destruct (IH a tr' st Hb Ht Hx') as (n & Hp).
      exists n. now apply isPrefix_cons.
Qed.

Lemma exec_burst_exists (rest : list Z) :
  forall cur : Z,
    burst (debounce m) cur rest -> inTime cur rest ->
    exists st,
      exec (burstSession m w first cur rest)
           (burstSchedule (debounce m) (maxIdleTime m) cur rest 0) st.
Proof.
  induction rest as [|a rest IH]; intros cur Hb Ht.
  - unfold burstSchedule. cbn [map app last ticks seq].
    apply exec_one. now apply enabled_burst_end.
  - unfold burstSchedule. rewrite last_cons. cbn [map app].
    destruct Hb as [Ha Hb]. pose proof Ht as Ht'.
    unfold inTime in Ht'. rewrite last_cons in Ht'.
    destruct (IH a Hb Ht') as (st & Hx).
    exists st. apply exec_cons with (s' := burstSession m w first a rest).
    + apply enabled_burst_event; [split; assumption | exact Ht | auto].
    + apply fire_burst_event.
    + exact Hx.
Qed.

End Burst.

Lemma firstRefresh_prefix_events (l : list Z) (x : Z * selected)
    (rest tr : list (Z * selected)) :
  refreshes (snd x) = true ->
  isPrefix tr (map (fun a => (a, recvEvent)) l ++ x :: rest) ->
  firstRefresh tr = None \/ firstRefresh tr = Some x.
Proof.
  intros Hx. revert tr. induction l as [|a l IH]; intros tr [suffix E];
    cbn [map app] in E.
  - destruct tr as [|y tr]; [now left|].
    injection E as <- _. right. destruct x as [t sel]. cbn in *. now rewrite Hx.
  - destruct tr as [|y tr]; [now left|].
    injection E as <- E. cbn [firstRefresh refreshes].
    apply IH. now exists suffix.
Qed.

(** X19: a burst of events, each less than [debounce] after the one
    before, that ends early enough for the debounce timer to come before
    the max-debounce timer, is answered by one refresh: every run of a
    session that meets the burst while idle takes the events, then the
    debounce timer at [debounce] after the last event, then only idle
    ticks, one every [maxIdleTime]; and the run up to the refresh
    exists. *)
Theorem burst_is_debounced m w (now idle0 a1 : Z) (rest : list Z) :
  0 <= debounce m ->
  debounce m < maxIdleTime m ->
  now <= a1 < idle0 ->
  burst (debounce m) a1 rest ->
  last rest a1 + debounce m < a1 + maxDebounceTime m ->
  let start := burstStart m w now idle0 a1 rest in
  let refresh := (last rest a1 + debounce m, debounceFired) in
  (forall tr st,
      exec start tr st ->
      (exists n,
          isPrefix tr ((a1, recvEvent) ::
                       burstSchedule (debounce m) (maxIdleTime m) a1 rest n)) /\
      (firstRefresh tr = None \/ firstRefresh tr = Some refresh)) /\
  (exists st,
      exec start
           ((a1, recvEvent) ::
            burstSchedule (debounce m) (maxIdleTime m) a1 rest 0) st).
Proof.
  intros Hd Hi Hn Hb Ht start refresh.
  assert (He : forall t sel, enabled start t sel <-> t = a1 /\ sel = recvEvent).
  { intros t sel. unfold enabled, start, burstStart, candidates, due. cbn.
    split.
    - intros [Hin Hmin].
      pose proof (Hmin _ _ (or_introl eq_refl)) as M1.
      destruct Hin as [E|[E|[]]]; inversion E; subst;
        try (split; [lia | reflexivity]); lia.
    - intros [-> ->]. split; [left; f_equal; lia|].
      intros t' sel' [E|[E|[]]]; inversion E; subst; lia. }
  assert (Hf : fst (fire start a1 recvEvent) = Live (burstSession m w a1 a1 rest)).
  { rewrite fire_event. reflexivity. }
  assert (Hp : forall tr st, exec start tr st ->
             exists n, isPrefix tr ((a1, recvEvent) ::
               burstSchedule (debounce m) (maxIdleTime m) a1 rest n)).
  { intros tr st Hx.
    inversion Hx as [s|s t sel err E1 E2|s t sel s' tr' st' E1 E2 Hx']; subst.
    - exists 0%nat. apply isPrefix_nil.
    - apply He in E1. destruct E1 as [-> ->]. rewrite Hf in E2. discriminate.
    - apply He in E1. destruct E1 as [-> ->]. rewrite Hf in E2.
      injection E2 as <-.
      destruct (@exec_burst m w a1 Hd Hi rest a1 tr' st Hb Ht Hx') as (n & P).
      exists n. now apply isPrefix_cons. }
  split.
  - intros tr st Hx. destruct (Hp tr st Hx) as (n & P). split; [now exists n|].
    unfold burstSchedule in P.
    apply (@firstRefresh_prefix_events (a1 :: rest) refresh
             (ticks (last rest a1 + debounce m + maxIdleTime m) (maxIdleTime m) n));
      [reflexivity | exact P].
  - destruct (@exec_burst_exists m w a1 Hd Hi rest a1 Hb Ht) as (st & Hx).
    exists st. apply exec_cons with (s' := burstSession m w a1 a1 rest).
    + apply He. auto.
    + exact Hf.
    + exact Hx.
Qed.

End MoreGate.

(* ================================================================= *)
(** * The properties on the sample data *)

Section Samples.

Import sample.

Example fnv_of_a : WriteString fnv.New64a "a" = 12638187200555641996.
Proof. vm_compute. reflexivity. Qed.

(** From the tests of the hasher: the empty container does not hash to
    zero, the empty list does. *)
Example hash_of_empty_container :
  Container.hash (Container.mk "" "" "" "" nilMap nilSlice nilSlice) <> 0 /\
  computeHash [] = 0.
Proof. vm_compute. split; [discriminate | reflexivity]. Qed.

(** From the tests of the hasher: aliases in another order, another
    address, another state. *)
Example hash_tests :
  Network.hash (Network.mk "bridge" "abc123" "" "" "" (Slice ["web"; "api"; "service"])) =
  Network.hash (Network.mk "bridge" "abc123" "" "" "" (Slice ["api"; "service"; "web"])) /\
  Network.hash (Network.mk "bridge" "abc123" "172.17.0.2" "" "" nilSlice) <>
  Network.hash (Network.mk "bridge" "abc123" "172.17.0.3" "" "" nilSlice) /\
  Container.hash (Container.mk "container123" "" "" "running" nilMap nilSlice nilSlice) <>
  Container.hash (Container.mk "container123" "" "" "exited" nilMap nilSlice nilSlice) /\
  Port.hash (Port.mk "0.0.0.0" 8080 80 "tcp") <>
  Port.hash (Port.mk "0.0.0.0" 8080 80 "udp").
Proof. vm_compute. repeat split; discriminate. Qed.

(** From the tests of the filters. *)
Example filter_tests :
  let runningProdWeb :=
    Container.mk "1" "" "" "running" (Map [("app", "web"); ("env", "prod")])
                 nilSlice nilSlice in
  All [] runningProdWeb = true /\
  Any [] runningProdWeb = false /\
  All [StateEquals "running"; LabelExists "app"; LabelEquals "env" "prod"]
      runningProdWeb = true /\
  All [StateEquals "running"; LabelEquals "env" "dev"] runningProdWeb = false /\
  LabelEquals "env" "prod" runningProdWeb = true /\
  LabelEquals "env" "dev" runningProdWeb = false /\
  LabelEquals "missing" "value" runningProdWeb = false /\
  Not (All [StateEquals "running"; LabelEquals "env" "prod"]) runningProdWeb = false.
Proof. vm_compute. repeat split. Qed.

(** The ports of an inspection: a port without a number, or a binding
    without a host port, is left out. *)
Example convertContainer_ports :
  Container.Ports
    (convertContainer
       (docker.mkInspectResponse "c" "/c" "img" nilMap "running"
          (Some (docker.mkNetworkSettings nilMap
             (Map [("80/tcp", Slice [docker.mkPortBinding "0.0.0.0" "8080";
                                     docker.mkPortBinding "::" ""]);
                   ("http", Slice [docker.mkPortBinding "0.0.0.0" "1"]);
                   ("70000/udp", Slice [docker.mkPortBinding "0.0.0.0" "2"])]))))) =
  Slice [Port.mk "0.0.0.0" 8080 80 "tcp"].
Proof. vm_compute. reflexivity. Qed.

Lemma sample_pulls :
  gatherContainers monitor0 daemon = (inr firstPull, afterFirst) /\
  gatherContainers monitor0 afterFirst = (inr secondPull, afterSecond).
Proof. vm_compute. split; reflexivity. Defined.

Lemma sample_wf :
  Forall (fun c => wf_map (Container.Labels c)) (elems firstPull).
Proof.
  repeat constructor; cbn; intuition discriminate.
Defined.

Lemma sample_same : sameCollection (elems firstPull) (elems secondPull).
Proof.
  exists [convertContainer webAgain; convertContainer db]. split.
  - constructor; [|constructor; [|constructor]].
    + repeat (split; [reflexivity|]). split; [|split].
      * apply perm_swap.
      * exists [Network.mk "bridge" "net1" "172.17.0.2" "" "172.17.0.1"
                           (Slice ["api"; "web"]);
                Network.mk "custom" "net2" "10.0.0.2" "" "10.0.0.1" nilSlice].
        split.
        -- constructor; [|constructor; [|constructor]].
           ++ repeat (split; [reflexivity|]). apply perm_swap.
           ++ repeat (split; [reflexivity|]). constructor.
        -- apply perm_swap.
      * apply perm_swap.
    + repeat (split; [reflexivity|]). split.
      * exists []. split; constructor.
      * constructor.
  - apply perm_swap.
Defined.

Lemma computeHash_order_insensitive_witness :
  computeHash (elems firstPull) = computeHash (elems secondPull).
Proof.
  apply computeHash_order_insensitive; [exact sample_wf | exact sample_same].
Defined.

Lemma gather_delivers_on_change_witness :
  gatherContainers monitor0 daemon = (inr firstPull, afterFirst) /\
  exists m1,
    gather monitor0 daemon =
      (None, m1, afterFirst,
       [Invoked (Some (computeHash (elems firstPull))) firstPull]) /\
    gather m1 afterFirst = (None, m1, afterSecond, []).
Proof.
  split; [exact (proj1 sample_pulls)|].
  destruct (@gather_delivers_on_change mock.t monitor0 daemon firstPull
              afterFirst (proj1 sample_pulls))
    as (m1 & tr & G & M & D & _ & N & _).
  exists m1. split.
  - rewrite G, D; [reflexivity | discriminate].
  - apply N with (containers2 := secondPull).
    + rewrite M. exact (proj2 sample_pulls).
    + exact sample_wf.
    + exact sample_same.
Defined.

Example pull_skips_failed_inspection :
  gatherContainers monitor0 inspectFails =
    (inr (Slice [convertContainer db]), inspectFails).
Proof. vm_compute. reflexivity. Qed.

Lemma session_start_delivers_on_change_witness :
  let rc := mkReconnect Second (8 * Second) 2 in
  let h := computeHash (elems firstPull) in
  snd (retryLoop rc reconnecting 0 Second [brokenStream; shortAttempt] steady) =
    [Subscribed; Invoked (Some h) firstPull; Slept Second; Subscribed].
Proof.
  intros rc h.
  assert (E : runOnce reconnecting (startTime brokenStream) (script brokenStream)
                      steady =
              (Some (Some (wrapError "failed to stream events: " (errorString "EOF"))),
               setPreviousHash reconnecting (Some h), steady,
               [Subscribed; Invoked (Some h) firstPull]))
    by (vm_compute; reflexivity).
  destruct (proj1 (proj2 (proj2 (proj2 (@session_start_delivers_on_change mock.t))))
              rc reconnecting 0 Second brokenStream [shortAttempt] steady _ _ _ _
              E eq_refl eq_refl eq_refl) as (_ & _ & N).
  destruct (N shortAttempt [] firstPull steady eq_refl)
    as (m2 & tr0 & more & _ & _ & S & _ & T & M).
  - vm_compute. reflexivity.
  - rewrite T. destruct S as [-> _]; [vm_compute; reflexivity|].
    rewrite M; [reflexivity | reflexivity | vm_compute; reflexivity].
Defined.

(** C4, as the claim has it, fails: with reconnection, the second session
    starts with a pull that succeeds and returns what the first session
    delivered, and the callback is not called. *)
Lemma reconnect_start_without_delivery :
  let opts := [WithDockerClient mock.client;
               WithAutoReconnect Second (8 * Second) 0] in
  Run (inl (errorString "no client")) opts [brokenStream; shortAttempt] steady =
    (None, steady,
     [Subscribed;
      Invoked (Some (computeHash (elems firstPull))) firstPull;
      Slept Second;
      Subscribed]) /\
  gatherContainers (newMonitor (applyOptions opts) mock.client) steady =
    (inr firstPull, steady).
Proof. vm_compute. split; reflexivity. Qed.

Lemma sample_rapid (n : nat) :
  rapidFailures monitor0 listingFails (repeat shortAttempt n)
                monitor0 listingFails.
Proof.
  induction n as [|n IH]; cbn [repeat]; [constructor|].
  eapply rapid_cons with (err := Some (wrapError "failed to refresh containers: "
                                         (errorString "connection refused")))
                         (tr := [Subscribed]);
    [reflexivity | reflexivity | vm_compute; reflexivity | reflexivity | exact IH].
Defined.

Lemma sample_rapid_reconnecting (n : nat) :
  rapidFailures reconnecting listingFails (repeat shortAttempt n)
                reconnecting listingFails.
Proof.
  induction n as [|n IH]; cbn [repeat]; [constructor|].
  eapply rapid_cons with (err := Some (wrapError "failed to refresh containers: "
                                         (errorString "connection refused")))
                         (tr := [Subscribed]);
    [reflexivity | reflexivity | vm_compute; reflexivity | reflexivity | exact IH].
Defined.

Lemma run_surfaces_pull_error_witness :
  let opts := [WithDockerClient mock.client;
               WithAutoReconnect Second (8 * Second) 2] in
  Run (inl (errorString "no client")) [WithDockerClient mock.client]
      [shortAttempt] listingFails =
    (Some (Some (wrapError "failed to refresh containers: "
                   (errorString "connection refused"))),
     listingFails, [Subscribed]) /\
  exists err tr,
    Run (inl (errorString "no client")) opts (repeat shortAttempt 5) listingFails =
      (Some err, listingFails, tr) /\
    attempts tr = 3%nat /\
    List.length (sleeps tr) = 2%nat.
Proof.
  intros opts. split.
  - apply (proj1 (proj2 (proj2 (proj2 (@run_surfaces_pull_error mock.t))))
             (inl (errorString "no client")) [WithDockerClient mock.client]
             mock.client); reflexivity.
  - destruct (proj2 (proj2 (proj2 (proj2 (proj2 (proj2
                (@run_surfaces_pull_error mock.t))))))
                (inl (errorString "no client")) opts mock.client
                shortAttempt shortAttempt shortAttempt (repeat shortAttempt 2)
                listingFails reconnecting listingFails
                eq_refl eq_refl eq_refl (sample_rapid_reconnecting 3))
      as (err & tr & _ & _ & _ & R & A & S & _).
    exists err, tr. split; [exact R|]. split; [exact A | exact S].
Defined.

Lemma backoff_schedule_witness :
  exists tr,
    runWithRetry (mkReconnect Second (8 * Second) 0) monitor0
                 (repeat shortAttempt 5) listingFails =
      (None, monitor0, listingFails, tr) /\
    sleeps tr = [1 * Second; 2 * Second; 4 * Second; 8 * Second; 8 * Second].
Proof.
  destruct (@backoff_schedule mock.t (mkReconnect Second (8 * Second) 0)
              monitor0 listingFails (repeat shortAttempt 5)
              monitor0 listingFails)
    as [(tr & R & S) _].
  - vm_compute. split; discriminate.
  - reflexivity.
  - left. vm_compute. discriminate.
  - exact (sample_rapid 5).
  - exists tr. split; [exact R|]. rewrite S. vm_compute. reflexivity.
Defined.

(** C7, as the claim has it, fails for a configuration whose minimum
    exceeds its maximum: the first delay is the minimum, not the maximum. *)
Lemma backoff_with_min_above_max :
  let rc := mkReconnect (10 * Second) (5 * Second) 0 in
  let tr := snd (runWithRetry rc monitor0 (repeat shortAttempt 2) listingFails) in
  sleeps tr = [10 * Second; 5 * Second] /\
  map (backoff rc) (seq 1 2) = [5 * Second; 5 * Second] /\
  sleeps tr <> map (backoff rc) (seq 1 2).
Proof. vm_compute. repeat split. discriminate. Qed.

Lemma max_debounce_armed_once_witness :
  exists tr st,
    exec (stormStart monitor0 steady 0 (10 * Millisecond) 501 (30 * Second))
         tr st /\
    firstRefresh tr = Some (5 * Second, maxDebounceFired).
Proof.
  destruct (proj2 (proj2 (proj2 (@max_debounce_armed_once mock.t)))
              monitor0 steady 0 (10 * Millisecond) (30 * Second) 501%nat)
    as (_ & _ & X & _); try (vm_compute; reflexivity).
  - vm_compute. discriminate.
  - destruct (X eq_refl eq_refl eq_refl) as (_ & tr & st & Hx & F).
    exists tr, st. split; [exact Hx | exact F].
Defined.

(** C2, as the claim has it, fails for a session whose idle period is
    shorter than the gap between the events: with events every 10ms for
    more than five seconds, a debounce time of 100ms, a max-debounce time
    of 5s and an idle period of 5ms, the first refresh is the tick 5ms
    after the first event, the ticker closes every window and the
    max-debounce timer never fires. *)
Lemma storm_with_short_idle_time :
  let start :=
    stormStart shortIdle steady 0 (10 * Millisecond) 501 (5 * Millisecond) in
  debounce shortIdle = 10 * (10 * Millisecond) /\
  maxDebounceTime shortIdle < Z.of_nat 501 * (10 * Millisecond) /\
  (exists st, exec start [(0, recvEvent); (5 * Millisecond, idleTick)] st) /\
  (forall tr st,
      exec start tr st ->
      (firstRefresh tr = None \/
       firstRefresh tr = Some (5 * Millisecond, idleTick)) /\
      forall t, ~ In (t, maxDebounceFired) tr).
Proof.
  intros start.
  split; [reflexivity|]. split; [reflexivity|].
  destruct (@storm_hasty mock.t shortIdle steady 0 (10 * Millisecond)
              (5 * Millisecond) 501%nat) as [H1 H2];
    try (vm_compute; reflexivity).
  - vm_compute. discriminate.
  - split; [exact H2 | exact H1].
Qed.

(** *** The further properties on the sample data *)

Lemma LabelExists_meaning_witness :
  LabelExists "env" (convertContainer web) = true /\
  In ("env", "prod") (entries (Container.Labels (convertContainer web))).
Proof.
  apply (proj2 (LabelExists_meaning "env" "prod" (convertContainer web)));
    [discriminate | reflexivity].
Defined.

Lemma hash_runs_fields_together_witness :
  let c := Container.mk "ab" "c" "" "" nilMap nilSlice nilSlice in
  let c' := Container.mk "a" "bc" "" "" nilMap nilSlice nilSlice in
  c <> c' /\ Container.hash c = Container.hash c'.
Proof.
  split; [discriminate|].
  apply (proj1 hash_runs_fields_together); reflexivity.
Defined.

Lemma gatherContainers_result_witness :
  Forall (fun c => passes monitor0 c = true) (elems firstPull) /\
  (elems firstPull = [] -> firstPull = nilSlice).
Proof.
  destruct (@gatherContainers_result mock.t monitor0 daemon firstPull afterFirst
              (proj1 sample_pulls)) as (H1 & _ & H3).
  split; [exact H1 | exact H3].
Defined.

Lemma convertPort_skips_malformed_keys_witness :
  convertPort nilSlice ("http", Slice [docker.mkPortBinding "0.0.0.0" "1"]) =
  nilSlice.
Proof.
  apply (proj1 (proj2 convertPort_skips_malformed_keys)).
  vm_compute. discriminate.
Defined.

Lemma gate_timers_follow_waiting_witness :
  gateOk (mkGate (Some (1 + debounce monitor0))
                 (Some (1 + maxDebounceTime monitor0))
                 (1 + maxIdleTime monitor0) true).
Proof.
  apply (proj1 (proj2 (@gate_timers_follow_waiting mock.t))
           monitor0 (mkGate None None (30 * Second) false) 1 recvEvent steady _
           monitor0 steady []).
  - apply (proj1 (@gate_timers_follow_waiting mock.t) monitor0 0). reflexivity.
  - reflexivity.
Defined.

Lemma events_alone_do_nothing_witness :
  eventLoop monitor0 (mkGate None None (30 * Second) false)
            [(1, recvEvent); (2, recvEvent); (3, recvEvent)] steady =
  (None, monitor0, steady, []).
Proof.
  apply events_alone_do_nothing. repeat constructor.
Defined.

Lemma session_ends_witness :
  let s := script brokenStream in
  let r := Some (wrapError "failed to stream events: " (errorString "EOF")) in
  (exists e, r = Some (wrapError "failed to refresh containers: " e)) \/
  (exists now e, In (now, ctxDone e) s /\ r = Some e) \/
  (exists now e, In (now, recvErr (Some e)) s /\
                 r = Some (wrapError "failed to stream events: " e)) \/
  (exists now, In (now, recvErr None) s /\ r = None).
Proof.
  eapply (@session_ends mock.t monitor0 0 (script brokenStream) steady).
  vm_compute. reflexivity.
Defined.

Lemma attempts_and_sleeps_witness :
  let '(_, _, _, tr) := run monitor0 [shortAttempt; shortAttempt] listingFails in
  (attempts tr <= 1)%nat /\ sleeps tr = [].
Proof.
  apply (proj2 (@attempts_and_sleeps mock.t)). reflexivity.
Defined.

Lemma attempts_bounded_witness :
  let '(_, _, _, tr) :=
    runWithRetry (mkReconnect Second (8 * Second) 2) monitor0
                 (repeat shortAttempt 5) listingFails in
  Z.of_nat (attempts tr) <= 3.
Proof.
  apply (@attempts_bounded mock.t (mkReconnect Second (8 * Second) 2)).
  - vm_compute. split; reflexivity.
  - repeat constructor.
Defined.

Lemma delays_within_bounds_witness :
  let '(_, _, _, tr) :=
    runWithRetry (mkReconnect Second (8 * Second) 0) monitor0
                 (repeat shortAttempt 5) listingFails in
  Forall (fun d => Second <= d <= 8 * Second) (sleeps tr).
Proof.
  apply (@delays_within_bounds mock.t (mkReconnect Second (8 * Second) 0)).
  - vm_compute. split; discriminate.
  - reflexivity.
Defined.

Lemma unlimited_retries_end_by_cancellation_witness :
  let envs := [shortAttempt; mkAttempt 0 [] (Some Canceled) Second None] in
  exists env e,
    In env envs /\ (ctxErr env = Some e \/ cancelled env = Some e) /\
    Some Canceled = Some e.
Proof.
  eapply (@unlimited_retries_end_by_cancellation mock.t
            (mkReconnect Second (8 * Second) 0) monitor0 _ listingFails).
  - vm_compute. discriminate.
  - vm_compute. reflexivity.
Defined.

Lemma silence_refreshes_every_idle_time_witness :
  exists g,
    newGate monitor0 0 = Some g /\
    exists st,
      exec (mkSession 0 [] None None g monitor0 steady)
           [(30 * Second, idleTick)] st.
Proof.
  destruct (@silence_refreshes_every_idle_time mock.t monitor0 steady 0)
    as (g & N & _ & X).
  - vm_compute. reflexivity.
  - exists g. split; [exact N | exact X].
Defined.

Lemma burst_is_debounced_witness :
  exists st,
    exec (burstStart monitor0 steady 0 (30 * Second) Second
                     [Second + 50 * Millisecond; Second + 100 * Millisecond])
         [(Second, recvEvent);
          (Second + 50 * Millisecond, recvEvent);
          (Second + 100 * Millisecond, recvEvent);
          (Second + 200 * Millisecond, debounceFired)] st.
Proof.
  apply (@burst_is_debounced mock.t monitor0 steady 0 (30 * Second) Second
           [Second + 50 * Millisecond; Second + 100 * Millisecond]).
  - vm_compute. discriminate.
  - reflexivity.
  - vm_compute. split; [discriminate | reflexivity].
  - vm_compute. repeat split; discriminate.
  - reflexivity.
Defined.


End Samples.
